(** * rails-source-maps: the file-processing pipeline of [lib/rails_source_maps.js]

    A shallow embedding of the script. JavaScript strings are [string]s, the
    assets directory is a finite map from paths to file contents, and the
    callback chains ([async.waterfall], [async.forEachSeries]) are
    computations in a small state-and-error monad that threads the files
    and a trace of the effects performed.

    Conventions of the model:
    - a file's content is its text ([Buffer.toString()] is the identity);
    - an [fs] call fails only on a missing file, with [ENOENT];
    - an exception thrown inside a callback is caught by nothing in the
      script, so it ends the computation ([Throw]);
    - the tasks of the work queue are run one after the other in the order
      they were pushed (pipelines of different files touch different paths);
    - the minifier, the gzip transform, the [gzip] option of line 17, the
      two glob patterns and the times at which the parallel reads of
      [async.each] complete are parameters;
    - the directory walk of the earlier variant (lines 480-520) sees the
      tree below the assets directory as a [Legacy.node]. *)

From Stdlib Require Import ZArith Ascii String.
From stdpp Require Import gmap strings list fin_maps sorting.
From Equations Require Import Equations.
From Equations.Prop Require Import Logic.

(** ** JavaScript string primitives *)

Module Js.

(** [s.indexOf(p) === 0], also written [stripPrefix p s <> None]. *)
Fixpoint startsWith (p s : string) : bool :=
  match p, s with
  | EmptyString, _ => true
  | String a p', String b s' => if Ascii.eqb a b then startsWith p' s' else false
  | String _ _, EmptyString => false
  end.

(** The text that follows [p] at the head of [s]. *)
Fixpoint stripPrefix (p s : string) : option string :=
  match p, s with
  | EmptyString, _ => Some s
  | String a p', String b s' => if Ascii.eqb a b then stripPrefix p' s' else None
  | String _ _, EmptyString => None
  end.

(** The text that precedes [suf] at the end of [s]. *)
Fixpoint stripSuffix (suf s : string) : option string :=
  if String.eqb s suf then Some EmptyString
  else match s with
       | EmptyString => None
       | String c s' => option_map (String c) (stripSuffix suf s')
       end.

Definition endsWith (suf s : string) : bool :=
  match stripSuffix suf s with Some _ => true | None => false end.

(** [s.indexOf(needle)]: the first position of [needle], or [-1]. *)
Fixpoint indexOf (needle s : string) : Z :=
  if startsWith needle s then 0%Z
  else match s with
       | EmptyString => (-1)%Z
       | String _ s' =>
           let i := indexOf needle s' in
           if (i <? 0)%Z then (-1)%Z else (1 + i)%Z
       end.

Fixpoint dropString (n : nat) (s : string) : string :=
  match n, s with
  | O, _ => s
  | S _, EmptyString => EmptyString
  | S n', String _ s' => dropString n' s'
  end.

(** [s.slice(-1 * n)]: the last [n] characters, all of [s] when it is
    shorter, and all of [s] for [n = 0] (the index [-0] is [0]). *)
Definition sliceLast (n : nat) (s : string) : string :=
  match n with
  | O => s
  | S _ => dropString (String.length s - n) s
  end.

(** [s.replace(needle, rep)] with a string pattern: the first occurrence
    only. *)
Fixpoint replaceFirst (needle rep s : string) : string :=
  match stripPrefix needle s with
  | Some r => rep +:+ r
  | None => match s with
            | EmptyString => EmptyString
            | String c s' => String c (replaceFirst needle rep s')
            end
  end.

(** [s.replace(/\.js$/, rep)]. *)
Definition replaceJsSuffix (rep s : string) : string :=
  match stripSuffix ".js" s with
  | Some base => base +:+ rep
  | None => s
  end.

(** [s.replace(/^((\.\/)?public\/)?/, '/')]: the anchored optional group
    is tried greedily, [./public/] first, then [public/], then empty. *)
Definition stripPublic (s : string) : string :=
  match stripPrefix "./public/" s with
  | Some r => r
  | None => match stripPrefix "public/" s with
            | Some r => r
            | None => s
            end
  end.

Definition toSitePath (s : string) : string := "/" +:+ stripPublic s.

(** An optional character of a regular expression, greedy with
    backtracking: [c?] followed by the continuation [k]. *)
Definition optChar (c : ascii) (k : string -> option string) (s : string)
  : option string :=
  match s with
  | String c' r =>
      if Ascii.eqb c c'
      then match k r with Some t => Some t | None => k s end
      else k s
  | EmptyString => k s
  end.

Definition assetsLiteral : string := "public/assets/".

(** [/\.?\/?public\/assets\//] tried at the head of [s]: the text after
    the match. *)
Definition matchAssets : string -> option string :=
  optChar "." (optChar "/" (stripPrefix assetsLiteral)).

(** [s.replace(/\/$/, '')]: one trailing slash removed. *)
Definition stripTrailingSlash (s : string) : string :=
  match stripSuffix "/" s with
  | Some base => base
  | None => s
  end.

End Js.

(** A contiguous occurrence of [needle] in [s]. *)
Definition occursIn (needle s : string) : Prop :=
  exists a b, s = a +:+ needle +:+ b.

Equations? rewritePaths (s : string) : string by wf (String.length s) lt :=
  rewritePaths s with inspect (Js.matchAssets s) := {
    | exist _ (Some r) Hm => "/assets/" +:+ rewritePaths r
    | exist _ None Hm with s := {
      | EmptyString => EmptyString
      | String c s' => String c (rewritePaths s') } }.
Proof.
  (* a match takes at least the fourteen characters of the literal *)
  clear rewritePaths.
  assert (forall p t r0, Js.stripPrefix p t = Some r0 ->
                         String.length r0 + String.length p <= String.length t)
    as Hstrip.
  { induction p as [|a p IH]; intros [|b t] r0; simpl; try discriminate.
    - intros [= <-]. reflexivity.
    - intros [= <-]. simpl. lia.
    - destruct (Ascii.eqb a b); [|discriminate]. intros E%IH. lia. }
  assert (forall c k,
            (forall t r0, k t = Some r0 -> String.length r0 + 14 <= String.length t) ->
            forall t r0, Js.optChar c k t = Some r0 ->
                         String.length r0 + 14 <= String.length t) as Hopt.
  { intros c k Hk [|c' t] r0; unfold Js.optChar; [apply Hk|].
    destruct (Ascii.eqb c c'); [|apply Hk].
    destruct (k t) as [t0|] eqn:E; [|apply Hk].
    intros [= <-]. apply Hk in E. simpl. lia. }
  enough (String.length r + 14 <= String.length s) by lia.
  revert Hm. unfold Js.matchAssets. apply Hopt, Hopt.
  intros t r0 E%Hstrip. exact E.
Qed.

(** ** Errors, effects and the callback monad *)

(** Values passed as [err] to a callback or thrown. *)
Inductive jsError :=
| AlreadyProcessedError                    (* [new AlreadyProcessedError()] *)
| ENOENT (syscall path : string)           (* an [fs] call on a missing file *)
| Error (message : string)                 (* [new Error(message)] *)
| TypeError (message : string)
| MinifyError (path : string).             (* what [uglify.minify] throws *)

(** A property read from [originalFileContentHash]. *)
Inductive jsValue :=
| Str (s : string)
| ProtoMember (name : string)              (* inherited from [Object.prototype] *)
| Undefined.

(** The effects a run performs, in order. *)
Inductive event :=
| LogSkipping (jsfile : string)
| LogGenerating (jsfile : string)
| LogReusing (jsfile : string) (sourceOrig : jsValue)
| LogErrorProcessing (jsfile : string) (err : jsError)
| LogAllProcessed
| Renamed (src dst : string)
| Wrote (path : string)
| Minified (path url : string)
| Gzipped (src dst : string)
| Copied (src dst : string).

Record world := World { files : gmap string string; trace : list event }.

(** How a callback-style function finishes: [cb(null, a)], [cb(err)], or an
    exception that nothing catches. *)
Inductive result (A : Type) :=
| Ret (a : A)
| Err (e : jsError)
| Throw (e : jsError).
Arguments Ret {A} a.
Arguments Err {A} e.
Arguments Throw {A} e.

Definition M (A : Type) : Type := world -> world * result A.

#[global] Instance M_ret : MRet M := fun A a w => (w, Ret a).
#[global] Instance M_bind : MBind M := fun A B k m w =>
  match m w with
  | (w', Ret a) => k a w'
  | (w', Err e) => (w', Err e)
  | (w', Throw e) => (w', Throw e)
  end.

Definition emit (e : event) : M unit :=
  fun w => (World (files w) (trace w ++ [e]), Ret tt).
Definition fail {A} (e : jsError) : M A := fun w => (w, Err e).
Definition throw {A} (e : jsError) : M A := fun w => (w, Throw e).

(** [async.forEachSeries]: one item at a time, stopping at the first error. *)
Fixpoint forEachSeries {A} (f : A -> M unit) (l : list A) : M unit :=
  match l with
  | [] => mret tt
  | x :: l' => f x ;; forEachSeries f l'
  end.

(** ** The file system *)

Definition readFile (path : string) : M string := fun w =>
  match files w !! path with
  | Some contents => (w, Ret contents)
  | None => (w, Err (ENOENT "open" path))
  end.

Definition rename (src dst : string) : M unit := fun w =>
  match files w !! src with
  | Some contents =>
      (World (<[dst := contents]> (delete src (files w)))
             (trace w ++ [Renamed src dst]), Ret tt)
  | None => (w, Err (ENOENT "rename" src))
  end.

Definition writeFile (path data : string) : M unit := fun w =>
  (World (<[path := data]> (files w)) (trace w ++ [Wrote path]), Ret tt).

(** [exports.copy]: a read stream piped into a write stream. The write
    stream opens (and truncates) [dest] even when [source] is missing. *)
Definition copy (source dest : string) : M unit := fun w =>
  match files w !! source with
  | Some contents =>
      (World (<[dest := contents]> (files w))
             (trace w ++ [Copied source dest]), Ret tt)
  | None =>
      (World (<[dest := ""]> (files w)) (trace w), Err (ENOENT "open" source))
  end.

(** [/[0-9a-f]{32}/.test(file)] *)
Definition isLowerHex (c : ascii) : bool :=
  let n := nat_of_ascii c in
  (Nat.leb 48 n && Nat.leb n 57) || (Nat.leb 97 n && Nat.leb n 102).

Fixpoint hexRun (need seen : nat) (s : string) : bool :=
  match s with
  | EmptyString => false
  | String c s' =>
      if isLowerHex c
      then (if Nat.leb need (S seen) then true else hexRun need (S seen) s')
      else hexRun need 0 s'
  end.

Definition isHashed (file : string) : bool := hexRun 32 0 file.

(** [file.match(/\.js$/) && !file.match(/\.orig\.js$/)] *)
Definition isJsFile (file : string) : bool :=
  Js.endsWith ".js" file && negb (Js.endsWith ".orig.js" file).

(** [glob(pattern, cb)]: the existing paths that match, each once, in
    sorted order. *)
Definition glob (pattern : string -> bool) (fs : gmap string string) : list string :=
  merge_sort String.le (filter (fun p => pattern p = true) (elements (dom fs))).

(** [async.each] (lines 226-237) starts the read of every file at once and
    runs each callback when its read completes. With the read of [file]
    completing at time [finishTime file], [completionOrder finishTime files]
    is the order in which the callbacks run (callbacks of equal time in
    an order fixed by the sort). *)
Definition completesBefore (finishTime : string -> nat) : relation string :=
  fun a b => finishTime a <= finishTime b.

#[global] Instance completesBefore_dec finishTime a b :
  Decision (completesBefore finishTime a b) :=
  Nat.le_dec (finishTime a) (finishTime b).

Definition completionOrder (finishTime : string -> nat) (files : list string)
  : list string :=
  merge_sort (completesBefore finishTime) files.

(** The place of [p] in [order]: finish times under which the reads
    complete in that order. *)
Fixpoint positionIn (order : list string) (p : string) : nat :=
  match order with
  | [] => 0
  | x :: order => if decide (p = x) then 0 else S (positionIn order p)
  end.

(** Own and inherited properties of the object literal [{}] used as the
    content hash. *)
Definition objectPrototypeMembers : list string :=
  [ "constructor"; "toString"; "toLocaleString"; "valueOf"; "hasOwnProperty";
    "isPrototypeOf"; "propertyIsEnumerable"; "__defineGetter__";
    "__defineSetter__"; "__lookupGetter__"; "__lookupSetter__"; "__proto__" ].

(** [hash[key] = file]; assigning a string to [__proto__] is ignored. *)
Definition setProp (hash : gmap string string) (key file : string)
  : gmap string string :=
  if decide (key = "__proto__") then hash else <[key := file]> hash.

(** [hash[key]] *)
Definition getProp (hash : gmap string string) (key : string) : jsValue :=
  match hash !! key with
  | Some file => Str file
  | None => if decide (key ∈ objectPrototypeMembers) then ProtoMember key
            else Undefined
  end.

Record uglified := Uglified { code : string; map : string }.

Definition sourceMapPrefix : string := String "010" "//# sourceMappingURL=".

(** [contents.toString().indexOf(self.sourceMapPrefix) >= 0] *)
Definition containsSourceMapPrefix (contents : string) : bool :=
  (0 <=? Js.indexOf sourceMapPrefix contents)%Z.

Definition originalOf : string -> string := Js.replaceJsSuffix ".orig.js".
Definition sourcemapOf : string -> string := Js.replaceJsSuffix ".js.map".
Definition gzippedOf : string -> string := Js.replaceJsSuffix ".js.gz".
Definition sourceMapUrlOf (jsfile : string) : string :=
  Js.toSitePath (sourcemapOf jsfile).
Definition sourceMapTextOf (jsfile : string) : string :=
  sourceMapPrefix +:+ sourceMapUrlOf jsfile.

(** ** The pipeline (primary variant, lines 1-317) *)

Section Pipeline.

(** The collaborators: [uglify.minify] on a file's path and content with
    the requested [outSourceMap] ([None] when it throws), [zlib]'s gzip
    transform, the [gzip] option, the two glob patterns
    [assetsPath/**/*.js] and [assetsPath/**/*.orig.js], and the times at
    which the reads of the originals complete. *)
Variable minify : string -> string -> string -> option uglified.
Variable gzipBytes : string -> string.
Variable gzip : bool.
Variable jsPattern : string -> bool.
Variable origPattern : string -> bool.
Variable finishTime : string -> nat.

Definition hasSourceMap (file : string) : M bool :=
  contents ← readFile file;
  mret (containsSourceMapPrefix contents).

Definition raiseAlreadyProcessedIfSourceMap (jsfile : string) : M unit :=
  exists_ ← hasSourceMap jsfile;
  if exists_ : bool
  then emit (LogSkipping jsfile) ;; fail AlreadyProcessedError
  else emit (LogGenerating jsfile).

(** [uglify.minify(original, {outSourceMap: url})] reads the file itself
    and throws on a missing or unparsable source. *)
Definition uglifyMinify (original url : string) : M uglified := fun w =>
  match files w !! original with
  | None => (w, Throw (ENOENT "open" original))
  | Some source =>
      let w' := World (files w) (trace w ++ [Minified original url]) in
      match minify original source url with
      | Some u => (w', Ret u)
      | None => (w', Throw (MinifyError original))
      end
  end.

(** Lines 124-129: the path rewrite of code and map, then the marker. *)
Definition rewriteUglified (sourceMapText : string) (u : uglified) : uglified :=
  Uglified (rewritePaths (code u) +:+ sourceMapText) (rewritePaths (map u)).

(** [exports.gzip]; a missing source is an unhandled stream error. *)
Definition gzipFile (source dest : string) : M unit := fun w =>
  if gzip then
    match files w !! source with
    | Some contents =>
        (World (<[dest := gzipBytes contents]> (files w))
               (trace w ++ [Gzipped source dest]), Ret tt)
    | None => (w, Throw (ENOENT "open" source))
    end
  else (w, Ret tt).

(** The waterfall of [exports.enqueue] (lines 111-156). *)
Definition enqueueWaterfall (jsfile : string) : M unit :=
  let original := originalOf jsfile in
  let sourcemap := sourcemapOf jsfile in
  let gzipped := gzippedOf jsfile in
  let sourceMapUrl := sourceMapUrlOf jsfile in
  let sourceMapText := sourceMapTextOf jsfile in
  raiseAlreadyProcessedIfSourceMap jsfile ;;
  rename jsfile original ;;
  u ← uglifyMinify original sourceMapUrl;
  let u' := rewriteUglified sourceMapText u in
  writeFile jsfile (code u') ;;
  writeFile sourcemap (map u') ;;
  gzipFile jsfile gzipped.

(** [exports.enqueue]: the waterfall and its final callback (lines
    157-168). The result is what the queue's callback [cb] receives. *)
Definition enqueue (jsfile : string) : M unit := fun w =>
  match enqueueWaterfall jsfile w with
  | (w', Err AlreadyProcessedError) => (w', Ret tt)
  | (w', Err e) =>
      (World (files w') (trace w' ++ [LogErrorProcessing jsfile e]), Err e)
  | (w', Ret _) => (w', Ret tt)
  | (w', Throw e) => (w', Throw e)
  end.

(** The work queue, with the tasks run to completion one after the other
    in submission order. [async.queue] goes on to the next task whatever a
    worker reports; an uncaught exception ends the process. The result
    lists what each worker passed to its callback. *)
Fixpoint drainQueue (tasks : list string) : M (list (option jsError)) :=
  match tasks with
  | [] => mret []
  | jsfile :: rest => fun w =>
      match enqueue jsfile w with
      | (w', Ret _) => (outcomes ← drainQueue rest; mret (None :: outcomes)) w'
      | (w', Err e) => (outcomes ← drainQueue rest; mret (Some e :: outcomes)) w'
      | (w', Throw e) => (w', Throw e)
      end
  end.

(** Lines 225-238: [originalFileContentHash], filled by the callbacks of
    the reads in the order [origs] in which they run. *)
Fixpoint readOriginals (hash : gmap string string) (origs : list string)
  : M (gmap string string) :=
  match origs with
  | [] => mret hash
  | file :: rest =>
      contents ← readFile file;
      readOriginals (setProp hash contents file) rest
  end.

(** Lines 248-284: the waterfall for one non-fingerprinted file. *)
Definition reconcileWaterfall (hash : gmap string string) (jsfile : string)
  : M unit :=
  let original := originalOf jsfile in
  let gzipped := gzippedOf jsfile in
  raiseAlreadyProcessedIfSourceMap jsfile ;;
  contents ← readFile jsfile;
  match getProp hash contents with
  | Undefined | Str "" =>
      fail (Error ("Could not find original hashed file for: " +:+ jsfile))
  | Str sourceOrig =>
      emit (LogReusing jsfile (Str sourceOrig)) ;;
      rename jsfile original ;;
      copy (Js.replaceFirst ".orig" "" sourceOrig) jsfile ;;
      if gzip
      then copy (Js.replaceFirst ".orig.js" ".js.gz" sourceOrig) gzipped
      else mret tt
  | ProtoMember name =>
      emit (LogReusing jsfile (ProtoMember name)) ;;
      rename jsfile original ;;
      throw (TypeError "sourceOrig.replace is not a function")
  end.

(** Lines 285-291: the final callback of that waterfall. *)
Definition reconcile (hash : gmap string string) (jsfile : string) : M unit :=
  fun w =>
    match reconcileWaterfall hash jsfile w with
    | (w', Err AlreadyProcessedError) => (w', Ret tt)
    | r => r
    end.

(** [exports.processNonHashedFiles] *)
Definition processNonHashedFiles (nonHashedFiles : list string) : M unit :=
  fun w =>
    (hash ← readOriginals ∅ (completionOrder finishTime (glob origPattern (files w)));
     forEachSeries (reconcile hash) nonHashedFiles) w.

(** [exports.onQueueDrain] *)
Definition onQueueDrain (nonHashedFiles : list string) : M unit := fun w =>
  match processNonHashedFiles nonHashedFiles w with
  | (w', Err e) => (w', Throw e)
  | (w', Ret _) => emit LogAllProcessed w'
  | (w', Throw e) => (w', Throw e)
  end.

(** The file lists of [exports.run] (lines 58-78). *)
Definition jsfilesOf (fs : gmap string string) : list string :=
  filter (fun file => isJsFile file = true) (glob jsPattern fs).
Definition hashedFilesOf (fs : gmap string string) : list string :=
  filter (fun file => isHashed file = true) (jsfilesOf fs).
Definition nonHashedFilesOf (fs : gmap string string) : list string :=
  filter (fun file => isHashed file ≠ true) (jsfilesOf fs).

(** [exports.run] once the assets directory has been found: the
    fingerprinted files go through the queue, whose [drain] then starts
    the second pass. With nothing pushed the queue never drains. *)
Definition run : M unit := fun w =>
  let hashedFiles := hashedFilesOf (files w) in
  let nonHashedFiles := nonHashedFilesOf (files w) in
  match hashedFiles with
  | [] => (w, Ret tt)
  | _ => (drainQueue hashedFiles ;; onQueueDrain nonHashedFiles) w
  end.

End Pipeline.

(** Line 41: the directory that is globbed, from the command line's root
    and the [rails_asset_folder] of line 18. *)
Definition assetsPath (root rails_asset_folder : string) : string :=
  Js.stripTrailingSlash root +:+ "/public/" +:+ rails_asset_folder.

(** ** The earlier variant (lines 319-520) *)

Module Legacy.

Definition sourceMapTextOf (jsfile : string) : string :=
  String "010" "//# sourceMappingURL=" +:+ Js.toSitePath (sourcemapOf jsfile).

(** [contents.slice(-1 * sourceMapText.length) === sourceMapText] *)
Definition alreadyProcessed (jsfile contents : string) : bool :=
  let sourceMapText := sourceMapTextOf jsfile in
  String.eqb (Js.sliceLast (String.length sourceMapText) contents) sourceMapText.

(** Line 353 *)
Definition assetsPath (root : string) : string :=
  Js.stripTrailingSlash root +:+ "/public/assets".

(** What [fs.stat] and [fs.readdir] report for an entry of the tree below
    the assets directory. *)
#[warnings="-register-all"] Inductive node :=
| File                                     (* [stat.isDirectory()] is false *)
| Dir (entries : list (string * node))     (* a directory and its listing *)
| Unreadable                               (* a directory whose [readdir] fails *)
| Unstatable.                              (* [stat] fails: a dangling link *)

(** [exports.findNestedFiles] called on [dir], which is the node [n]:
    [None] for [cb(err)], otherwise the array handed to [cb]. An entry
    whose [stat] fails is pushed like a file; a nested call that fails
    hands [undefined] to [files.concat], which appends it as an element
    ([None]). The entries are taken to complete in the order [readdir]
    lists them. *)
Fixpoint findNestedFiles (dir : string) (n : node) : option (list (option string)) :=
  match n with
  | Dir entries =>
      Some (flat_map
              (fun entry : string * node =>
                 let '(name, child) := entry in
                 let file := dir +:+ "/" +:+ name in
                 match child with
                 | File | Unstatable => [Some file]
                 | Dir _ | Unreadable =>
                     match findNestedFiles file child with
                     | Some f => f
                     | None => [None]
                     end
                 end)
              entries)
  | File | Unreadable | Unstatable => None
  end.

(** Lines 369-373: the files pushed to the queue. [file.match] on an
    [undefined] element throws before any worker has started. *)
Fixpoint pushed (found : list (option string)) : option (list string) :=
  match found with
  | [] => Some []
  | None :: _ => None
  | Some file :: rest =>
      match pushed rest with
      | Some tasks => Some (if isJsFile file then file :: tasks else tasks)
      | None => None
      end
  end.

Section Queue.

Variable minify : string -> string -> string -> option uglified.
Variable gzipBytes : string -> string.
Variable gzip : bool.

(** Lines 396-411. The string [ALREADY_PROCESSED] handed to the callback
    is written [AlreadyProcessedError]: no other error is equal to it. *)
Definition checkSourceMap (jsfile : string) : M unit :=
  contents ← readFile jsfile;
  if alreadyProcessed jsfile contents
  then emit (LogSkipping jsfile) ;; fail AlreadyProcessedError
  else emit (LogGenerating jsfile).

(** The waterfall of the earlier [exports.enqueue] (lines 395-461); its
    last step is the body of the primary variant's [exports.gzip]. *)
Definition enqueueWaterfall (jsfile : string) : M unit :=
  let original := originalOf jsfile in
  let sourcemap := sourcemapOf jsfile in
  let gzipped := gzippedOf jsfile in
  let sourceMapUrl := Js.toSitePath sourcemap in
  let sourceMapText := sourceMapTextOf jsfile in
  checkSourceMap jsfile ;;
  rename jsfile original ;;
  u ← uglifyMinify minify original sourceMapUrl;
  let u' := rewriteUglified sourceMapText u in
  writeFile jsfile (code u') ;;
  writeFile sourcemap (map u') ;;
  gzipFile gzipBytes gzip jsfile gzipped.

(** Its final callback (lines 462-470): an error other than
    [ALREADY_PROCESSED] is logged, and the queue's [cb] is called without
    it. *)
Definition enqueue (jsfile : string) : M unit := fun w =>
  match enqueueWaterfall jsfile w with
  | (w', Err AlreadyProcessedError) => (w', Ret tt)
  | (w', Err e) =>
      (World (files w') (trace w' ++ [LogErrorProcessing jsfile e]), Ret tt)
  | (w', Ret _) => (w', Ret tt)
  | (w', Throw e) => (w', Throw e)
  end.

(** The work queue, as in the primary variant. *)
Fixpoint drainQueue (tasks : list string) : M (list (option jsError)) :=
  match tasks with
  | [] => mret []
  | jsfile :: rest => fun w =>
      match enqueue jsfile w with
      | (w', Ret _) => (outcomes ← drainQueue rest; mret (None :: outcomes)) w'
      | (w', Err e) => (outcomes ← drainQueue rest; mret (Some e :: outcomes)) w'
      | (w', Throw e) => (w', Throw e)
      end
  end.

(** Lines 473-475 *)
Definition onQueueDrain : M unit := emit LogAllProcessed.

(** [exports.run] from the callback of [findNestedFiles] on (lines
    364-374), with the queue it feeds. With nothing pushed the queue never
    drains. *)
Definition run (found : list (option string)) : M unit :=
  match pushed found with
  | None => throw (TypeError "Cannot read property 'match' of undefined")
  | Some [] => mret tt
  | Some tasks => drainQueue tasks ;; onQueueDrain
  end.

End Queue.

End Legacy.

(** ** Notions used to state the properties *)

Fixpoint lastChar (s : string) : option ascii :=
  match s with
  | EmptyString => None
  | String c EmptyString => Some c
  | String _ s' => lastChar s'
  end.

(** The four shapes of a match of [/\.?\/?public\/assets\//]. *)
Definition matchForms : list string :=
  [ "./public/assets/"; "/public/assets/"; ".public/assets/"; "public/assets/" ].

(** No match of the pattern begins before position [n] of [s]. *)
Definition noMatchBefore (n : nat) (s : string) : Prop :=
  forall m a b, m ∈ matchForms -> s = a +:+ m +:+ b -> n <= String.length a.

(** [out] is [s] after one pass from left to right: the match [m] that
    begins first, at the end of [u], is replaced by [/assets/] together
    with its leading [./], [/] or [.], and the pass goes on behind it; a
    rest [u] that holds no [public/assets/] is kept. *)
Inductive replacesMatches : string -> string -> Prop :=
| replaces_rest u :
    ~ occursIn Js.assetsLiteral u -> replacesMatches u u
| replaces_match u m rest out :
    m ∈ matchForms ->
    noMatchBefore (String.length u) (u +:+ m +:+ rest) ->
    replacesMatches rest out ->
    replacesMatches (u +:+ m +:+ rest) (u +:+ "/assets/" +:+ out).


(** A scanner for [public/assets/]: [kmpStep q c] is the number of leading
    characters of the literal matched after reading [c] when [q] were
    matched before. The literal has a single [p], so a failed comparison
    falls back to one matched character or none. *)
Definition kmpStep (q : nat) (c : ascii) : nat :=
  match String.get q Js.assetsLiteral with
  | Some x => if Ascii.eqb c x then S q
              else if Ascii.eqb c "p" then 1 else 0
  | None => if Ascii.eqb c "p" then 1 else 0
  end.

Fixpoint reaches (q : nat) (out : string) : bool :=
  match out with
  | EmptyString => false
  | String c o => let q' := kmpStep q c in Nat.eqb q' 14 || reaches q' o
  end.

(** No match of the pattern directly follows [public] or [public/assets]. *)
Definition joinsPublic (s : string) : Prop :=
  exists m, m ∈ matchForms
            /\ (occursIn ("public" +:+ m) s \/ occursIn ("public/assets" +:+ m) s).

(** The files after a complete pass of the processor over [jsfile]. *)
Definition processedFiles (gzipBytes : string -> string) (gzip : bool)
    (jsfile source : string) (u : uglified) (fs : gmap string string)
  : gmap string string :=
  let u' := rewriteUglified (sourceMapTextOf jsfile) u in
  let written :=
    <[sourcemapOf jsfile := map u']>
      (<[jsfile := code u']>
         (<[originalOf jsfile := source]> (delete jsfile fs))) in
  if gzip then <[gzippedOf jsfile := gzipBytes (code u')]> written else written.

(** The effects of such a pass, in order. *)
Definition processedTrace (gzip : bool) (jsfile : string) : list event :=
  [ LogGenerating jsfile; Renamed jsfile (originalOf jsfile);
    Minified (originalOf jsfile) (sourceMapUrlOf jsfile);
    Wrote jsfile; Wrote (sourcemapOf jsfile) ]
  ++ (if gzip then [Gzipped jsfile (gzippedOf jsfile)] else []).

(** The hash that [readOriginals] builds, as a function of the files. *)
Definition contentHash (fs : gmap string string) (origs : list string)
    (hash : gmap string string) : gmap string string :=
  foldl (fun h file => match fs !! file with
                       | Some contents => setProp h contents file
                       | None => h
                       end) hash origs.

Definition originalFileContentHash (origPattern : string -> bool)
    (finishTime : string -> nat) (fs : gmap string string)
  : gmap string string :=
  contentHash fs (completionOrder finishTime (glob origPattern fs)) ∅.

Definition noOriginalError (jsfile : string) : jsError :=
  Error ("Could not find original hashed file for: " +:+ jsfile).

(** The trace of a run in which every file is skipped. *)
Definition skipTrace (hashedFiles nonHashedFiles : list string) : list event :=
  match hashedFiles with
  | [] => []
  | _ => (LogSkipping <$> hashedFiles) ++ (LogSkipping <$> nonHashedFiles)
         ++ [LogAllProcessed]
  end.

(** [respects R m]: whatever way [m] ends, the world it leaves is related
    by [R] to the one it started from. *)
Definition respects (R : relation world) {A} (m : M A) : Prop :=
  forall w w' r, m w = (w', r) -> R w w'.

(** [confined T P]: only the paths in [T] may differ, and the trace grows
    by events that satisfy [P]. *)
Definition confined (T : list string) (P : event -> Prop) : relation world :=
  fun w w' =>
    (forall p, p ∉ T -> files w' !! p = files w !! p)
    /\ exists t, trace w' = trace w ++ t /\ Forall P t.

(** The events of the single-file processor and of the reconciler. *)
Definition isReconcilerEvent (e : event) : Prop :=
  match e with
  | LogSkipping _ | LogGenerating _ | LogReusing _ _ | Renamed _ _ | Copied _ _ => True
  | _ => False
  end.

Definition touchedByEnqueue (jsfile : string) : list string :=
  [jsfile; originalOf jsfile; sourcemapOf jsfile; gzippedOf jsfile].

Definition touchedByReconcile (jsfile : string) : list string :=
  [jsfile; originalOf jsfile; gzippedOf jsfile].

(** A text made of the characters [0-9a-f] only. *)
Fixpoint allLowerHex (s : string) : bool :=
  match s with
  | EmptyString => true
  | String c s' => isLowerHex c && allLowerHex s'
  end.

(** The paths the two passes of a run work on. *)
Definition touchedByRun (hashedFiles nonHashedFiles : list string) : list string :=
  (hashedFiles ≫= touchedByEnqueue) ++ (nonHashedFiles ≫= touchedByReconcile).

(** [p] is the path of an entry below [dir] that is not a directory. *)
Inductive fileUnder : string -> Legacy.node -> string -> Prop :=
| file_here dir entries name child :
    (name, child) ∈ entries -> child = Legacy.File \/ child = Legacy.Unstatable ->
    fileUnder dir (Legacy.Dir entries) (dir +:+ "/" +:+ name)
| file_below dir entries name child p :
    (name, child) ∈ entries -> fileUnder (dir +:+ "/" +:+ name) child p ->
    fileUnder dir (Legacy.Dir entries) p.

(** Some directory below the node cannot be listed. *)
Inductive unreadableBelow : Legacy.node -> Prop :=
| unreadable_here entries name :
    (name, Legacy.Unreadable) ∈ entries -> unreadableBelow (Legacy.Dir entries)
| unreadable_deeper entries name child :
    (name, child) ∈ entries -> unreadableBelow child ->
    unreadableBelow (Legacy.Dir entries).

(** ** A sample assets directory *)

Module Sample.

Definition minify (path source url : string) : option uglified :=
  Some (Uglified ("min:" +:+ source)
                 ("{sources:[" +:+ path +:+ "],file:" +:+ url +:+ "}")).

Definition gzipBytes (contents : string) : string := "gz:" +:+ contents.

Definition jsPattern (p : string) : bool :=
  Js.startsWith "./public/assets/" p && Js.endsWith ".js" p.

Definition origPattern (p : string) : bool :=
  Js.startsWith "./public/assets/" p && Js.endsWith ".orig.js" p.

Definition hashed : string := "./public/assets/app-0123456789abcdef0123456789abcdef.js".
Definition alias : string := "./public/assets/app.js".
Definition about : string := "./public/assets/about.js".

(** A fingerprinted file and its non-fingerprinted copy. *)
Definition fsPair : gmap string string :=
  <[hashed := "var a = 1;"]> (<[alias := "var a = 1;"]> ∅).

(** The same with a non-fingerprinted file that matches nothing. *)
Definition fsMiss : gmap string string :=
  <[about := "var b = 2;"]> fsPair.

(** A fingerprinted file and a non-fingerprinted file that matches nothing. *)
Definition fsLone : gmap string string :=
  <[hashed := "var a = 1;"]> (<[about := "var b = 2;"]> ∅).


(** A directory compiled again over the output of an earlier run: [x.js]
    and [app.js] are fresh, the original [x.orig.js] is left over. *)
Definition fsStale : gmap string string :=
  <[hashed := "var a = 1;"]>
    (<[alias := "var q;"]>
       (<[ "./public/assets/x.orig.js" := "var q;"]>
          (<[ "./public/assets/x.js" := "var a = 1;"]> ∅))).

(** A non-fingerprinted file whose whole content is [constructor]. *)
Definition fsProto : gmap string string :=
  <[hashed := "var a = 1;"]> (<[alias := "constructor"]> ∅).

(** Reads that complete in the order of the paths' lengths, and reads of
    which those of the [lib-] files complete first. *)
Definition finishTime (p : string) : nat := String.length p.
Definition twinFirst (p : string) : nat :=
  if Js.startsWith "./public/assets/lib-" p then 0 else 1.

Definition runNoGzip : M unit :=
  run minify gzipBytes false jsPattern origPattern finishTime.
Definition run : M unit := run minify gzipBytes true jsPattern origPattern finishTime.

Definition afterQueue (fs : gmap string string) : world :=
  (drainQueue minify gzipBytes true (hashedFilesOf jsPattern fs) (World fs [])).1.

(** A minifier that throws on every input. *)
Definition throwingMinify (path source url : string) : option uglified := None.

(** What the directory walk of the earlier variant finds for [fsPair]. *)
Definition found : list (option string) := [Some alias; Some hashed].

End Sample.

(** * Properties *)

(** ** Strings *)

Lemma stripPrefix_length p s r :
  Js.stripPrefix p s = Some r -> String.length s = String.length p + String.length r.
Proof.
  revert s; induction p as [|a p IH]; intros [|b s]; simpl; intros H;
    try discriminate; try (injection H as <-; reflexivity).
  destruct (Ascii.eqb a b); [|discriminate]. f_equal. apply IH, H.
Qed.

Lemma optChar_length c k n s r :
  (forall s r, k s = Some r -> String.length r + n <= String.length s) ->
  Js.optChar c k s = Some r -> String.length r + n <= String.length s.
Proof.
  intros Hk. unfold Js.optChar. destruct s as [|c' s']; [apply Hk|].
  destruct (Ascii.eqb c c'); [|apply Hk].
  destruct (k s') as [t|] eqn:E; [|apply Hk].
  intros [= <-]. apply Hk in E. simpl. lia.
Qed.

Lemma matchAssets_length s r :
  Js.matchAssets s = Some r -> String.length r < String.length s.
Proof.
  intros H. enough (String.length r + 14 <= String.length s) by lia.
  revert H. unfold Js.matchAssets.
  apply (optChar_length _ _ 14). intros s1 r1.
  apply (optChar_length _ _ 14). intros s0 r0 E. apply stripPrefix_length in E. simpl in E. lia.
Qed.

Lemma sapp_nil_l s : "" +:+ s = s.
Proof. reflexivity. Qed.

Lemma sapp_cons a s t : String a s +:+ t = String a (s +:+ t).
Proof. reflexivity. Qed.

Lemma sapp_nil_r s : s +:+ "" = s.
Proof. induction s as [|a s IH]; [reflexivity|]. rewrite sapp_cons, IH. reflexivity. Qed.

Lemma sapp_assoc s t u : (s +:+ t) +:+ u = s +:+ t +:+ u.
Proof.
  induction s as [|a s IH]; [reflexivity|]. rewrite !sapp_cons, IH. reflexivity.
Qed.

Lemma length_sapp s t : String.length (s +:+ t) = String.length s + String.length t.
Proof.
  induction s as [|a s IH]; [reflexivity|]. rewrite sapp_cons. simpl. rewrite IH. reflexivity.
Qed.

Lemma sapp_inj_r s a b : a +:+ s = b +:+ s -> a = b.
Proof.
  revert b. induction a as [|c a IH]; intros [|d b] H;
    rewrite ?sapp_cons, ?sapp_nil_l in H.
  - reflexivity.
  - apply (f_equal String.length) in H. simpl in H. rewrite length_sapp in H. lia.
  - apply (f_equal String.length) in H. simpl in H. rewrite length_sapp in H. lia.
  - injection H as -> H. f_equal. apply IH, H.
Qed.

Lemma stripPrefix_Some p s r : Js.stripPrefix p s = Some r <-> s = p +:+ r.
Proof.
  revert s. induction p as [|a p IH]; intros s; simpl.
  - rewrite sapp_nil_l. split; [intros [= ->]|intros ->]; reflexivity.
  - rewrite sapp_cons. destruct s as [|b s]; [split; discriminate|].
    destruct (Ascii.eqb_spec a b) as [->|Hne].
    + rewrite IH. split; [intros ->; reflexivity|intros [= ->]; reflexivity].
    + split; [discriminate|intros [= -> _]; contradiction].
Qed.

Lemma startsWith_stripPrefix p s :
  Js.startsWith p s = true <-> exists r, Js.stripPrefix p s = Some r.
Proof.
  revert s. induction p as [|a p IH]; intros s; simpl.
  - split; eauto.
  - destruct s as [|b s]; [split; [discriminate|intros [r [=]]]|].
    destruct (Ascii.eqb a b); [apply IH|split; [discriminate|intros [r [=]]]].
Qed.

Lemma startsWith_true p s : Js.startsWith p s = true <-> exists r, s = p +:+ r.
Proof.
  rewrite startsWith_stripPrefix. split; intros [r H]; exists r; apply stripPrefix_Some, H.
Qed.

Lemma stripSuffix_Some suf s b : Js.stripSuffix suf s = Some b <-> s = b +:+ suf.
Proof.
  revert b. induction s as [|c s IH]; intros b.
  - cbn [Js.stripSuffix]. destruct (String.eqb_spec "" suf) as [<-|Hne].
    + split; [intros [= <-]; reflexivity|].
      destruct b; [reflexivity|rewrite sapp_cons; discriminate].
    + split; [discriminate|]. destruct b; [rewrite sapp_nil_l; intros <-; contradiction|].
      rewrite sapp_cons. discriminate.
  - cbn [Js.stripSuffix]. destruct (String.eqb_spec (String c s) suf) as [<-|Hne].
    + split; [intros [= <-]; reflexivity|].
      intros H. apply (f_equal String.length) in H. rewrite length_sapp in H.
      destruct b; [reflexivity|simpl in H; lia].
    + destruct b as [|c' b].
      * rewrite sapp_nil_l. split; [|intros <-; contradiction].
        destruct (Js.stripSuffix suf s); discriminate.
      * rewrite sapp_cons. destruct (Js.stripSuffix suf s) as [b'|] eqn:E; simpl.
        -- pose proof (proj1 (IH b') eq_refl) as ->.
           split; [intros [= <- <-]; reflexivity|].
           intros [= -> H]. apply sapp_inj_r in H. subst. reflexivity.
        -- split; [discriminate|]. intros [= -> H].
           apply IH in H. discriminate.
Qed.

Lemma endsWith_true suf s : Js.endsWith suf s = true <-> exists b, s = b +:+ suf.
Proof.
  unfold Js.endsWith. destruct (Js.stripSuffix suf s) as [b|] eqn:E.
  - apply stripSuffix_Some in E. split; eauto.
  - split; [discriminate|]. intros [b Hb]. apply stripSuffix_Some in Hb. congruence.
Qed.

Lemma indexOf_nonneg needle s : (0 <= Js.indexOf needle s)%Z <-> occursIn needle s.
Proof.
  split.
  - induction s as [|c s IH]; simpl.
    + destruct (Js.startsWith needle "") eqn:E; [|lia].
      apply startsWith_true in E as [r ->]. intros _. exists "", r. reflexivity.
    + destruct (Js.startsWith needle (String c s)) eqn:E.
      * apply startsWith_true in E as [r ->]. intros _. exists "", r. reflexivity.
      * destruct (Z.ltb_spec (Js.indexOf needle s) 0); [lia|]. intros _.
        destruct IH as (a & b & ->); [assumption|].
        exists (String c a), b. reflexivity.
  - intros (a & b & ->). induction a as [|c a IH].
    + rewrite sapp_nil_l.
      assert (Js.startsWith needle (needle +:+ b) = true) as E
        by (apply startsWith_true; eauto).
      destruct needle, b; simpl in *; rewrite ?E; lia.
    + rewrite sapp_cons. simpl.
      destruct (Js.startsWith needle _); [lia|].
      destruct (Z.ltb_spec (Js.indexOf needle (a +:+ needle +:+ b)) 0); lia.
Qed.

Lemma containsSourceMapPrefix_spec contents :
  containsSourceMapPrefix contents = true <-> occursIn sourceMapPrefix contents.
Proof.
  unfold containsSourceMapPrefix. rewrite Z.leb_le. apply indexOf_nonneg.
Qed.

Lemma occursIn_app_l needle a s : occursIn needle s -> occursIn needle (a +:+ s).
Proof.
  intros (x & y & ->). exists (a +:+ x), y. rewrite sapp_assoc. reflexivity.
Qed.

Lemma occursIn_prefix needle u s : occursIn (needle +:+ u) s -> occursIn needle s.
Proof.
  intros (x & y & ->). exists x, (u +:+ y). rewrite sapp_assoc. reflexivity.
Qed.

Lemma dropString_suffix n s : exists a, s = a +:+ Js.dropString n s.
Proof.
  revert s. induction n as [|n IH]; intros s.
  - exists "". destruct s; reflexivity.
  - destruct s as [|c s]; [exists ""; reflexivity|].
    destruct (IH s) as [a Ha]. exists (String c a). simpl. rewrite sapp_cons, <- Ha.
    reflexivity.
Qed.

(** ** The callback monad *)

Lemma bind_Ret {A B} (m : M A) (k : A -> M B) w w' a :
  m w = (w', Ret a) -> (m ≫= k) w = k a w'.
Proof. unfold mbind, M_bind. intros ->. reflexivity. Qed.

Lemma bind_Err {A B} (m : M A) (k : A -> M B) w w' e :
  m w = (w', Err e) -> (m ≫= k) w = (w', Err e).
Proof. unfold mbind, M_bind. intros ->. reflexivity. Qed.

(** What the idempotency check does in each of its three cases. *)
Lemma raise_skip w jsfile contents :
  files w !! jsfile = Some contents ->
  containsSourceMapPrefix contents = true ->
  raiseAlreadyProcessedIfSourceMap jsfile w
  = (World (files w) (trace w ++ [LogSkipping jsfile]), Err AlreadyProcessedError).
Proof.
  intros Hf Hc. unfold raiseAlreadyProcessedIfSourceMap, hasSourceMap, readFile.
  unfold mbind, M_bind, mret, M_ret. rewrite Hf, Hc. reflexivity.
Qed.

Lemma raise_go w jsfile contents :
  files w !! jsfile = Some contents ->
  containsSourceMapPrefix contents = false ->
  raiseAlreadyProcessedIfSourceMap jsfile w
  = (World (files w) (trace w ++ [LogGenerating jsfile]), Ret tt).
Proof.
  intros Hf Hc. unfold raiseAlreadyProcessedIfSourceMap, hasSourceMap, readFile.
  unfold mbind, M_bind, mret, M_ret. rewrite Hf, Hc. reflexivity.
Qed.

Lemma raise_missing w jsfile :
  files w !! jsfile = None ->
  raiseAlreadyProcessedIfSourceMap jsfile w = (w, Err (ENOENT "open" jsfile)).
Proof.
  intros Hf. unfold raiseAlreadyProcessedIfSourceMap, hasSourceMap, readFile.
  unfold mbind, M_bind. rewrite Hf. reflexivity.
Qed.

Lemma enqueue_skips minify gzipBytes gzip w jsfile contents :
  files w !! jsfile = Some contents ->
  containsSourceMapPrefix contents = true ->
  enqueueWaterfall minify gzipBytes gzip jsfile w
  = (World (files w) (trace w ++ [LogSkipping jsfile]), Err AlreadyProcessedError).
Proof.
  intros Hf Hc. unfold enqueueWaterfall.
  apply bind_Err, raise_skip with contents; assumption.
Qed.

Lemma reconcile_skips gzip hash w jsfile contents :
  files w !! jsfile = Some contents ->
  containsSourceMapPrefix contents = true ->
  reconcileWaterfall gzip hash jsfile w
  = (World (files w) (trace w ++ [LogSkipping jsfile]), Err AlreadyProcessedError).
Proof.
  intros Hf Hc. unfold reconcileWaterfall.
  apply bind_Err, raise_skip with contents; assumption.
Qed.

(** ** Claims about the idempotency check *)

(** C3. A file whose content already carries the marker (a newline,
    [//# sourceMappingURL=] and a map path [url]) makes the single-file
    processor raise the AlreadyProcessed signal, which [enqueue] reports to
    the queue as success. The files are exactly as before and the only
    effect is the informational log line: no rename to [.orig.js], no
    write of code or map, no gzip. *)
Theorem C3_already_processed_no_side_effects
    minify gzipBytes gzip w jsfile contents url :
  files w !! jsfile = Some contents ->
  occursIn (sourceMapPrefix +:+ url) contents ->
  enqueueWaterfall minify gzipBytes gzip jsfile w
  = (World (files w) (trace w ++ [LogSkipping jsfile]), Err AlreadyProcessedError)
  /\ enqueue minify gzipBytes gzip jsfile w
     = (World (files w) (trace w ++ [LogSkipping jsfile]), Ret tt).
Proof.
  intros Hf Hocc.
  assert (containsSourceMapPrefix contents = true) as Hc.
  { apply containsSourceMapPrefix_spec. eapply occursIn_prefix, Hocc. }
  pose proof (enqueue_skips minify gzipBytes gzip w jsfile contents Hf Hc) as E.
  split; [exact E|]. unfold enqueue. rewrite E. reflexivity.
Qed.

(** C10. The primary variant's check is true exactly when the fixed text
    (newline, [//# sourceMappingURL=]) occurs somewhere in the content; the
    map path after it is never looked at. So any file containing that text,
    whoever wrote it, is skipped by the single-file processor and by the
    duplicate reconciler alike, with the files left as they were. *)
Theorem C10_prefix_anywhere_skips_both
    minify gzipBytes gzip hash w jsfile contents :
  files w !! jsfile = Some contents ->
  occursIn sourceMapPrefix contents ->
  (forall c, containsSourceMapPrefix c = true <-> occursIn sourceMapPrefix c)
  /\ enqueue minify gzipBytes gzip jsfile w
     = (World (files w) (trace w ++ [LogSkipping jsfile]), Ret tt)
  /\ reconcile gzip hash jsfile w
     = (World (files w) (trace w ++ [LogSkipping jsfile]), Ret tt).
Proof.
  intros Hf Hocc. apply containsSourceMapPrefix_spec in Hocc.
  split; [exact containsSourceMapPrefix_spec|]. split.
  - unfold enqueue. rewrite (enqueue_skips _ _ _ _ _ _ Hf Hocc). reflexivity.
  - unfold reconcile. rewrite (reconcile_skips _ _ _ _ _ Hf Hocc). reflexivity.
Qed.

(** The earlier variant's trailing match implies the primary variant's
    substring match. *)
Lemma legacy_check_implies_primary jsfile contents :
  Legacy.alreadyProcessed jsfile contents = true ->
  containsSourceMapPrefix contents = true.
Proof.
  unfold Legacy.alreadyProcessed. intros H. apply String.eqb_eq in H.
  apply containsSourceMapPrefix_spec.
  assert (exists a, contents = a +:+ Legacy.sourceMapTextOf jsfile) as [a ->].
  { unfold Js.sliceLast in H.
    destruct (String.length (Legacy.sourceMapTextOf jsfile)) as [|n].
    - exists "". exact H.
    - rewrite <- H. apply dropString_suffix. }
  exists a, (Js.toSitePath (sourcemapOf jsfile)). reflexivity.
Qed.

(** C9. The two variants' checks differ as functions of the content: a
    file with a source-map comment in the middle is already processed for
    the primary variant (substring anywhere) and not for the earlier one
    (exact trailing match), whatever the file's path. *)
Theorem C9_marker_checks_differ :
  exists contents,
    containsSourceMapPrefix contents = true
    /\ forall jsfile, Legacy.alreadyProcessed jsfile contents = false.
Proof.
  exists ("var a;" +:+ sourceMapPrefix +:+ "old.map" +:+ String "010" "var b;").
  split; [vm_compute; reflexivity|]. intros jsfile.
  destruct (Legacy.alreadyProcessed jsfile _) eqn:E; [exfalso|reflexivity].
  unfold Legacy.alreadyProcessed in E. apply String.eqb_eq in E.
  set (contents := "var a;" +:+ _) in E.
  assert (occursIn (sourceMapPrefix +:+ "/") contents) as Hocc.
  { destruct (String.length (Legacy.sourceMapTextOf jsfile)) eqn:Hn.
    - discriminate Hn.
    - unfold Js.sliceLast in E.
      destruct (dropString_suffix (String.length contents - S n) contents) as [a Ha].
      rewrite E in Ha. exists a, (Js.stripPublic (sourcemapOf jsfile)).
      rewrite Ha. reflexivity. }
  apply indexOf_nonneg in Hocc. vm_compute in Hocc. apply Hocc. reflexivity.
Qed.

(** ** Derived paths *)

Lemma derived_paths jsfile :
  Js.endsWith ".js" jsfile = true ->
  exists base,
    jsfile = base +:+ ".js" /\ originalOf jsfile = base +:+ ".orig.js"
    /\ sourcemapOf jsfile = base +:+ ".js.map"
    /\ gzippedOf jsfile = base +:+ ".js.gz".
Proof.
  intros H. apply endsWith_true in H as [base ->]. exists base.
  unfold originalOf, sourcemapOf, gzippedOf, Js.replaceJsSuffix.
  rewrite (proj2 (stripSuffix_Some ".js" (base +:+ ".js") base) eq_refl). auto.
Qed.

Lemma sapp_suffix_neq base s t : s <> t -> base +:+ s <> base +:+ t.
Proof. intros Hne H. apply String.app_inj in H. contradiction. Qed.

Lemma derived_paths_distinct jsfile :
  Js.endsWith ".js" jsfile = true ->
  jsfile <> originalOf jsfile /\ jsfile <> sourcemapOf jsfile
  /\ jsfile <> gzippedOf jsfile /\ originalOf jsfile <> sourcemapOf jsfile
  /\ originalOf jsfile <> gzippedOf jsfile
  /\ sourcemapOf jsfile <> gzippedOf jsfile.
Proof.
  intros H. destruct (derived_paths jsfile H) as (base & -> & -> & -> & ->).
  repeat split; apply sapp_suffix_neq; discriminate.
Qed.

Lemma sourcemapOf_js jsfile :
  Js.endsWith ".js" jsfile = true -> sourcemapOf jsfile = jsfile +:+ ".map".
Proof.
  intros H. destruct (derived_paths jsfile H) as (base & -> & _ & -> & _).
  rewrite sapp_assoc. reflexivity.
Qed.

(** ** The single-file processor on a file it minifies *)

Section Enqueue.

Variable minify : string -> string -> string -> option uglified.
Variable gzipBytes : string -> string.
Variable gzip : bool.

Lemma enqueueWaterfall_processes w jsfile source u :
  Js.endsWith ".js" jsfile = true ->
  files w !! jsfile = Some source ->
  containsSourceMapPrefix source = false ->
  minify (originalOf jsfile) source (sourceMapUrlOf jsfile) = Some u ->
  enqueueWaterfall minify gzipBytes gzip jsfile w
  = (World (processedFiles gzipBytes gzip jsfile source u (files w))
           (trace w ++ processedTrace gzip jsfile), Ret tt).
Proof.
  intros Hjs Hf Hc Hu.
  destruct (derived_paths_distinct jsfile Hjs) as (? & ? & ? & ? & ? & ?).
  unfold enqueueWaterfall.
  erewrite bind_Ret by (eapply raise_go; eassumption).
  unfold rename, uglifyMinify, writeFile, gzipFile, processedFiles, processedTrace.
  unfold mbind, M_bind. cbn [files trace]. rewrite Hf. cbn [files trace].
  rewrite lookup_insert_eq, Hu. cbn [files trace].
  destruct gzip; cbn [files trace].
  - rewrite lookup_insert_ne, lookup_insert_eq by congruence.
    rewrite <- !(assoc_L (++)). reflexivity.
  - rewrite <- !(assoc_L (++)). reflexivity.
Qed.

(** A pass that ends in [cb()] without the AlreadyProcessed signal went
    through every step. *)
Lemma enqueueWaterfall_Ret w w' jsfile :
  enqueueWaterfall minify gzipBytes gzip jsfile w = (w', Ret tt) ->
  exists source u,
    files w !! jsfile = Some source
    /\ containsSourceMapPrefix source = false
    /\ minify (originalOf jsfile) source (sourceMapUrlOf jsfile) = Some u.
Proof.
  unfold enqueueWaterfall. intros H.
  destruct (files w !! jsfile) as [source|] eqn:Hf.
  - destruct (containsSourceMapPrefix source) eqn:Hc.
    + erewrite bind_Err in H by (eapply raise_skip; eassumption). discriminate.
    + erewrite bind_Ret in H by (eapply raise_go; eassumption).
      exists source.
      destruct (minify (originalOf jsfile) source (sourceMapUrlOf jsfile))
        as [u|] eqn:Hu; [eauto|].
      unfold rename, uglifyMinify, mbind, M_bind in H. cbn [files trace] in H.
      rewrite Hf in H. cbn [files trace] in H.
      rewrite lookup_insert_eq, Hu in H. discriminate.
  - erewrite bind_Err in H by (apply raise_missing; assumption). discriminate.
Qed.

End Enqueue.

(** ** The path rewrite *)

Lemma rewritePaths_match s r :
  Js.matchAssets s = Some r -> rewritePaths s = "/assets/" +:+ rewritePaths r.
Proof.
  revert r.
  apply (rewritePaths_elim (fun s out =>
    forall r, Js.matchAssets s = Some r -> out = "/assets/" +:+ rewritePaths r)).
  - intros s0 r0 Hm _ _ r H. congruence.
  - intros s0 Hm -> _ r H. congruence.
  - intros s0 c s' Hm _ -> _ r H. congruence.
Qed.

Lemma rewritePaths_skip c s :
  Js.matchAssets (String c s) = None ->
  rewritePaths (String c s) = String c (rewritePaths s).
Proof.
  remember (String c s) as t eqn:Et. revert c s Et.
  apply (rewritePaths_elim (fun t out =>
    forall c s, t = String c s -> Js.matchAssets t = None ->
                out = String c (rewritePaths s))).
  - intros s0 r0 Hm _ _ c s -> H. congruence.
  - intros s0 Hm -> _ c s [=].
  - intros s0 c s' Hm _ -> _ c0 s1 [= -> ->] _. reflexivity.
Qed.

Lemma optChar_Some c k s r :
  Js.optChar c k s = Some r ->
  k s = Some r \/ exists s', s = String c s' /\ k s' = Some r.
Proof.
  unfold Js.optChar. destruct s as [|c' s']; [auto|].
  destruct (Ascii.eqb_spec c c') as [<-|]; [|auto].
  destruct (k s') as [t|] eqn:E; [|auto]. intros [= <-]. eauto.
Qed.

Lemma matchAssets_Some s r :
  Js.matchAssets s = Some r -> exists m, m ∈ matchForms /\ s = m +:+ r.
Proof.
  unfold Js.matchAssets, matchForms. intros H.
  apply optChar_Some in H as [H|(s1 & -> & H)];
    apply optChar_Some in H as [H|(s2 & -> & H)];
    apply stripPrefix_Some in H; subst.
  - exists "public/assets/". split; [set_solver|reflexivity].
  - exists "/public/assets/". split; [set_solver|reflexivity].
  - exists ".public/assets/". split; [set_solver|reflexivity].
  - exists "./public/assets/". split; [set_solver|reflexivity].
Qed.

Lemma matchAssets_literal b : Js.matchAssets (Js.assetsLiteral +:+ b) = Some b.
Proof.
  change (Js.stripPrefix Js.assetsLiteral (Js.assetsLiteral +:+ b) = Some b).
  apply stripPrefix_Some. reflexivity.
Qed.

Lemma occursIn_cons needle c s :
  occursIn needle (String c s) ->
  (exists b, String c s = needle +:+ b) \/ occursIn needle s.
Proof.
  intros ([|c' a] & b & H).
  - left. exists b. exact H.
  - right. rewrite sapp_cons in H. injection H as _ ->. exists a, b. reflexivity.
Qed.

(** A text that begins with one of the four forms is matched at its
    head, and the match is that form. *)
Lemma matchAssets_complete m b :
  m ∈ matchForms -> Js.matchAssets (m +:+ b) = Some b.
Proof.
  unfold matchForms. intros Hm.
  repeat (apply elem_of_cons in Hm as [->|Hm]; [reflexivity|]).
  apply elem_of_nil in Hm. contradiction.
Qed.

Lemma noMatchBefore_cons n c s :
  Js.matchAssets (String c s) = None ->
  noMatchBefore n s -> noMatchBefore (S n) (String c s).
Proof.
  intros Hm Hs m a b Hin E. destruct a as [|c' a].
  - rewrite sapp_nil_l in E. rewrite E, matchAssets_complete in Hm by assumption.
    discriminate.
  - rewrite sapp_cons in E. injection E as _ E. apply (Hs m a b Hin) in E.
    simpl. lia.
Qed.

Lemma noMatchBefore_tail n c s :
  noMatchBefore (S n) (String c s) -> noMatchBefore n s.
Proof.
  intros H m a b Hin E.
  specialize (H m (String c a) b Hin). rewrite sapp_cons, <- E in H.
  specialize (H eq_refl). simpl in H. lia.
Qed.

Lemma replacesMatches_skip c s out :
  Js.matchAssets (String c s) = None ->
  replacesMatches s out -> replacesMatches (String c s) (String c out).
Proof.
  intros Hm H.
  destruct H as [u Hu|u m rest out Hin Hleft Hrest].
  - apply replaces_rest. intros Hocc. apply occursIn_cons in Hocc as [[b Hb]|]; [|auto].
    rewrite Hb, matchAssets_literal in Hm. discriminate.
  - rewrite <- !sapp_cons. apply replaces_match; [assumption| |assumption].
    rewrite sapp_cons. apply noMatchBefore_cons; assumption.
Qed.

Lemma rewritePaths_replaces s : replacesMatches s (rewritePaths s).
Proof.
  remember (String.length s) as n eqn:En. revert s En.
  induction n as [n IH] using lt_wf_ind. intros s ->.
  destruct (Js.matchAssets s) as [r|] eqn:Hm.
  - rewrite (rewritePaths_match _ _ Hm).
    destruct (matchAssets_Some _ _ Hm) as (m & Hin & ->).
    apply (replaces_match "" m r); [assumption| |].
    + intros m' a b _ _. simpl. lia.
    + eapply IH; [|reflexivity]. apply matchAssets_length in Hm. exact Hm.
  - destruct s as [|c s].
    + apply replaces_rest. intros ([|? ?] & ? & [=]).
    + rewrite (rewritePaths_skip _ _ Hm). apply replacesMatches_skip; [assumption|].
      eapply IH; [|reflexivity]. simpl. lia.
Qed.

Ltac split_state q n :=
  lazymatch n with
  | O => exfalso; lia
  | S ?k => let q' := fresh "q" in destruct q as [|q']; [|split_state q' k]
  end.
Ltac each_state q := split_state q 14.

Lemma kmpStep_bound q c : q < 14 -> kmpStep q c <= 14.
Proof.
  intros Hq. unfold kmpStep.
  destruct (String.get q Js.assetsLiteral); repeat case_match; lia.
Qed.

Lemma reaches_literal q b : q < 14 -> reaches q (Js.assetsLiteral +:+ b) = true.
Proof. intros Hq. each_state q; reflexivity. Qed.

Lemma reaches_complete out q :
  q < 14 -> occursIn Js.assetsLiteral out -> reaches q out = true.
Proof.
  intros Hq (a & b & ->). revert q Hq. induction a as [|c a IH]; intros q Hq.
  - apply reaches_literal, Hq.
  - rewrite sapp_cons. cbn [reaches].
    destruct (Nat.eqb_spec (kmpStep q c) 14) as [|Hne]; [reflexivity|].
    apply IH. pose proof (kmpStep_bound q c Hq). lia.
Qed.

Lemma reaches_replacement q o :
  q < 14 -> q <> 6 -> q <> 13 -> reaches q ("/assets/" +:+ o) = reaches 0 o.
Proof. intros Hq H6 H13. each_state q; try reflexivity; contradiction. Qed.

Lemma sapp_snoc pre c s : pre +:+ String c s = (pre +:+ String c "") +:+ s.
Proof. rewrite sapp_assoc. reflexivity. Qed.

Lemma rewritePaths_clean_from n :
  forall s pre q total,
    String.length s < n -> total = pre +:+ s -> q < 14 ->
    (exists p0, pre = p0 +:+ String.substring 0 q Js.assetsLiteral) ->
    (q = 0 \/ Js.stripPrefix (Js.dropString q Js.assetsLiteral) s = None) ->
    ~ joinsPublic total ->
    reaches q (rewritePaths s) = false.
Proof.
  induction n as [|n IH]; intros s pre q total Hn Ht Hq [p0 Hpre] Hrest Hclean;
    [lia|].
  destruct (Js.matchAssets s) as [r|] eqn:Hm.
  - rewrite (rewritePaths_match _ _ Hm).
    destruct (matchAssets_Some _ _ Hm) as (m & Hin & ->).
    apply matchAssets_length in Hm.
    destruct (decide (q = 6)) as [->|H6]; [|destruct (decide (q = 13)) as [->|H13]].
    + exfalso. apply Hclean. exists m. split; [assumption|]. left.
      exists p0, r. subst. rewrite !sapp_assoc. reflexivity.
    + exfalso. apply Hclean. exists m. split; [assumption|]. right.
      exists p0, r. subst. rewrite !sapp_assoc. reflexivity.
    + rewrite reaches_replacement by assumption.
      apply (IH r (pre +:+ m) 0 total); try lia.
      * subst total. rewrite sapp_assoc. reflexivity.
      * exists (pre +:+ m). rewrite sapp_nil_r. reflexivity.
      * assumption.
  - destruct s as [|c s]; [reflexivity|].
    rewrite (rewritePaths_skip _ _ Hm). cbn [reaches].
    rewrite sapp_snoc in Ht. simpl in Hn.
    assert (Js.stripPrefix "ublic/assets/" s = None \/ c <> "p"%char) as Hp.
    { destruct (Ascii.eqb_spec c "p") as [->|]; [left; exact Hm|right; assumption]. }
    each_state q; unfold kmpStep; cbn [String.get Js.assetsLiteral];
      repeat match goal with
             | |- context [Ascii.eqb c ?x] =>
                 destruct (Ascii.eqb_spec c x) as [->|?]
             end; cbn [Nat.eqb orb].
    all: try (destruct Hrest as [[=]|Hrest]; simpl in Hrest; discriminate Hrest).
    all: eapply (IH s _ _ total); [lia|exact Ht|lia| | |exact Hclean].
    all: try (left; reflexivity).
    all: try (right; destruct Hp as [Hp|Hp]; [exact Hp|contradiction]).
    all: try (right; destruct Hrest as [[=]|Hrest]; exact Hrest).
    all: try (exists (pre +:+ String c ""); rewrite sapp_nil_r; reflexivity).
    all: try (exists pre; reflexivity).
    all: try (exists p0; subst pre; rewrite sapp_assoc; reflexivity).
Qed.

Lemma rewritePaths_clean s :
  ~ joinsPublic s -> ~ occursIn Js.assetsLiteral (rewritePaths s).
Proof.
  intros Hclean Hocc.
  apply (reaches_complete _ 0) in Hocc; [|lia].
  rewrite (rewritePaths_clean_from (S (String.length s)) s "" 0 s) in Hocc;
    [discriminate|lia|reflexivity|lia|exists ""; reflexivity|auto|assumption].
Qed.

(** C4 as stated fails: the replacement is not scanned again, so a match
    that follows [public] leaves a fresh [public/assets/] behind. *)
Lemma C4_output_keeps_literal :
  rewritePaths "republic/public/assets/app.orig.js" = "republic/assets/app.orig.js"
  /\ occursIn "public/assets/" (rewritePaths "republic/public/assets/app.orig.js").
Proof.
  split; [vm_compute; reflexivity|].
  exists "re", "app.orig.js". vm_compute. reflexivity.
Qed.

(** ** More on derived paths *)

Lemma lastChar_app a s : s <> "" -> lastChar (a +:+ s) = lastChar s.
Proof.
  intros Hs. induction a as [|c a IH]; [reflexivity|].
  rewrite sapp_cons. cbn [lastChar]. rewrite IH.
  destruct (a +:+ s) eqn:E; [|reflexivity].
  destruct a; [rewrite sapp_nil_l in E; contradiction|discriminate].
Qed.

Lemma isJsFile_true file :
  isJsFile file = true <->
  Js.endsWith ".js" file = true /\ Js.endsWith ".orig.js" file = false.
Proof.
  unfold isJsFile. rewrite andb_true_iff, negb_true_iff. reflexivity.
Qed.

Lemma originalOf_endsWith jsfile :
  Js.endsWith ".js" jsfile = true -> Js.endsWith ".orig.js" (originalOf jsfile) = true.
Proof.
  intros H. destruct (derived_paths jsfile H) as (base & _ & -> & _).
  apply endsWith_true. eauto.
Qed.

Lemma lastChar_js file : Js.endsWith ".js" file = true -> lastChar file = Some "s"%char.
Proof.
  intros H. apply endsWith_true in H as [b ->]. rewrite lastChar_app; [reflexivity|discriminate].
Qed.

Lemma lastChar_sourcemapOf jsfile :
  Js.endsWith ".js" jsfile = true -> lastChar (sourcemapOf jsfile) = Some "p"%char.
Proof.
  intros H. destruct (derived_paths jsfile H) as (base & _ & _ & -> & _).
  rewrite lastChar_app; [reflexivity|discriminate].
Qed.

Lemma lastChar_gzippedOf jsfile :
  Js.endsWith ".js" jsfile = true -> lastChar (gzippedOf jsfile) = Some "z"%char.
Proof.
  intros H. destruct (derived_paths jsfile H) as (base & _ & _ & _ & ->).
  rewrite lastChar_app; [reflexivity|discriminate].
Qed.

(** A [.js] file that is not an original is none of the artifacts derived
    from a [.js] file. *)
Lemma jsfile_not_derived file jsfile :
  isJsFile file = true -> Js.endsWith ".js" jsfile = true ->
  file <> originalOf jsfile /\ file <> sourcemapOf jsfile
  /\ file <> gzippedOf jsfile.
Proof.
  intros [Hjs Horig]%isJsFile_true H. repeat split; intros ->.
  - rewrite originalOf_endsWith in Horig by assumption. discriminate.
  - apply lastChar_js in Hjs. rewrite lastChar_sourcemapOf in Hjs by assumption.
    discriminate.
  - apply lastChar_js in Hjs. rewrite lastChar_gzippedOf in Hjs by assumption.
    discriminate.
Qed.

Lemma originalOf_inj a b :
  Js.endsWith ".js" a = true -> Js.endsWith ".js" b = true ->
  originalOf a = originalOf b -> a = b.
Proof.
  intros Ha Hb. destruct (derived_paths a Ha) as (x & -> & -> & _).
  destruct (derived_paths b Hb) as (y & -> & -> & _).
  intros H%sapp_inj_r. congruence.
Qed.

(** Artifacts of different kinds never coincide. *)
Lemma derived_kinds_distinct a b :
  Js.endsWith ".js" a = true -> Js.endsWith ".js" b = true ->
  originalOf a <> sourcemapOf b /\ originalOf a <> gzippedOf b
  /\ sourcemapOf a <> gzippedOf b.
Proof.
  intros Ha Hb. repeat split; intros E; apply (f_equal lastChar) in E.
  - rewrite (lastChar_js (originalOf a)), lastChar_sourcemapOf in E; try assumption;
      [discriminate|].
    destruct (derived_paths a Ha) as (x & _ & -> & _). apply endsWith_true.
    exists (x +:+ ".orig"). rewrite sapp_assoc. reflexivity.
  - rewrite (lastChar_js (originalOf a)), lastChar_gzippedOf in E; try assumption;
      [discriminate|].
    destruct (derived_paths a Ha) as (x & _ & -> & _). apply endsWith_true.
    exists (x +:+ ".orig"). rewrite sapp_assoc. reflexivity.
  - rewrite lastChar_sourcemapOf, lastChar_gzippedOf in E by assumption. discriminate.
Qed.

Lemma sapp_eq_app a x p r :
  a +:+ x = p +:+ r ->
  (exists a', a = p +:+ a') \/ (exists p', p = a +:+ p' /\ x = p' +:+ r).
Proof.
  revert p. induction a as [|c a IH]; intros p H.
  - right. exists p. rewrite !sapp_nil_l in *. auto.
  - destruct p as [|d p].
    + left. exists (String c a). reflexivity.
    + rewrite !sapp_cons in H. injection H as -> H.
      destruct (IH p H) as [[a' ->]|(p' & -> & ->)].
      * left. exists a'. reflexivity.
      * right. exists p'. auto.
Qed.

(** [sourceOrig.replace('.orig', '')] gives back the file an original was
    renamed from when the file's own path holds no [.orig]. *)
Lemma replaceFirst_orig base :
  ~ occursIn ".orig" (base +:+ ".js") ->
  Js.replaceFirst ".orig" "" (base +:+ ".orig.js") = base +:+ ".js".
Proof.
  induction base as [|c base IH]; intros Hfree; [reflexivity|].
  rewrite !sapp_cons. cbn [Js.replaceFirst].
  destruct (Js.stripPrefix ".orig" (String c (base +:+ ".orig.js"))) as [r|] eqn:E.
  - exfalso. apply stripPrefix_Some in E. rewrite <- sapp_cons in E.
    apply sapp_eq_app in E as [[a' Ha]|(p' & Hp & Hx)].
    + apply Hfree. rewrite Ha. exists "", (a' +:+ ".js").
      rewrite sapp_nil_l, sapp_assoc. reflexivity.
    + destruct p' as [|d p'].
      { apply Hfree. rewrite sapp_nil_r in Hp. rewrite <- Hp.
        exists "", ".js". reflexivity. }
      rewrite sapp_cons in Hp. injection Hp as <- Hp.
      rewrite sapp_cons in Hx. injection Hx as <- _. clear -Hp.
      destruct base as [|c1 [|c2 [|c3 [|c4 [|c5 base]]]]];
        rewrite ?sapp_cons, ?sapp_nil_l in Hp; discriminate Hp.
  - f_equal. apply IH. intros Hocc. apply Hfree.
    apply (occursIn_app_l _ (String c "")) in Hocc. exact Hocc.
Qed.

Lemma sibling_of_original jsfile :
  Js.endsWith ".js" jsfile = true -> ~ occursIn ".orig" jsfile ->
  Js.replaceFirst ".orig" "" (originalOf jsfile) = jsfile.
Proof.
  intros H Hfree. destruct (derived_paths jsfile H) as (base & -> & -> & _).
  apply replaceFirst_orig, Hfree.
Qed.

(** ** Relations kept by every step of a computation *)

Section Respects.

Context (R : relation world) `{!PreOrder R}.

Lemma respects_ret {A} (a : A) : respects R (mret a).
Proof. intros w w' r [= <- _]. reflexivity. Qed.

Lemma respects_fail {A} e : respects R (@fail A e).
Proof. intros w w' r [= <- _]. reflexivity. Qed.

Lemma respects_throw {A} e : respects R (@throw A e).
Proof. intros w w' r [= <- _]. reflexivity. Qed.

Lemma respects_bind {A B} (m : M A) (k : A -> M B) :
  respects R m -> (forall a, respects R (k a)) -> respects R (m ≫= k).
Proof.
  intros Hm Hk w w' r. unfold mbind, M_bind.
  destruct (m w) as [w1 [a|e|e]] eqn:E; specialize (Hm _ _ _ E).
  - intros H. etransitivity; [exact Hm|]. eapply Hk, H.
  - intros [= <- _]. exact Hm.
  - intros [= <- _]. exact Hm.
Qed.

Lemma respects_readFile path : respects R (readFile path).
Proof.
  intros w w' r. unfold readFile.
  destruct (files w !! path); intros [= <- _]; reflexivity.
Qed.

Lemma respects_forEachSeries {A} (f : A -> M unit) l :
  (forall x, x ∈ l -> respects R (f x)) -> respects R (forEachSeries f l).
Proof.
  induction l as [|x l IH]; intros Hf; [apply respects_ret|].
  cbn [forEachSeries]. apply respects_bind.
  - apply Hf. left.
  - intros _. apply IH. intros y Hy. apply Hf. right. exact Hy.
Qed.

End Respects.

#[global] Instance confined_preorder T P : PreOrder (confined T P).
Proof.
  split.
  - intros w. split; [reflexivity|]. exists []. rewrite app_nil_r. auto.
  - intros w1 w2 w3 [F12 (t12 & E12 & P12)] [F23 (t23 & E23 & P23)]. split.
    + intros p Hp. rewrite F23, F12 by assumption. reflexivity.
    + exists (t12 ++ t23). rewrite E23, E12, (assoc_L (++)). split; [reflexivity|].
      apply Forall_app. auto.
Qed.

Lemma confined_mono T T' (P P' : event -> Prop) w w' :
  T ⊆ T' -> (forall e, P e -> P' e) -> confined T P w w' -> confined T' P' w w'.
Proof.
  intros HT HP [F (t & E & Ht)]. split.
  - intros p Hp. apply F. intros Hin. apply Hp, HT, Hin.
  - exists t. split; [exact E|]. eapply Forall_impl; eauto.
Qed.

Lemma respects_mono {A} (R R' : relation world) (m : M A) :
  (forall w w', R w w' -> R' w w') -> respects R m -> respects R' m.
Proof. intros HR Hm w w' r H. eapply HR, Hm, H. Qed.

Section Confined.

Context (T : list string) (P : event -> Prop).

Lemma confined_emit e : P e -> respects (confined T P) (emit e).
Proof.
  intros He w w' r [= <- _]. split; [reflexivity|]. exists [e]. auto.
Qed.

Lemma confined_raise jsfile :
  P (LogSkipping jsfile) -> P (LogGenerating jsfile) ->
  respects (confined T P) (raiseAlreadyProcessedIfSourceMap jsfile).
Proof.
  intros Hs Hg. unfold raiseAlreadyProcessedIfSourceMap, hasSourceMap.
  apply respects_bind; [apply _| |].
  - apply respects_bind; [apply _|apply respects_readFile, _|].
    intros c. apply respects_ret, _.
  - intros [|]; [|apply confined_emit, Hg].
    apply respects_bind; [apply _|apply confined_emit, Hs|].
    intros _. apply respects_fail, _.
Qed.

Lemma confined_rename src dst :
  src ∈ T -> dst ∈ T -> P (Renamed src dst) ->
  respects (confined T P) (rename src dst).
Proof.
  intros Hsrc Hdst He w w' r. unfold rename.
  destruct (files w !! src); intros [= <- _]; [|reflexivity].
  split; [|exists [Renamed src dst]; auto].
  intros p Hp. cbn [files].
  rewrite lookup_insert_ne, lookup_delete_ne by (intros ->; contradiction).
  reflexivity.
Qed.

Lemma confined_writeFile path data :
  path ∈ T -> P (Wrote path) -> respects (confined T P) (writeFile path data).
Proof.
  intros Hpath He w w' r [= <- _].
  split; [|exists [Wrote path]; auto].
  intros p Hp. cbn [files].
  rewrite lookup_insert_ne by (intros ->; contradiction). reflexivity.
Qed.

Lemma confined_copy source dest :
  dest ∈ T -> P (Copied source dest) -> respects (confined T P) (copy source dest).
Proof.
  intros Hdest He w w' r. unfold copy.
  destruct (files w !! source); intros [= <- _].
  - split; [|exists [Copied source dest]; auto].
    intros p Hp. cbn [files].
    rewrite lookup_insert_ne by (intros ->; contradiction). reflexivity.
  - split; [|exists []; rewrite app_nil_r; auto].
    intros p Hp. cbn [files].
    rewrite lookup_insert_ne by (intros ->; contradiction). reflexivity.
Qed.

Lemma confined_uglifyMinify minify original url :
  P (Minified original url) ->
  respects (confined T P) (uglifyMinify minify original url).
Proof.
  intros He w w' r. unfold uglifyMinify.
  destruct (files w !! original); [|intros [= <- _]; reflexivity].
  destruct (minify original _ url); intros [= <- _];
    (split; [reflexivity|exists [Minified original url]; auto]).
Qed.

Lemma confined_gzipFile gzipBytes gzip source dest :
  dest ∈ T -> P (Gzipped source dest) ->
  respects (confined T P) (gzipFile gzipBytes gzip source dest).
Proof.
  intros Hdest He w w' r. unfold gzipFile.
  destruct gzip; [|intros [= <- _]; reflexivity].
  destruct (files w !! source); intros [= <- _]; [|reflexivity].
  split; [|exists [Gzipped source dest]; auto].
  intros p Hp. cbn [files].
  rewrite lookup_insert_ne by (intros ->; contradiction). reflexivity.
Qed.

End Confined.

Ltac bind_step tac := apply respects_bind; [apply _|tac|intros ?].

Lemma enqueue_confined minify gzipBytes gzip jsfile :
  respects (confined (touchedByEnqueue jsfile) (fun _ => True))
           (enqueue minify gzipBytes gzip jsfile).
Proof.
  assert (respects (confined (touchedByEnqueue jsfile) (fun _ => True))
                   (enqueueWaterfall minify gzipBytes gzip jsfile)) as Hw.
  { unfold enqueueWaterfall, touchedByEnqueue.
    bind_step ltac:(apply confined_raise; exact I).
    bind_step ltac:(apply confined_rename; first [exact I|set_solver]).
    bind_step ltac:(apply confined_uglifyMinify; exact I).
    bind_step ltac:(apply confined_writeFile; first [exact I|set_solver]).
    bind_step ltac:(apply confined_writeFile; first [exact I|set_solver]).
    apply confined_gzipFile; first [exact I|set_solver]. }
  intros w w' r. unfold enqueue.
  destruct (enqueueWaterfall _ _ _ jsfile w) as [w1 [[]|e|e]] eqn:E;
    specialize (Hw _ _ _ E); try (intros [= <- _]; exact Hw).
  destruct e; intros [= <- _]; try exact Hw;
    (etransitivity; [exact Hw|]);
    (split; [reflexivity|eexists [_]; split; [reflexivity|auto]]).
Qed.

Lemma reconcile_confined gzip hash jsfile :
  respects (confined (touchedByReconcile jsfile) isReconcilerEvent)
           (reconcile gzip hash jsfile).
Proof.
  assert (respects (confined (touchedByReconcile jsfile) isReconcilerEvent)
                   (reconcileWaterfall gzip hash jsfile)) as Hw.
  { unfold reconcileWaterfall, touchedByReconcile.
    apply respects_bind; [apply _|apply confined_raise; exact I|intros _].
    apply respects_bind; [apply _|apply respects_readFile, _|intros contents].
    destruct (getProp hash contents) as [[|c s]|name|];
      try apply respects_fail, _.
    - bind_step ltac:(apply confined_emit; exact I).
      bind_step ltac:(apply confined_rename; first [exact I|set_solver]).
      bind_step ltac:(apply confined_copy; first [exact I|set_solver]).
      destruct gzip; [|apply respects_ret, _].
      apply confined_copy; first [exact I|set_solver].
    - bind_step ltac:(apply confined_emit; exact I).
      bind_step ltac:(apply confined_rename; first [exact I|set_solver]).
      apply respects_throw, _. }
  intros w w' r. unfold reconcile.
  destruct (reconcileWaterfall gzip hash jsfile w) as [w1 [[]|e|e]] eqn:E;
    specialize (Hw _ _ _ E); try (intros [= <- _]; exact Hw).
  destruct e; intros [= <- _]; exact Hw.
Qed.

(** ** Loops *)

Lemma forEachSeries_app {A} (f : A -> M unit) l1 l2 w :
  forEachSeries f (l1 ++ l2) w
  = match forEachSeries f l1 w with
    | (w1, Ret _) => forEachSeries f l2 w1
    | (w1, Err e) => (w1, Err e)
    | (w1, Throw e) => (w1, Throw e)
    end.
Proof.
  revert w. induction l1 as [|x l1 IH]; intros w; [reflexivity|].
  cbn [forEachSeries app]. unfold mbind, M_bind.
  destruct (f x w) as [w1 [[]|e|e]]; [apply IH|reflexivity..].
Qed.

Lemma forEachSeries_cons {A} (f : A -> M unit) x l w :
  forEachSeries f (x :: l) w
  = match f x w with
    | (w1, Ret _) => forEachSeries f l w1
    | (w1, Err e) => (w1, Err e)
    | (w1, Throw e) => (w1, Throw e)
    end.
Proof. reflexivity. Qed.

Lemma respects_drainQueue R `{!PreOrder R} minify gzipBytes gzip tasks :
  (forall jsfile, jsfile ∈ tasks -> respects R (enqueue minify gzipBytes gzip jsfile)) ->
  respects R (drainQueue minify gzipBytes gzip tasks).
Proof.
  induction tasks as [|x tasks IH]; intros Hf; [apply respects_ret, _|].
  intros w w' r. cbn [drainQueue].
  assert (respects R (drainQueue minify gzipBytes gzip tasks)) as Hrest
    by (apply IH; intros y Hy; apply Hf; right; exact Hy).
  destruct (enqueue minify gzipBytes gzip x w) as [w1 [[]|e|e]] eqn:E;
    pose proof (Hf x ltac:(left) _ _ _ E) as H1.
  - intros H. etransitivity; [exact H1|].
    revert H. apply respects_bind; [apply _|exact Hrest|]. intros ?. apply respects_ret, _.
  - intros H. etransitivity; [exact H1|].
    revert H. apply respects_bind; [apply _|exact Hrest|]. intros ?. apply respects_ret, _.
  - intros [= <- _]. exact H1.
Qed.

(** ** The content hash *)

(** [glob] lists exactly the existing paths that match, each once. *)
Lemma glob_spec pattern (fs : gmap string string) p :
  p ∈ glob pattern fs <-> is_Some (fs !! p) /\ pattern p = true.
Proof.
  unfold glob. rewrite merge_sort_Permutation, list_elem_of_filter, elem_of_elements.
  rewrite elem_of_dom. tauto.
Qed.

Lemma glob_NoDup pattern (fs : gmap string string) : NoDup (glob pattern fs).
Proof.
  unfold glob. rewrite merge_sort_Permutation. apply NoDup_filter, NoDup_elements.
Qed.

(** The callbacks that run are those of the reads started, each once. *)
Lemma completionOrder_spec finishTime (l : list string) p :
  p ∈ completionOrder finishTime l <-> p ∈ l.
Proof. unfold completionOrder. rewrite merge_sort_Permutation. reflexivity. Qed.

Lemma completed_spec pattern finishTime (fs : gmap string string) p :
  p ∈ completionOrder finishTime (glob pattern fs)
  <-> is_Some (fs !! p) /\ pattern p = true.
Proof. rewrite completionOrder_spec. apply glob_spec. Qed.

Lemma positionIn_inj l : forall x y,
  x ∈ l -> y ∈ l -> positionIn l x = positionIn l y -> x = y.
Proof.
  induction l as [|a l IH]; intros x y Hx Hy E; [inversion Hx|].
  simpl in E. destruct (decide (x = a)) as [->|Hxa], (decide (y = a)) as [->|Hya];
    [reflexivity|discriminate E|discriminate E|].
  apply elem_of_cons in Hx as [?|Hx]; [contradiction|].
  apply elem_of_cons in Hy as [?|Hy]; [contradiction|].
  apply IH; [exact Hx|exact Hy|lia].
Qed.

Lemma positionIn_later a order l :
  (forall x, x ∈ l -> x <> a) ->
  StronglySorted (completesBefore (positionIn order)) l ->
  StronglySorted (completesBefore (positionIn (a :: order))) l.
Proof.
  intros Hne Hs. induction Hs as [|b l Hs IH Hb]; [constructor|].
  constructor.
  - apply IH. intros x Hx. apply Hne. right. exact Hx.
  - apply Forall_forall. intros x Hx. rewrite Forall_forall in Hb.
    specialize (Hb x Hx). unfold completesBefore in *. cbn [positionIn].
    rewrite (decide_False (P := b = a)) by (apply Hne; left).
    rewrite (decide_False (P := x = a)) by (apply Hne; right; exact Hx).
    lia.
Qed.

Lemma positionIn_sorted l :
  NoDup l -> StronglySorted (completesBefore (positionIn l)) l.
Proof.
  induction l as [|a l IH]; intros Hnd; [constructor|].
  apply NoDup_cons in Hnd as [Ha Hnd]. constructor.
  - apply positionIn_later; [|apply IH, Hnd]. intros x Hx ->. contradiction.
  - apply Forall_forall. intros x _. unfold completesBefore. cbn [positionIn].
    rewrite decide_True by reflexivity. lia.
Qed.

#[global] Instance completesBefore_trans finishTime :
  Transitive (completesBefore finishTime).
Proof. intros a b c. unfold completesBefore. lia. Qed.

#[global] Instance completesBefore_total finishTime :
  Total (completesBefore finishTime).
Proof. intros a b. unfold completesBefore. lia. Qed.

(** Every order of the files is the completion order under some finish
    times. *)
Lemma completionOrder_any (files order : list string) :
  NoDup order -> order ≡ₚ files ->
  completionOrder (positionIn order) files = order.
Proof.
  intros Hnd Hp. unfold completionOrder.
  apply StronglySorted_unique_strong with (R := completesBefore (positionIn order)).
  - intros x1 x2 H1 H2 Ha Hb. unfold completesBefore in *.
    rewrite merge_sort_Permutation, <- Hp in H1.
    apply (positionIn_inj order); [exact H1|exact H2|lia].
  - apply StronglySorted_merge_sort; apply _.
  - apply positionIn_sorted, Hnd.
  - rewrite merge_sort_Permutation. symmetry. exact Hp.
Qed.

Lemma readOriginals_ok w origs hash :
  (forall file, file ∈ origs -> is_Some (files w !! file)) ->
  readOriginals hash origs w = (w, Ret (contentHash (files w) origs hash)).
Proof.
  revert hash. induction origs as [|file origs IH]; intros hash Hex; [reflexivity|].
  destruct (Hex file ltac:(left)) as [c Hc].
  cbn [readOriginals contentHash foldl]. unfold mbind, M_bind, readFile.
  rewrite Hc. apply IH. intros f Hf. apply Hex. right. exact Hf.
Qed.

Lemma processNonHashedFiles_eq gzip origPattern finishTime nonHashedFiles w :
  processNonHashedFiles gzip origPattern finishTime nonHashedFiles w
  = forEachSeries (reconcile gzip (originalFileContentHash origPattern finishTime (files w)))
                  nonHashedFiles w.
Proof.
  unfold processNonHashedFiles, mbind, M_bind.
  rewrite readOriginals_ok; [reflexivity|].
  intros file Hf. apply completed_spec in Hf. tauto.
Qed.

(** Every entry of the hash maps the content of an original to it. *)
Lemma contentHash_lookup fs origs hash key file :
  contentHash fs origs hash !! key = Some file ->
  hash !! key = Some file \/ (file ∈ origs /\ fs !! file = Some key).
Proof.
  revert hash. induction origs as [|o origs IH]; intros hash; [auto|].
  cbn [contentHash foldl]. intros H. apply IH in H as [H|[Hin Hf]].
  - destruct (fs !! o) as [c|] eqn:Ho; [|auto].
    unfold setProp in H. case_decide; [auto|].
    destruct (decide (c = key)) as [->|Hne].
    + rewrite lookup_insert_eq in H. injection H as <-. right. split; [left|exact Ho].
    + rewrite lookup_insert_ne in H by assumption. auto.
  - right. split; [right; exact Hin|exact Hf].
Qed.

Lemma originalFileContentHash_lookup origPattern finishTime fs key file :
  originalFileContentHash origPattern finishTime fs !! key = Some file ->
  origPattern file = true /\ fs !! file = Some key.
Proof.
  intros H. apply contentHash_lookup in H as [H|[Hin Hf]].
  - rewrite lookup_empty in H. discriminate.
  - apply completed_spec in Hin. tauto.
Qed.

(** ** The duplicate reconciler *)

Lemma getProp_Undefined hash key :
  hash !! key = None -> key ∉ objectPrototypeMembers -> getProp hash key = Undefined.
Proof. intros H Hk. unfold getProp. rewrite H. case_decide; [contradiction|reflexivity]. Qed.

Lemma reconcile_miss gzip hash w jsfile contents :
  files w !! jsfile = Some contents ->
  containsSourceMapPrefix contents = false ->
  hash !! contents = None -> contents ∉ objectPrototypeMembers ->
  reconcile gzip hash jsfile w
  = (World (files w) (trace w ++ [LogGenerating jsfile]), Err (noOriginalError jsfile)).
Proof.
  intros Hf Hc Hh Hk. unfold reconcile, reconcileWaterfall.
  erewrite bind_Ret by (eapply raise_go; eassumption).
  unfold mbind, M_bind, readFile. cbn [files]. rewrite Hf.
  rewrite getProp_Undefined by assumption. reflexivity.
Qed.

Lemma onQueueDrain_Err gzip origPattern finishTime nonHashedFiles w w' e :
  processNonHashedFiles gzip origPattern finishTime nonHashedFiles w = (w', Err e) ->
  onQueueDrain gzip origPattern finishTime nonHashedFiles w = (w', Throw e).
Proof. unfold onQueueDrain. intros ->. reflexivity. Qed.

(** An error in the loop ends the loop: the files after it are not
    visited. *)
Lemma forEachSeries_stops {A} (f : A -> M unit) before x rest w w1 w2 e :
  forEachSeries f before w = (w1, Ret tt) ->
  f x w1 = (w2, Err e) ->
  forEachSeries f (before ++ x :: rest) w = (w2, Err e).
Proof.
  intros Hb Hx. rewrite forEachSeries_app, Hb, forEachSeries_cons, Hx. reflexivity.
Qed.

(** C7, as the code has it. A non-fingerprinted file whose content has no
    entry in the content hash (and is not the name of a member of
    [Object.prototype]) fails with an error whose message names the file.
    The files are as they were before that file's turn: it is not renamed.
    The error ends the reconciler loop, so the files after it in the list
    are not visited, and [onQueueDrain] throws it. *)
Theorem C7_no_match_named_error
    gzip origPattern finishTime w w1 before jsfile rest contents :
  forEachSeries (reconcile gzip (originalFileContentHash origPattern finishTime (files w)))
                before w = (w1, Ret tt) ->
  files w1 !! jsfile = Some contents ->
  containsSourceMapPrefix contents = false ->
  originalFileContentHash origPattern finishTime (files w) !! contents = None ->
  contents ∉ objectPrototypeMembers ->
  let err := Error ("Could not find original hashed file for: " +:+ jsfile) in
  let w2 := World (files w1) (trace w1 ++ [LogGenerating jsfile]) in
  processNonHashedFiles gzip origPattern finishTime (before ++ jsfile :: rest) w = (w2, Err err)
  /\ onQueueDrain gzip origPattern finishTime (before ++ jsfile :: rest) w = (w2, Throw err).
Proof.
  intros Hb Hf Hc Hh Hk err w2.
  assert (processNonHashedFiles gzip origPattern finishTime (before ++ jsfile :: rest) w
          = (w2, Err err)) as H.
  { rewrite processNonHashedFiles_eq. eapply forEachSeries_stops; [exact Hb|].
    apply reconcile_miss with contents; assumption. }
  split; [exact H|]. apply onQueueDrain_Err, H.
Qed.

(** What a completed turn of the reconciler did to the file. *)
Lemma reconcile_Ret gzip hash jsfile w w' :
  Js.endsWith ".js" jsfile = true ->
  reconcile gzip hash jsfile w = (w', Ret tt) ->
  exists raw,
    files w !! jsfile = Some raw
    /\ ((containsSourceMapPrefix raw = true /\ files w' = files w)
        \/ (containsSourceMapPrefix raw = false
            /\ exists sourceOrig c,
                 hash !! raw = Some sourceOrig
                 /\ files w' !! jsfile = Some c
                 /\ files w' !! originalOf jsfile = Some raw
                 /\ (Js.replaceFirst ".orig" "" sourceOrig <> jsfile ->
                     Js.replaceFirst ".orig" "" sourceOrig <> originalOf jsfile ->
                     files w !! Js.replaceFirst ".orig" "" sourceOrig = Some c))).
Proof.
  intros Hjs. destruct (derived_paths_distinct jsfile Hjs) as (Ho & _ & Hg & _ & Hog & _).
  unfold reconcile, reconcileWaterfall.
  destruct (files w !! jsfile) as [raw|] eqn:Hf.
  2:{ erewrite bind_Err by (apply raise_missing; assumption). discriminate. }
  destruct (containsSourceMapPrefix raw) eqn:Hc.
  { erewrite bind_Err by (eapply raise_skip; eassumption).
    intros [= <-]. exists raw. split; [reflexivity|]. left. auto. }
  erewrite bind_Ret by (eapply raise_go; eassumption).
  unfold mbind at 1, M_bind at 1, readFile. cbn [files]. rewrite Hf.
  unfold getProp. destruct (hash !! raw) as [sourceOrig|] eqn:Hh.
  2:{ case_decide; [|discriminate].
      unfold mbind, M_bind, emit, rename, throw. cbn [files]. rewrite Hf. discriminate. }
  destruct sourceOrig as [|c0 s0]; [discriminate|].
  set (sourceOrig := String c0 s0) in *.
  set (sibling := Js.replaceFirst ".orig" "" sourceOrig).
  unfold mbind, M_bind, emit, rename, copy. cbn [files trace]. rewrite Hf. cbn [files trace].
  destruct (_ !! sibling) as [c|] eqn:Hs; [|discriminate].
  cbn [files trace]. intros H. exists raw. split; [reflexivity|]. right.
  split; [exact Hc|]. exists sourceOrig, c. split; [exact Hh|].
  destruct gzip; cbn [files trace] in H.
  - destruct (_ !! Js.replaceFirst ".orig.js" ".js.gz" sourceOrig) as [g|] eqn:Hgz;
      [|discriminate].
    injection H as <-. cbn [files].
    rewrite !(lookup_insert_ne _ (gzippedOf jsfile)) by congruence.
    rewrite lookup_insert_eq, lookup_insert_ne, lookup_insert_eq by congruence.
    repeat split. intros H1 H2. fold sibling in H1, H2.
    rewrite lookup_insert_ne, lookup_delete_ne in Hs by congruence. exact Hs.
  - injection H as <-. cbn [files].
    rewrite lookup_insert_eq, lookup_insert_ne, lookup_insert_eq by congruence.
    repeat split. intros H1 H2. fold sibling in H1, H2.
    rewrite lookup_insert_ne, lookup_delete_ne in Hs by congruence. exact Hs.
Qed.

Lemma reconcile_loop_confined gzip hash nonHashedFiles :
  respects (confined (nonHashedFiles ≫= touchedByReconcile) isReconcilerEvent)
           (forEachSeries (reconcile gzip hash) nonHashedFiles).
Proof.
  apply respects_forEachSeries; [apply _|]. intros jsfile Hin.
  eapply respects_mono; [|apply reconcile_confined].
  intros w w'. apply confined_mono; [|auto].
  intros p Hp. apply list_elem_of_bind. eauto.
Qed.

Lemma not_touchedByReconcile p (nonHashedFiles : list string) :
  (forall f, f ∈ nonHashedFiles ->
             p <> f /\ p <> originalOf f /\ p <> gzippedOf f) ->
  p ∉ nonHashedFiles ≫= touchedByReconcile.
Proof.
  intros H (f & Hp & Hf)%list_elem_of_bind. destruct (H f Hf) as (? & ? & ?).
  unfold touchedByReconcile in Hp.
  repeat (apply elem_of_cons in Hp as [->|Hp]; [contradiction|]).
  apply elem_of_nil in Hp. exact Hp.
Qed.

(** A [.js] file outside the list is left alone by the loop. *)
Lemma reconcile_loop_keeps_jsfile gzip hash (nonHashedFiles : list string) w w' r p :
  forEachSeries (reconcile gzip hash) nonHashedFiles w = (w', r) ->
  (forall f, f ∈ nonHashedFiles -> isJsFile f = true) ->
  isJsFile p = true -> p ∉ nonHashedFiles ->
  files w' !! p = files w !! p.
Proof.
  intros H Hjs Hp Hout. apply reconcile_loop_confined in H as [F _]. apply F.
  apply not_touchedByReconcile. intros f Hf.
  pose proof (Hjs f Hf) as [Hfjs _]%isJsFile_true.
  destruct (jsfile_not_derived p f Hp Hfjs) as (? & ? & ?).
  repeat split; [intros ->; contradiction|assumption..].
Qed.

(** So is the original of a [.js] file outside the list. *)
Lemma reconcile_loop_keeps_original gzip hash (nonHashedFiles : list string) w w' r p :
  forEachSeries (reconcile gzip hash) nonHashedFiles w = (w', r) ->
  (forall f, f ∈ nonHashedFiles -> isJsFile f = true) ->
  isJsFile p = true -> p ∉ nonHashedFiles ->
  files w' !! originalOf p = files w !! originalOf p.
Proof.
  intros H Hjs Hp Hout. apply reconcile_loop_confined in H as [F _]. apply F.
  apply not_touchedByReconcile. intros f Hf.
  pose proof (Hjs f Hf) as Hfjs.
  pose proof Hfjs as [Hfjs' _]%isJsFile_true.
  pose proof Hp as [Hp' _]%isJsFile_true.
  destruct (jsfile_not_derived f p Hfjs Hp') as (? & _ & _).
  destruct (derived_kinds_distinct p f Hp' Hfjs') as (_ & ? & _).
  repeat split; [congruence| |assumption].
  intros E%originalOf_inj; [|assumption..]. subst. contradiction.
Qed.

(** The turn of one file in a loop that ran to its end: the file was
    either skipped, or given the content of the sibling of the original
    that the hash holds for its raw content. *)
Lemma reconcile_loop_turn gzip hash (nonHashedFiles : list string) w w' jsfile :
  forEachSeries (reconcile gzip hash) nonHashedFiles w = (w', Ret tt) ->
  NoDup nonHashedFiles ->
  (forall f, f ∈ nonHashedFiles -> isJsFile f = true) ->
  jsfile ∈ nonHashedFiles ->
  exists raw,
    files w !! jsfile = Some raw
    /\ ((containsSourceMapPrefix raw = true /\ files w' !! jsfile = Some raw)
        \/ (containsSourceMapPrefix raw = false
            /\ exists sourceOrig final,
                 hash !! raw = Some sourceOrig
                 /\ files w' !! jsfile = Some final
                 /\ files w' !! originalOf jsfile = Some raw
                 /\ (isJsFile (Js.replaceFirst ".orig" "" sourceOrig) = true ->
                     Js.replaceFirst ".orig" "" sourceOrig ∉ nonHashedFiles ->
                     files w !! Js.replaceFirst ".orig" "" sourceOrig = Some final))).
Proof.
  intros H Hnd Hjs Hin.
  apply list_elem_of_split in Hin as (l1 & l2 & ->).
  apply NoDup_app in Hnd as (_ & Hl1 & [Hl2 _]%NoDup_cons).
  assert (jsfile ∉ l1) as Hnl1 by (intros Hx; apply (Hl1 _ Hx); left).
  pose proof (Hjs jsfile ltac:(set_solver)) as Hjjs.
  assert (Js.endsWith ".js" jsfile = true) as Hjjs' by (apply isJsFile_true in Hjjs; tauto).
  rewrite forEachSeries_app in H.
  destruct (forEachSeries (reconcile gzip hash) l1 w) as [w1 [[]|e|e]] eqn:E1;
    try discriminate H.
  rewrite forEachSeries_cons in H.
  destruct (reconcile gzip hash jsfile w1) as [w2 [[]|e|e]] eqn:E2;
    try discriminate H.
  assert (forall f, f ∈ l1 -> isJsFile f = true) as Hjs1 by (intros; apply Hjs; set_solver).
  assert (forall f, f ∈ l2 -> isJsFile f = true) as Hjs2 by (intros; apply Hjs; set_solver).
  pose proof (reconcile_loop_keeps_jsfile _ _ _ _ _ _ jsfile E1 Hjs1 Hjjs Hnl1) as K1.
  pose proof (reconcile_loop_keeps_jsfile _ _ _ _ _ _ jsfile H Hjs2 Hjjs Hl2) as K2.
  pose proof (reconcile_loop_keeps_original _ _ _ _ _ _ jsfile H Hjs2 Hjjs Hl2) as K2o.
  destruct (reconcile_Ret _ _ _ _ _ Hjjs' E2) as (raw & Hraw & Hcase).
  exists raw. rewrite <- K1. split; [exact Hraw|].
  destruct Hcase as [[Hc Hsame]|(Hc & O & c & HO & Hj & Ho & Hcopy)].
  - left. split; [exact Hc|]. rewrite K2, Hsame. exact Hraw.
  - right. split; [exact Hc|]. exists O, c.
    split; [exact HO|]. split; [rewrite K2; exact Hj|].
    split; [rewrite K2o; exact Ho|]. intros Hsjs Hsout.
    set (sibling := Js.replaceFirst ".orig" "" O) in *.
    assert (sibling ∉ l1) as Hs1 by set_solver.
    assert (sibling <> jsfile) as Hsj by set_solver.
    rewrite <- (reconcile_loop_keeps_jsfile _ _ _ _ _ _ sibling E1 Hjs1 Hsjs Hs1).
    apply Hcopy; [exact Hsj|]. intros E.
    apply isJsFile_true in Hsjs as [_ Hno].
    rewrite E, originalOf_endsWith in Hno by assumption. discriminate.
Qed.

(** The same for a file that was not skipped, in terms of the sibling of
    the original that the hash holds for its raw content. *)
Lemma reconciled_copy_of_sibling
    gzip origPattern finishTime (nonHashedFiles : list string) w w' jsfile raw sourceOrig :
  processNonHashedFiles gzip origPattern finishTime nonHashedFiles w = (w', Ret tt) ->
  NoDup nonHashedFiles ->
  (forall f, f ∈ nonHashedFiles -> isJsFile f = true) ->
  jsfile ∈ nonHashedFiles ->
  files w !! jsfile = Some raw ->
  containsSourceMapPrefix raw = false ->
  originalFileContentHash origPattern finishTime (files w) !! raw = Some sourceOrig ->
  isJsFile (Js.replaceFirst ".orig" "" sourceOrig) = true ->
  Js.replaceFirst ".orig" "" sourceOrig ∉ nonHashedFiles ->
  files w !! sourceOrig = Some raw
  /\ (exists final,
        files w' !! jsfile = Some final
        /\ files w' !! Js.replaceFirst ".orig" "" sourceOrig = Some final
        /\ files w !! Js.replaceFirst ".orig" "" sourceOrig = Some final)
  /\ files w' !! originalOf jsfile = Some raw
  /\ exists t, trace w' = trace w ++ t /\ Forall isReconcilerEvent t.
Proof.
  intros H Hnd Hjs Hin Hraw Hc Hh Hsjs Hsout.
  split; [apply (originalFileContentHash_lookup _ _ _ _ _ Hh)|].
  rewrite processNonHashedFiles_eq in H.
  pose proof (reconcile_loop_confined _ _ _ _ _ _ H) as [_ Ht].
  pose proof (reconcile_loop_keeps_jsfile _ _ _ _ _ _ _ H Hjs Hsjs Hsout) as Hsib.
  destruct (reconcile_loop_turn _ _ _ _ _ _ H Hnd Hjs Hin) as (raw' & Hraw' & Hcase).
  rewrite Hraw in Hraw'. injection Hraw' as <-.
  destruct Hcase as [[Hc' _]|(_ & O & final & HO & Hj & Ho & Hcopy)]; [congruence|].
  rewrite Hh in HO. injection HO as <-.
  split; [|split; [exact Ho|exact Ht]].
  exists final. rewrite Hsib. auto.
Qed.

(** ** Errors in the queue *)

(** With a minifier that does not throw, [enqueue] always reports to its
    callback, and an error it reports has just been logged. *)
Lemma enqueue_reports minify gzipBytes gzip jsfile w :
  (forall path source url, minify path source url <> None) ->
  exists w',
    enqueue minify gzipBytes gzip jsfile w = (w', Ret tt)
    \/ exists e t,
         enqueue minify gzipBytes gzip jsfile w = (w', Err e)
         /\ trace w' = t ++ [LogErrorProcessing jsfile e].
Proof.
  intros Htotal. unfold enqueue, enqueueWaterfall.
  destruct (files w !! jsfile) as [source|] eqn:Hf.
  2:{ erewrite bind_Err by (apply raise_missing; assumption).
      eexists. right. eexists _, _. split; reflexivity. }
  destruct (containsSourceMapPrefix source) eqn:Hc.
  { erewrite bind_Err by (eapply raise_skip; eassumption). eauto. }
  erewrite bind_Ret by (eapply raise_go; eassumption).
  unfold mbind, M_bind, rename, uglifyMinify, writeFile, gzipFile.
  cbn [files trace]. rewrite Hf. cbn [files trace]. rewrite lookup_insert_eq.
  destruct (minify (originalOf jsfile) source (sourceMapUrlOf jsfile)) as [u|] eqn:Hu;
    [|destruct (Htotal _ _ _ Hu)].
  cbn [files trace]. destruct gzip; [|eauto].
  destruct (decide (sourcemapOf jsfile = jsfile)) as [->|Hne].
  - rewrite lookup_insert_eq. eauto.
  - rewrite lookup_insert_ne, lookup_insert_eq by assumption. eauto.
Qed.

Lemma drainQueue_trace_grows minify gzipBytes gzip tasks w w' r :
  drainQueue minify gzipBytes gzip tasks w = (w', r) ->
  exists t, trace w' = trace w ++ t.
Proof.
  intros H.
  apply (respects_drainQueue (confined (tasks ≫= touchedByEnqueue) (fun _ => True)))
    in H as [_ (t & Et & _)]; [eauto|].
  intros jsfile Hin. eapply respects_mono; [|apply enqueue_confined].
  intros v v'. apply confined_mono; [|auto].
  intros p Hp. apply list_elem_of_bind. eauto.
Qed.

Lemma drainQueue_reports minify gzipBytes gzip tasks w :
  (forall path source url, minify path source url <> None) ->
  exists w' outcomes,
    drainQueue minify gzipBytes gzip tasks w = (w', Ret outcomes)
    /\ length outcomes = length tasks
    /\ forall i jsfile e,
         tasks !! i = Some jsfile -> outcomes !! i = Some (Some e) ->
         LogErrorProcessing jsfile e ∈ trace w'.
Proof.
  intros Htotal. revert w. induction tasks as [|x tasks IH]; intros w.
  - exists w, []. split; [reflexivity|]. split; [reflexivity|]. intros i ? ? [=].
  - cbn [drainQueue].
    destruct (enqueue_reports minify gzipBytes gzip x w Htotal)
      as (w1 & [E|(e & t & E & Et)]); rewrite E;
      destruct (IH w1) as (w' & outcomes & Hq & Hlen & Hlog);
      unfold mbind, M_bind; rewrite Hq; eexists _, _; (split; [reflexivity|]);
      (split; [simpl; rewrite Hlen; reflexivity|]).
    + intros [|i] jsfile e' Hi Ho; [discriminate Ho|]. eapply Hlog; eassumption.
    + intros [|i] jsfile e' Hi Ho.
      * injection Hi as <-. injection Ho as <-.
        destruct (drainQueue_trace_grows _ _ _ _ _ _ _ Hq) as [t' ->].
        rewrite Et. set_solver.
      * eapply Hlog; eassumption.
Qed.

(** ** Two runs in a row *)

Lemma occursIn_orig_suffix p : Js.endsWith ".orig.js" p = true -> occursIn ".orig" p.
Proof. intros [b ->]%endsWith_true. exists b, ".js". reflexivity. Qed.

Lemma has_marker_app body jsfile :
  containsSourceMapPrefix (body +:+ sourceMapTextOf jsfile) = true.
Proof.
  apply containsSourceMapPrefix_spec. exists body, (sourceMapUrlOf jsfile). reflexivity.
Qed.

(** The turn of an existing [.js] file in the queue: unless the minifier
    throws, the file ends up carrying the marker. *)
Lemma enqueue_turn minify gzipBytes gzip jsfile w w' r :
  Js.endsWith ".js" jsfile = true ->
  is_Some (files w !! jsfile) ->
  enqueue minify gzipBytes gzip jsfile w = (w', r) ->
  (r = Ret tt /\ exists c, files w' !! jsfile = Some c
                           /\ containsSourceMapPrefix c = true)
  \/ exists e, r = Throw e.
Proof.
  intros Hjs [source Hf] H. unfold enqueue in H.
  destruct (containsSourceMapPrefix source) eqn:Hc.
  - rewrite (enqueue_skips _ _ _ _ _ _ Hf Hc) in H. injection H as <- <-.
    left. split; [reflexivity|]. eauto.
  - destruct (minify (originalOf jsfile) source (sourceMapUrlOf jsfile)) as [u|] eqn:Hu.
    + rewrite (enqueueWaterfall_processes _ _ _ _ _ _ _ Hjs Hf Hc Hu) in H.
      injection H as <- <-. left. split; [reflexivity|].
      destruct (derived_paths_distinct jsfile Hjs) as (? & ? & ? & _).
      exists (rewritePaths (code u) +:+ sourceMapTextOf jsfile).
      split; [|apply has_marker_app].
      cbn [files]. unfold processedFiles. destruct gzip.
      * rewrite !lookup_insert_ne, lookup_insert_eq by congruence. reflexivity.
      * rewrite lookup_insert_ne, lookup_insert_eq by congruence. reflexivity.
    + right. unfold enqueueWaterfall in H.
      erewrite bind_Ret in H by (eapply raise_go; eassumption).
      unfold mbind, M_bind, rename, uglifyMinify in H. cbn [files trace] in H.
      rewrite Hf in H. cbn [files trace] in H. rewrite lookup_insert_eq, Hu in H.
      injection H as _ <-. eauto.
Qed.

Lemma drainQueue_confined minify gzipBytes gzip (tasks : list string) :
  respects (confined (tasks ≫= touchedByEnqueue) (fun _ => True))
           (drainQueue minify gzipBytes gzip tasks).
Proof.
  apply respects_drainQueue; [apply _|]. intros jsfile Hin.
  eapply respects_mono; [|apply enqueue_confined].
  intros v v'. apply confined_mono; [|auto].
  intros p Hp. apply list_elem_of_bind. eauto.
Qed.

Lemma not_touchedByEnqueue p (tasks : list string) :
  (forall f, f ∈ tasks ->
             p <> f /\ p <> originalOf f /\ p <> sourcemapOf f /\ p <> gzippedOf f) ->
  p ∉ tasks ≫= touchedByEnqueue.
Proof.
  intros H (f & Hp & Hf)%list_elem_of_bind. destruct (H f Hf) as (? & ? & ? & ?).
  unfold touchedByEnqueue in Hp.
  repeat (apply elem_of_cons in Hp as [->|Hp]; [contradiction|]).
  apply elem_of_nil in Hp. exact Hp.
Qed.

(** A [.js] file outside the queue is left alone by it. *)
Lemma drainQueue_keeps_jsfile minify gzipBytes gzip (tasks : list string) w w' r p :
  drainQueue minify gzipBytes gzip tasks w = (w', r) ->
  (forall f, f ∈ tasks -> isJsFile f = true) ->
  isJsFile p = true -> p ∉ tasks ->
  files w' !! p = files w !! p.
Proof.
  intros H Hjs Hp Hout. apply drainQueue_confined in H as [F _]. apply F.
  apply not_touchedByEnqueue. intros f Hf.
  pose proof (Hjs f Hf) as [Hfjs _]%isJsFile_true.
  destruct (jsfile_not_derived p f Hp Hfjs) as (? & ? & ?).
  repeat split; [intros ->; contradiction|assumption..].
Qed.

(** After a queue that did not throw, every task carries the marker. *)
Lemma drainQueue_markers minify gzipBytes gzip (tasks : list string) w w' outcomes :
  NoDup tasks ->
  (forall f, f ∈ tasks -> isJsFile f = true) ->
  (forall f, f ∈ tasks -> is_Some (files w !! f)) ->
  drainQueue minify gzipBytes gzip tasks w = (w', Ret outcomes) ->
  forall f, f ∈ tasks ->
            exists c, files w' !! f = Some c /\ containsSourceMapPrefix c = true.
Proof.
  revert w outcomes. induction tasks as [|x tasks IH];
    intros w outcomes Hnd Hjs Hex H f Hf; [set_solver|].
  apply NoDup_cons in Hnd as [Hx Hnd].
  pose proof (Hjs x ltac:(left)) as Hxjs.
  assert (Js.endsWith ".js" x = true) as Hxjs' by (apply isJsFile_true in Hxjs; tauto).
  assert (forall g, g ∈ tasks -> isJsFile g = true) as Hjs'
    by (intros; apply Hjs; right; assumption).
  cbn [drainQueue] in H.
  destruct (enqueue minify gzipBytes gzip x w) as [w1 r1] eqn:E.
  destruct (enqueue_turn _ _ _ _ _ _ _ Hxjs' (Hex x ltac:(left)) E)
    as [[-> (c & Hc & Hm)]|[e ->]]; [|discriminate H].
  unfold mbind, M_bind in H.
  destruct (drainQueue minify gzipBytes gzip tasks w1) as [w2 [outs|e|e]] eqn:E2;
    try discriminate H.
  injection H as <- _.
  assert (forall g, g ∈ tasks -> is_Some (files w1 !! g)) as Hex1.
  { intros g Hg. apply enqueue_confined in E as [F _]. rewrite F.
    - apply Hex. right. exact Hg.
    - pose proof (Hjs' g Hg) as Hgjs.
      destruct (jsfile_not_derived g x Hgjs Hxjs') as (? & ? & ?).
      assert (g <> x) by (intros ->; contradiction).
      unfold touchedByEnqueue. intros Hin.
      repeat (apply elem_of_cons in Hin as [->|Hin]; [contradiction|]).
      apply elem_of_nil in Hin. exact Hin. }
  apply elem_of_cons in Hf as [->|Hf].
  - exists c. split; [|exact Hm].
    rewrite (drainQueue_keeps_jsfile _ _ _ _ _ _ _ x E2 Hjs' Hxjs Hx). exact Hc.
  - eapply IH; eassumption.
Qed.

(** Files that all carry the marker go through the queue and through the
    reconciler untouched, each with one informational log line. *)
Lemma drainQueue_all_skip minify gzipBytes gzip (tasks : list string) w :
  (forall f, f ∈ tasks ->
             exists c, files w !! f = Some c /\ containsSourceMapPrefix c = true) ->
  drainQueue minify gzipBytes gzip tasks w
  = (World (files w) (trace w ++ (LogSkipping <$> tasks)), Ret ((fun _ => None) <$> tasks)).
Proof.
  revert w. induction tasks as [|x tasks IH]; intros w Hm.
  - cbn. rewrite app_nil_r. destruct w; reflexivity.
  - destruct (Hm x ltac:(left)) as (c & Hf & Hc). cbn [drainQueue].
    unfold enqueue. rewrite (enqueue_skips _ _ _ _ _ _ Hf Hc).
    unfold mbind, M_bind. rewrite IH.
    + cbn [files trace fmap list_fmap]. rewrite <- (assoc_L (++)). reflexivity.
    + intros f Hin. cbn [files]. apply Hm. right. exact Hin.
Qed.

Lemma reconcile_all_skip gzip hash (nonHashedFiles : list string) w :
  (forall f, f ∈ nonHashedFiles ->
             exists c, files w !! f = Some c /\ containsSourceMapPrefix c = true) ->
  forEachSeries (reconcile gzip hash) nonHashedFiles w
  = (World (files w) (trace w ++ (LogSkipping <$> nonHashedFiles)), Ret tt).
Proof.
  revert w. induction nonHashedFiles as [|x l IH]; intros w Hm.
  - cbn. rewrite app_nil_r. destruct w; reflexivity.
  - destruct (Hm x ltac:(left)) as (c & Hf & Hc). rewrite forEachSeries_cons.
    unfold reconcile. rewrite (reconcile_skips _ _ _ _ _ Hf Hc). rewrite IH.
    + cbn [files trace fmap list_fmap]. rewrite <- (assoc_L (++)). reflexivity.
    + intros f Hin. cbn [files]. apply Hm. right. exact Hin.
Qed.

Lemma endsWith_orig_js p : Js.endsWith ".orig.js" p = true -> Js.endsWith ".js" p = true.
Proof.
  intros [b ->]%endsWith_true. apply endsWith_true. exists (b +:+ ".orig").
  rewrite sapp_assoc. reflexivity.
Qed.

Section Listing.

Variable jsPattern : string -> bool.

Lemma jsfilesOf_spec (fs : gmap string string) p :
  p ∈ jsfilesOf jsPattern fs
  <-> is_Some (fs !! p) /\ jsPattern p = true /\ isJsFile p = true.
Proof.
  unfold jsfilesOf. rewrite list_elem_of_filter, glob_spec. tauto.
Qed.

Lemma hashedFilesOf_spec (fs : gmap string string) p :
  p ∈ hashedFilesOf jsPattern fs <-> p ∈ jsfilesOf jsPattern fs /\ isHashed p = true.
Proof. unfold hashedFilesOf. rewrite list_elem_of_filter. tauto. Qed.

Lemma nonHashedFilesOf_spec (fs : gmap string string) p :
  p ∈ nonHashedFilesOf jsPattern fs <-> p ∈ jsfilesOf jsPattern fs /\ isHashed p <> true.
Proof. unfold nonHashedFilesOf. rewrite list_elem_of_filter. tauto. Qed.

Lemma jsfilesOf_split (fs : gmap string string) p :
  p ∈ jsfilesOf jsPattern fs ->
  p ∈ hashedFilesOf jsPattern fs \/ p ∈ nonHashedFilesOf jsPattern fs.
Proof.
  intros H. rewrite hashedFilesOf_spec, nonHashedFilesOf_spec.
  destruct (isHashed p); [left|right]; auto.
Qed.

Lemma hashedFilesOf_NoDup (fs : gmap string string) : NoDup (hashedFilesOf jsPattern fs).
Proof. apply NoDup_filter, NoDup_filter, glob_NoDup. Qed.

Lemma nonHashedFilesOf_NoDup (fs : gmap string string) :
  NoDup (nonHashedFilesOf jsPattern fs).
Proof. apply NoDup_filter, NoDup_filter, glob_NoDup. Qed.

End Listing.

Lemma run_all_skip minify gzipBytes gzip jsPattern origPattern finishTime (fs : gmap string string) :
  (forall p, p ∈ jsfilesOf jsPattern fs ->
             exists c, fs !! p = Some c /\ containsSourceMapPrefix c = true) ->
  run minify gzipBytes gzip jsPattern origPattern finishTime (World fs [])
  = (World fs (skipTrace (hashedFilesOf jsPattern fs) (nonHashedFilesOf jsPattern fs)),
     Ret tt).
Proof.
  intros Hm. unfold run, skipTrace. cbn [files].
  destruct (hashedFilesOf jsPattern fs) as [|x xs] eqn:Eh; [reflexivity|].
  rewrite <- Eh. unfold mbind, M_bind.
  rewrite drainQueue_all_skip.
  2:{ intros f Hf. apply Hm. apply hashedFilesOf_spec in Hf. tauto. }
  unfold onQueueDrain. rewrite processNonHashedFiles_eq. cbn [files trace].
  rewrite reconcile_all_skip.
  2:{ intros f Hf. apply Hm. apply nonHashedFilesOf_spec in Hf. tauto. }
  unfold emit. cbn [files trace app]. rewrite <- (assoc_L (++)). reflexivity.
Qed.

(** After a first run that ended normally on a directory without [.orig]
    in any path, every listed file carries the marker. *)
Lemma first_run_markers minify gzipBytes gzip jsPattern origPattern finishTime
    (fs0 : gmap string string) w1 :
  (forall p, is_Some (fs0 !! p) -> ~ occursIn ".orig" p) ->
  (forall p, origPattern p = true -> Js.endsWith ".orig.js" p = true) ->
  hashedFilesOf jsPattern fs0 <> [] ->
  run minify gzipBytes gzip jsPattern origPattern finishTime (World fs0 []) = (w1, Ret tt) ->
  forall p, p ∈ jsfilesOf jsPattern (files w1) ->
            exists c, files w1 !! p = Some c /\ containsSourceMapPrefix c = true.
Proof.
  intros Hfresh Horig Hne Hrun.
  set (Hs := hashedFilesOf jsPattern fs0) in *.
  set (Ns := nonHashedFilesOf jsPattern fs0) in *.
  assert (forall f, f ∈ Hs -> isJsFile f = true /\ is_Some (fs0 !! f) /\ isHashed f = true)
    as HHs.
  { intros f [Hf ?]%hashedFilesOf_spec. apply jsfilesOf_spec in Hf. tauto. }
  assert (forall f, f ∈ Ns -> isJsFile f = true /\ is_Some (fs0 !! f) /\ isHashed f <> true)
    as HNs.
  { intros f [Hf ?]%nonHashedFilesOf_spec. apply jsfilesOf_spec in Hf. tauto. }
  assert (forall f, f ∈ Hs -> f ∉ Ns) as Hdisj.
  { intros f Hf Hf'. apply HHs in Hf. apply HNs in Hf'. tauto. }
  unfold run in Hrun. cbn [files] in Hrun. fold Hs Ns in Hrun.
  destruct Hs as [|x xs] eqn:EHs; [contradiction|]. rewrite <- EHs in *. clear Hne.
  unfold mbind, M_bind in Hrun.
  destruct (drainQueue minify gzipBytes gzip Hs (World fs0 [])) as [wq [outs|e|e]] eqn:Eq;
    try discriminate Hrun.
  unfold onQueueDrain in Hrun. rewrite processNonHashedFiles_eq in Hrun.
  set (hash := originalFileContentHash origPattern finishTime (files wq)) in *.
  destruct (forEachSeries (reconcile gzip hash) Ns wq) as [w1' [[]|e|e]] eqn:Er;
    try discriminate Hrun.
  injection Hrun as <-. cbn [files].
  (* the queue *)
  assert (forall f, f ∈ Hs -> exists c, files wq !! f = Some c
                                        /\ containsSourceMapPrefix c = true) as Mq.
  { eapply drainQueue_markers; [apply hashedFilesOf_NoDup| | |exact Eq].
    - intros f Hf. apply HHs, Hf.
    - intros f Hf. apply HHs, Hf. }
  (* the entries of the hash are originals of fingerprinted files *)
  assert (forall raw O, hash !! raw = Some O ->
                        exists X, X ∈ Hs /\ Js.replaceFirst ".orig" "" O = X) as Hhash.
  { intros raw O [HpO HfO]%originalFileContentHash_lookup.
    apply Horig in HpO.
    destruct (decide (O ∈ Hs ≫= touchedByEnqueue)) as [Hin|Hout].
    - apply list_elem_of_bind in Hin as (X & HO & HX). exists X. split; [exact HX|].
      destruct (HHs X HX) as (HXjs & HXex & _).
      pose proof HXjs as [HXjs' HXno]%isJsFile_true.
      unfold touchedByEnqueue in HO.
      apply elem_of_cons in HO as [->|HO]; [congruence|].
      apply elem_of_cons in HO as [->|HO];
        [apply sibling_of_original; [exact HXjs'|apply Hfresh, HXex]|].
      exfalso. apply endsWith_orig_js, lastChar_js in HpO.
      apply elem_of_cons in HO as [->|HO];
        [rewrite lastChar_sourcemapOf in HpO by assumption; discriminate|].
      apply elem_of_cons in HO as [->|HO];
        [rewrite lastChar_gzippedOf in HpO by assumption; discriminate|].
      set_solver.
    - exfalso. apply drainQueue_confined in Eq as [F _].
      rewrite (F O Hout) in HfO. cbn [files] in HfO.
      apply (Hfresh O); [eauto|]. apply occursIn_orig_suffix, HpO. }
  (* the reconciler *)
  assert (forall f, f ∈ Ns -> isJsFile f = true) as HNjs by (intros; apply HNs; assumption).
  assert (forall f, f ∈ Ns -> exists c, files w1' !! f = Some c
                                        /\ containsSourceMapPrefix c = true) as Mn.
  { intros f Hf.
    destruct (reconcile_loop_turn _ _ _ _ _ _ Er (nonHashedFilesOf_NoDup _ _) HNjs Hf)
      as (raw & Hraw & [[Hc Hsame]|(Hc & O & final & HO & Hfin & _ & Hcopy)]); [eauto|].
    destruct (Hhash _ _ HO) as (X & HX & EX). rewrite EX in Hcopy.
    destruct (Mq X HX) as (c & HcX & Hm).
    rewrite Hcopy in HcX; [|apply HHs, HX|apply Hdisj, HX].
    injection HcX as ->. eauto. }
  assert (forall f, f ∈ Hs -> exists c, files w1' !! f = Some c
                                        /\ containsSourceMapPrefix c = true) as Mh.
  { intros f Hf.
    rewrite (reconcile_loop_keeps_jsfile _ _ _ _ _ _ f Er HNjs);
      [apply Mq, Hf|apply HHs, Hf|apply Hdisj, Hf]. }
  (* the listing of the second run *)
  intros p Hp. apply jsfilesOf_spec in Hp as (Hex & Hpat & Hjs).
  destruct (decide (p ∈ Hs)) as [|HnH]; [apply Mh; assumption|].
  destruct (decide (p ∈ Ns)) as [|HnN]; [apply Mn; assumption|].
  exfalso.
  rewrite (reconcile_loop_keeps_jsfile _ _ _ _ _ _ p Er HNjs Hjs HnN) in Hex.
  rewrite (drainQueue_keeps_jsfile _ _ _ _ _ _ _ p Eq) in Hex;
    [|intros f Hf; apply HHs, Hf|exact Hjs|exact HnH].
  cbn [files] in Hex.
  destruct (jsfilesOf_split jsPattern fs0 p) as [|]; [|contradiction..].
  apply jsfilesOf_spec. auto.
Qed.

(** C2, as the code has it. Take an assets directory in which no path
    contains [.orig] (no originals of an earlier run) and let the first run
    end normally: no uncaught error from the minifier or from the
    reconciler. Then in a second run on its output every file visited
    takes the AlreadyProcessed branch: the files are left exactly as they
    were and the only effects are the informational log lines, so nothing
    is minified, renamed, written, gzipped or copied, in whatever order the
    reads of the originals complete in either run. (With no fingerprinted
    file at all the queue never drains and neither run visits any file.) *)
Theorem C2_second_run_skips minify gzipBytes gzip jsPattern origPattern
    finishTime finishTime' (fs0 : gmap string string) w1 :
  (forall p, is_Some (fs0 !! p) -> ~ occursIn ".orig" p) ->
  (forall p, origPattern p = true -> Js.endsWith ".orig.js" p = true) ->
  run minify gzipBytes gzip jsPattern origPattern finishTime (World fs0 []) = (w1, Ret tt) ->
  run minify gzipBytes gzip jsPattern origPattern finishTime' (World (files w1) [])
  = (World (files w1)
           (skipTrace (hashedFilesOf jsPattern (files w1))
                      (nonHashedFilesOf jsPattern (files w1))),
     Ret tt).
Proof.
  intros Hfresh Horig Hrun.
  destruct (hashedFilesOf jsPattern fs0) as [|x xs] eqn:Eh.
  - unfold run in Hrun. cbn [files] in Hrun. rewrite Eh in Hrun. injection Hrun as <-.
    unfold run, skipTrace. cbn [files]. rewrite Eh. reflexivity.
  - apply run_all_skip.
    eapply first_run_markers; [exact Hfresh|exact Horig| |exact Hrun].
    rewrite Eh. discriminate.
Qed.

(** ** The claims on the sample directory *)

Lemma sample_not_occurs needle s :
  Js.indexOf needle s = (-1)%Z -> ~ occursIn needle s.
Proof. intros E H%indexOf_nonneg. rewrite E in H. lia. Qed.

(** C2 fails as stated, in two ways. In [fsLone], [about.js] matches no
    original, so the second run reports the same error for it again instead
    of skipping it. In [fsStale] (gzip off) the first run ends normally but
    gives [app.js] the still raw content of [x.js], the sibling of the
    original left over; the second run then finds [app.js] without the
    marker, renames it and copies again, and its content changes. *)
Lemma C2_second_run_fails_again :
  (let w1 := (Sample.run (World Sample.fsLone [])).1 in
   let r2 := Sample.run (World (files w1) []) in
   Sample.about ∈ nonHashedFilesOf Sample.jsPattern (files w1)
   /\ r2.2 = Throw (Error "Could not find original hashed file for: ./public/assets/about.js")
   /\ trace r2.1 = [LogSkipping Sample.hashed; LogGenerating Sample.about]
   /\ files r2.1 = files w1)
  /\ (let r1 := Sample.runNoGzip (World Sample.fsStale []) in
      let r2 := Sample.runNoGzip (World (files r1.1) []) in
      r1.2 = Ret tt /\ r2.2 = Ret tt
      /\ files r1.1 !! Sample.alias = Some "var a = 1;"
      /\ files r2.1 !! Sample.alias <> files r1.1 !! Sample.alias
      /\ Renamed Sample.alias (originalOf Sample.alias) ∈ trace r2.1).
Proof.
  cbv zeta. split; [split; [|split; [|split]]|split; [|split; [|split; [|split]]]].
  - vm_compute. left.
  - vm_compute. reflexivity.
  - vm_compute. reflexivity.
  - vm_compute. reflexivity.
  - vm_compute. reflexivity.
  - vm_compute. reflexivity.
  - vm_compute. reflexivity.
  - vm_compute. discriminate.
  - vm_compute. do 3 right. left.
Qed.

Lemma sample_fsPair_fresh p : is_Some (Sample.fsPair !! p) -> ~ occursIn ".orig" p.
Proof.
  unfold Sample.fsPair. intros [c Hp].
  destruct (decide (p = Sample.hashed)) as [->|?];
    [apply sample_not_occurs; vm_compute; reflexivity|].
  destruct (decide (p = Sample.alias)) as [->|?];
    [apply sample_not_occurs; vm_compute; reflexivity|].
  rewrite !lookup_insert_ne, lookup_empty in Hp by congruence. discriminate Hp.
Qed.

Lemma sample_origPattern p :
  Sample.origPattern p = true -> Js.endsWith ".orig.js" p = true.
Proof. unfold Sample.origPattern. intros [_ H]%andb_true_iff. exact H. Qed.

Lemma C2_second_run_skips_witness :
  let w1 := (Sample.run (World Sample.fsPair [])).1 in
  run Sample.minify Sample.gzipBytes true Sample.jsPattern Sample.origPattern
      Sample.twinFirst (World (files w1) [])
  = (World (files w1) [LogSkipping Sample.hashed; LogSkipping Sample.alias; LogAllProcessed],
     Ret tt).
Proof.
  cbv zeta. unfold Sample.run.
  rewrite (C2_second_run_skips Sample.minify Sample.gzipBytes true
             Sample.jsPattern Sample.origPattern Sample.finishTime Sample.twinFirst
             Sample.fsPair
             (run Sample.minify Sample.gzipBytes true Sample.jsPattern
                  Sample.origPattern Sample.finishTime (World Sample.fsPair [])).1
             sample_fsPair_fresh sample_origPattern).
  - vm_compute. reflexivity.
  - vm_compute. reflexivity.
Defined.

Lemma C3_already_processed_witness :
  let w := (Sample.run (World Sample.fsPair [])).1 in
  enqueueWaterfall Sample.minify Sample.gzipBytes true Sample.hashed w
  = (World (files w) (trace w ++ [LogSkipping Sample.hashed]), Err AlreadyProcessedError)
  /\ enqueue Sample.minify Sample.gzipBytes true Sample.hashed w
     = (World (files w) (trace w ++ [LogSkipping Sample.hashed]), Ret tt).
Proof.
  cbv zeta.
  apply (C3_already_processed_no_side_effects _ _ _ _ _
           ("min:var a = 1;" +:+ sourceMapTextOf Sample.hashed)
           (sourceMapUrlOf Sample.hashed)).
  - vm_compute. reflexivity.
  - exists "min:var a = 1;", "". vm_compute. reflexivity.
Defined.

Lemma sample_not_joinsPublic : ~ joinsPublic "load('./public/assets/foo.js')".
Proof.
  intros (m & Hm & H). unfold matchForms in Hm.
  repeat (apply elem_of_cons in Hm as [->|Hm];
          [destruct H as [H|H]; revert H; apply sample_not_occurs;
           vm_compute; reflexivity|]).
  apply elem_of_nil in Hm. exact Hm.
Qed.


Lemma sample_minify_total path source url : Sample.minify path source url <> None.
Proof. discriminate. Qed.

(** A content that names a member of [Object.prototype] is not a miss for
    the object used as hash: the file is renamed and the call of [replace]
    on the inherited member then throws. *)
Lemma inherited_member_is_not_a_miss :
  let r := Sample.run (World Sample.fsProto []) in
  r.2 = Throw (TypeError "sourceOrig.replace is not a function")
  /\ files r.1 !! Sample.alias = None
  /\ files r.1 !! originalOf Sample.alias = Some "constructor".
Proof. cbv zeta. repeat split; vm_compute; reflexivity. Qed.

(** C7 fails as stated: the miss on [about.js] does not abort that file
    alone. [app.js], whose content the hash does hold, is never visited. *)
Lemma C7_miss_aborts_later_files :
  let w := Sample.afterQueue Sample.fsMiss in
  let r := processNonHashedFiles true Sample.origPattern Sample.finishTime [Sample.about; Sample.alias] w in
  r.2 = Err (Error "Could not find original hashed file for: ./public/assets/about.js")
  /\ originalFileContentHash Sample.origPattern Sample.finishTime (files w) !! "var a = 1;"
     = Some (originalOf Sample.hashed)
  /\ files w !! Sample.alias = Some "var a = 1;"
  /\ files r.1 !! Sample.alias = Some "var a = 1;"
  /\ (processNonHashedFiles true Sample.origPattern Sample.finishTime [Sample.alias] w).2 = Ret tt.
Proof.
  cbv zeta. repeat split; vm_compute; reflexivity.
Qed.

Lemma C7_no_match_named_error_witness :
  let w := Sample.afterQueue Sample.fsMiss in
  let err := Error "Could not find original hashed file for: ./public/assets/about.js" in
  let w2 := World (files w) (trace w ++ [LogGenerating Sample.about]) in
  processNonHashedFiles true Sample.origPattern Sample.finishTime ([] ++ Sample.about :: [Sample.alias]) w
  = (w2, Err err)
  /\ onQueueDrain true Sample.origPattern Sample.finishTime ([] ++ Sample.about :: [Sample.alias]) w
     = (w2, Throw err).
Proof.
  cbv zeta.
  apply (C7_no_match_named_error true Sample.origPattern Sample.finishTime
           (Sample.afterQueue Sample.fsMiss) (Sample.afterQueue Sample.fsMiss)
           [] Sample.about [Sample.alias] "var b = 2;").
  - reflexivity.
  - vm_compute. reflexivity.
  - vm_compute. reflexivity.
  - vm_compute. reflexivity.
  - unfold objectPrototypeMembers. intros H.
    repeat (apply elem_of_cons in H as [H|H]; [discriminate H|]).
    apply elem_of_nil in H. exact H.
Defined.

Lemma C10_prefix_anywhere_witness :
  let w := World {["./public/assets/vendor.js" :=
                    "var v;" +:+ sourceMapPrefix +:+ "vendor.map"]} [] in
  (forall c, containsSourceMapPrefix c = true <-> occursIn sourceMapPrefix c)
  /\ enqueue Sample.minify Sample.gzipBytes true "./public/assets/vendor.js" w
     = (World (files w) (trace w ++ [LogSkipping "./public/assets/vendor.js"]), Ret tt)
  /\ reconcile true ∅ "./public/assets/vendor.js" w
     = (World (files w) (trace w ++ [LogSkipping "./public/assets/vendor.js"]), Ret tt).
Proof.
  cbv zeta.
  apply (C10_prefix_anywhere_skips_both _ _ _ _ _ _
           ("var v;" +:+ sourceMapPrefix +:+ "vendor.map")).
  - vm_compute. reflexivity.
  - exists "var v;", "vendor.map". reflexivity.
Defined.

(** * Further properties of the script *)

(** ** The assets path and the site path of the map *)

Lemma stripTrailingSlash_slash r : Js.stripTrailingSlash (r +:+ "/") = r.
Proof.
  unfold Js.stripTrailingSlash.
  rewrite (proj2 (stripSuffix_Some "/" (r +:+ "/") r) eq_refl). reflexivity.
Qed.

Lemma stripTrailingSlash_other r :
  Js.endsWith "/" r = false -> Js.stripTrailingSlash r = r.
Proof.
  unfold Js.stripTrailingSlash, Js.endsWith.
  destruct (Js.stripSuffix "/" r); [discriminate|reflexivity].
Qed.

(** The anchored pattern of line 108 removes nothing from a path that
    begins with neither [./public/] nor [public/]. *)
Lemma sourceMapUrlOf_unanchored jsfile :
  Js.endsWith ".js" jsfile = true ->
  Js.startsWith "./public/" jsfile = false -> Js.startsWith "public/" jsfile = false ->
  sourceMapUrlOf jsfile = "/" +:+ jsfile +:+ ".map".
Proof.
  intros Hjs H1 H2. unfold sourceMapUrlOf. rewrite sourcemapOf_js by assumption.
  unfold Js.toSitePath, Js.stripPublic.
  destruct (Js.stripPrefix "./public/" (jsfile +:+ ".map")) as [r|] eqn:E1.
  { apply stripPrefix_Some in E1.
    apply endsWith_true in Hjs as [b ->]. rewrite sapp_assoc in E1.
    assert (Js.startsWith "./public/" (b +:+ ".js") = true); [|congruence].
    apply startsWith_true.
    destruct b as [|c0 [|c1 [|c2 [|c3 [|c4 [|c5 [|c6 [|c7 [|c8 b]]]]]]]]];
      rewrite ?sapp_cons, ?sapp_nil_l in E1; try discriminate E1.
    injection E1 as -> -> -> -> -> -> -> -> -> _. eexists. reflexivity. }
  destruct (Js.stripPrefix "public/" (jsfile +:+ ".map")) as [r|] eqn:E2.
  { apply stripPrefix_Some in E2.
    apply endsWith_true in Hjs as [b ->]. rewrite sapp_assoc in E2.
    assert (Js.startsWith "public/" (b +:+ ".js") = true); [|congruence].
    apply startsWith_true.
    destruct b as [|c0 [|c1 [|c2 [|c3 [|c4 [|c5 [|c6 b]]]]]]];
      rewrite ?sapp_cons, ?sapp_nil_l in E2; try discriminate E2.
    injection E2 as -> -> -> -> -> -> -> _. eexists. reflexivity. }
  reflexivity.
Qed.

(** X1. The assets directory is the root given on the command line, less
    one trailing slash, followed by [/public/] and the assets folder. For a
    file [name.js] directly under it, the map path written into the marker
    is the site path [/folder/name.js.map] when the root is [.] or [./];
    when the root is an absolute path the marker holds [/] followed by
    the whole file-system path of the map, because line 108 strips
    [./public/] or [public/] only at the very start of the path. *)
Theorem site_url_depends_on_root folder name :
  let jsfile root := assetsPath root folder +:+ "/" +:+ name +:+ ".js" in
  (forall root, Js.endsWith "/" root = false ->
                assetsPath (root +:+ "/") folder = assetsPath root folder
                /\ assetsPath root folder = root +:+ "/public/" +:+ folder)
  /\ sourceMapUrlOf (jsfile ".") = "/" +:+ folder +:+ "/" +:+ name +:+ ".js.map"
  /\ sourceMapUrlOf (jsfile "./") = "/" +:+ folder +:+ "/" +:+ name +:+ ".js.map"
  /\ (forall r, sourceMapUrlOf (jsfile ("/" +:+ r))
                = "/" +:+ jsfile ("/" +:+ r) +:+ ".map"
                /\ Js.startsWith "/" (jsfile ("/" +:+ r)) = true).
Proof.
  intros jsfile.
  assert (forall root, Js.endsWith ".js" (jsfile root) = true) as Hjs.
  { intros root. apply endsWith_true. unfold jsfile.
    exists (assetsPath root folder +:+ "/" +:+ name). rewrite !sapp_assoc. reflexivity. }
  assert (forall rest, sourceMapUrlOf ("./public/" +:+ rest +:+ ".js")
                       = "/" +:+ rest +:+ ".js.map") as Hdot.
  { intros rest. unfold sourceMapUrlOf. rewrite sourcemapOf_js.
    - rewrite !sapp_assoc. reflexivity.
    - apply endsWith_true. exists ("./public/" +:+ rest). rewrite sapp_assoc. reflexivity. }
  split; [|split; [|split]].
  - intros root Hroot. unfold assetsPath.
    rewrite stripTrailingSlash_slash, stripTrailingSlash_other by assumption. auto.
  - unfold jsfile, assetsPath. change (Js.stripTrailingSlash ".") with ".".
    replace (("." +:+ "/public/" +:+ folder) +:+ "/" +:+ name +:+ ".js")
      with ("./public/" +:+ (folder +:+ "/" +:+ name) +:+ ".js")
      by (rewrite !sapp_assoc; reflexivity).
    rewrite Hdot, !sapp_assoc. reflexivity.
  - unfold jsfile, assetsPath. change (Js.stripTrailingSlash "./") with ".".
    replace (("." +:+ "/public/" +:+ folder) +:+ "/" +:+ name +:+ ".js")
      with ("./public/" +:+ (folder +:+ "/" +:+ name) +:+ ".js")
      by (rewrite !sapp_assoc; reflexivity).
    rewrite Hdot, !sapp_assoc. reflexivity.
  - intros r.
    assert (exists t, jsfile ("/" +:+ r) = "/" +:+ t) as [t Ht].
    { unfold jsfile, assetsPath.
      destruct (Js.stripTrailingSlash ("/" +:+ r)) as [|c s] eqn:E.
      - eexists. reflexivity.
      - unfold Js.stripTrailingSlash in E.
        destruct (Js.stripSuffix "/" ("/" +:+ r)) as [b|] eqn:Eb.
        + apply stripSuffix_Some in Eb. subst b. rewrite sapp_cons in Eb.
          injection Eb as -> _. eexists. rewrite !sapp_cons. reflexivity.
        + injection E as <- _. eexists. rewrite !sapp_cons. reflexivity. }
    split.
    + apply sourceMapUrlOf_unanchored; [apply Hjs|rewrite Ht; reflexivity..].
    + rewrite Ht. reflexivity.
Qed.

(** ** The file lists of the driver *)

(** [hexRun need seen s] looks for [need] hexadecimal characters in a row,
    of which [seen] have just been read. *)
Lemma hexRun_spec need s : forall seen,
  seen < need ->
  hexRun need seen s = true
  <-> exists a h b, s = a +:+ h +:+ b /\ allLowerHex h = true
                    /\ need <= String.length h + (if decide (a = "") then seen else 0).
Proof.
  induction s as [|c s IH]; intros seen Hlt.
  - split; [discriminate|]. intros (a & h & b & E & _ & Hn).
    destruct a; [|discriminate]. destruct h; [|discriminate].
    simpl in Hn. lia.
  - cbn [hexRun]. destruct (isLowerHex c) eqn:Hc.
    + destruct (Nat.leb_spec need (S seen)) as [Hle|Hgt].
      * split; [intros _|reflexivity].
        exists "", (String c ""), s. split; [reflexivity|].
        split; [simpl; rewrite Hc; reflexivity|]. simpl. lia.
      * rewrite IH by lia. split.
        -- intros (a & h & b & -> & Hh & Hn). destruct a as [|x a].
           ++ exists "", (String c h), b. split; [reflexivity|].
              split; [simpl; rewrite Hc; exact Hh|]. simpl in *. lia.
           ++ exists (String c (String x a)), h, b. split; [reflexivity|].
              split; [exact Hh|]. simpl in *. lia.
        -- intros (a & h & b & E & Hh & Hn). destruct a as [|x a].
           ++ rewrite sapp_nil_l in E. destruct h as [|y h]; [simpl in Hn; lia|].
              rewrite sapp_cons in E. injection E as <- ->.
              simpl in Hh. apply andb_true_iff in Hh as [_ Hh].
              exists "", h, b. split; [reflexivity|]. split; [exact Hh|]. simpl in *. lia.
           ++ rewrite sapp_cons in E. injection E as <- ->.
              exists a, h, b. split; [reflexivity|]. split; [exact Hh|].
              simpl in Hn. destruct (decide (a = "")); lia.
    + destruct need as [|need]; [lia|]. rewrite IH by lia. split.
      * intros (a & h & b & -> & Hh & Hn).
        exists (String c a), h, b. split; [reflexivity|]. split; [exact Hh|].
        simpl. destruct (decide (a = "")); lia.
      * intros (a & h & b & E & Hh & Hn). destruct a as [|x a].
        -- rewrite sapp_nil_l in E. destruct h as [|y h]; [simpl in Hn; lia|].
           rewrite sapp_cons in E. injection E as <- ->.
           simpl in Hh. rewrite Hc in Hh. discriminate.
        -- rewrite sapp_cons in E. injection E as <- ->.
           exists a, h, b. split; [reflexivity|]. split; [exact Hh|].
           simpl in Hn. destruct (decide (a = "")); lia.
Qed.

(** X2. The driver takes a file for fingerprinted exactly when its path,
    directories included, holds at least 32 characters in a row from
    [0-9a-f]; upper-case digits do not count. *)
Theorem isHashed_iff_hex_run file :
  isHashed file = true
  <-> exists a h b, file = a +:+ h +:+ b /\ allLowerHex h = true
                    /\ 32 <= String.length h.
Proof.
  unfold isHashed. rewrite hexRun_spec by lia. split.
  - intros (a & h & b & E & Hh & Hn). exists a, h, b.
    destruct (decide (a = "")); repeat split; auto; lia.
  - intros (a & h & b & E & Hh & Hn). exists a, h, b.
    destruct (decide (a = "")); repeat split; auto; lia.
Qed.

(** X3. The two lists the driver builds hold, between them and each once,
    exactly the existing paths matched by the glob that end in [.js] and
    not in [.orig.js]; a path is in the first list when it is
    fingerprinted and in the second when it is not. The original, the map
    and the gzip file of a listed file are never listed themselves,
    whatever the directory holds. *)
Theorem driver_file_lists jsPattern (fs : gmap string string) :
  let hashedFiles := hashedFilesOf jsPattern fs in
  let nonHashedFiles := nonHashedFilesOf jsPattern fs in
  (forall p, p ∈ hashedFiles ++ nonHashedFiles
             <-> is_Some (fs !! p) /\ jsPattern p = true
                 /\ Js.endsWith ".js" p = true /\ Js.endsWith ".orig.js" p = false)
  /\ (forall p, p ∈ hashedFiles <-> p ∈ hashedFiles ++ nonHashedFiles /\ isHashed p = true)
  /\ (forall p, p ∈ nonHashedFiles <-> p ∈ hashedFiles ++ nonHashedFiles /\ isHashed p = false)
  /\ NoDup (hashedFiles ++ nonHashedFiles)
  /\ (forall p fs', p ∈ hashedFiles ++ nonHashedFiles ->
        (originalOf p ∉ jsfilesOf jsPattern fs')
        /\ (sourcemapOf p ∉ jsfilesOf jsPattern fs')
        /\ (gzippedOf p ∉ jsfilesOf jsPattern fs')).
Proof.
  intros hashedFiles nonHashedFiles.
  assert (forall p, p ∈ hashedFiles ++ nonHashedFiles <-> p ∈ jsfilesOf jsPattern fs) as Hall.
  { intros p. rewrite elem_of_app. unfold hashedFiles, nonHashedFiles.
    rewrite hashedFilesOf_spec, nonHashedFilesOf_spec.
    split; [intros [[H _]|[H _]]; exact H|].
    intros H. destruct (isHashed p) eqn:E; [left|right]; split; auto; congruence. }
  split; [|split; [|split; [|split]]].
  - intros p. rewrite Hall, jsfilesOf_spec, isJsFile_true. reflexivity.
  - intros p. rewrite Hall. apply hashedFilesOf_spec.
  - intros p. rewrite Hall. unfold nonHashedFiles. rewrite nonHashedFilesOf_spec.
    destruct (isHashed p); split; intros [? ?]; split; auto; congruence.
  - apply NoDup_app. split; [apply hashedFilesOf_NoDup|].
    split; [|apply nonHashedFilesOf_NoDup].
    intros p H1 H2. apply hashedFilesOf_spec in H1. apply nonHashedFilesOf_spec in H2.
    tauto.
  - intros p fs' Hp. apply Hall, jsfilesOf_spec in Hp as (_ & _ & Hjs).
    pose proof (proj1 (isJsFile_true p) Hjs) as [Jp _].
    repeat split; intros H; apply jsfilesOf_spec in H as (_ & _ & H);
      destruct (jsfile_not_derived _ p H Jp) as (? & ? & ?); congruence.
Qed.

(** ** The paths of one file's pipeline *)

Lemma sourcemapOf_inj a b :
  Js.endsWith ".js" a = true -> Js.endsWith ".js" b = true ->
  sourcemapOf a = sourcemapOf b -> a = b.
Proof.
  intros Ha Hb. destruct (derived_paths a Ha) as (x & -> & _ & -> & _).
  destruct (derived_paths b Hb) as (y & -> & _ & -> & _).
  intros H%sapp_inj_r. congruence.
Qed.

Lemma gzippedOf_inj a b :
  Js.endsWith ".js" a = true -> Js.endsWith ".js" b = true ->
  gzippedOf a = gzippedOf b -> a = b.
Proof.
  intros Ha Hb. destruct (derived_paths a Ha) as (x & -> & _ & _ & ->).
  destruct (derived_paths b Hb) as (y & -> & _ & _ & ->).
  intros H%sapp_inj_r. congruence.
Qed.

Lemma touchedByEnqueue_disjoint a b p :
  isJsFile a = true -> isJsFile b = true -> a <> b ->
  p ∈ touchedByEnqueue a -> p ∉ touchedByEnqueue b.
Proof.
  intros Ha Hb Hne Hpa Hpb.
  pose proof (proj1 (isJsFile_true a) Ha) as [Ja _].
  pose proof (proj1 (isJsFile_true b) Hb) as [Jb _].
  destruct (jsfile_not_derived a b Ha Jb) as (? & ? & ?).
  destruct (jsfile_not_derived b a Hb Ja) as (? & ? & ?).
  destruct (derived_kinds_distinct a b Ja Jb) as (? & ? & ?).
  destruct (derived_kinds_distinct b a Jb Ja) as (? & ? & ?).
  pose proof (originalOf_inj a b Ja Jb).
  pose proof (sourcemapOf_inj a b Ja Jb).
  pose proof (gzippedOf_inj a b Ja Jb).
  unfold touchedByEnqueue in *.
  repeat (apply elem_of_cons in Hpa as [->|Hpa]);
    try (apply elem_of_nil in Hpa; contradiction);
    repeat (apply elem_of_cons in Hpb as [Hpb|Hpb]);
    try (apply elem_of_nil in Hpb; contradiction);
    try congruence; auto.
Qed.

(** X4. The four paths one file's pipeline works on (the file, its
    original, its map, its gzip file) are pairwise different, and two
    different files of the driver's lists share none of them: the workers
    of the queue never write to each other's files. *)
Theorem artifact_paths_never_shared a b :
  isJsFile a = true -> isJsFile b = true -> a <> b ->
  (forall p, p ∈ [a; originalOf a; sourcemapOf a; gzippedOf a] ->
             p ∉ [b; originalOf b; sourcemapOf b; gzippedOf b])
  /\ NoDup [a; originalOf a; sourcemapOf a; gzippedOf a].
Proof.
  intros Ha Hb Hne. split.
  - intros p. apply touchedByEnqueue_disjoint; assumption.
  - pose proof (proj1 (isJsFile_true a) Ha) as [Ja _].
    destruct (derived_paths_distinct a Ja) as (? & ? & ? & ? & ? & ?).
    repeat (apply NoDup_cons; split;
            [intros Hin; repeat (apply elem_of_cons in Hin as [Hin|Hin]; [congruence|]);
             apply elem_of_nil in Hin; exact Hin|]).
    apply NoDup_nil_2.
Qed.

Lemma artifact_paths_never_shared_witness :
  (forall p, p ∈ [Sample.hashed; originalOf Sample.hashed; sourcemapOf Sample.hashed;
                  gzippedOf Sample.hashed] ->
             p ∉ [Sample.alias; originalOf Sample.alias; sourcemapOf Sample.alias;
                  gzippedOf Sample.alias])
  /\ NoDup [Sample.hashed; originalOf Sample.hashed; sourcemapOf Sample.hashed;
            gzippedOf Sample.hashed].
Proof.
  apply (artifact_paths_never_shared Sample.hashed Sample.alias).
  - vm_compute. reflexivity.
  - vm_compute. reflexivity.
  - vm_compute. discriminate.
Defined.

(** ** The single-file processor *)

(** X5. When the single-file processor minifies a [.js] file, it leaves
    four files: the original source under [.orig.js], the rewritten code
    followed by the marker at the file's own path, the rewritten map under
    [.js.map] and, with gzip on, the gzip of exactly that final content
    under [.js.gz]; with gzip off, whatever was at [.js.gz] stays. Its
    effects are, in order: the log line, the rename, the minification, the
    two writes and the gzip. *)
Theorem enqueue_leaves_four_artifacts minify gzipBytes gzip w jsfile source u :
  Js.endsWith ".js" jsfile = true ->
  files w !! jsfile = Some source ->
  containsSourceMapPrefix source = false ->
  minify (originalOf jsfile) source (sourceMapUrlOf jsfile) = Some u ->
  exists w',
    enqueue minify gzipBytes gzip jsfile w = (w', Ret tt)
    /\ files w' !! originalOf jsfile = Some source
    /\ files w' !! jsfile
       = Some (rewritePaths (code u) +:+ sourceMapPrefix +:+ sourceMapUrlOf jsfile)
    /\ files w' !! sourcemapOf jsfile = Some (rewritePaths (map u))
    /\ files w' !! gzippedOf jsfile
       = (if gzip
          then Some (gzipBytes (rewritePaths (code u) +:+ sourceMapPrefix
                                +:+ sourceMapUrlOf jsfile))
          else files w !! gzippedOf jsfile)
    /\ trace w'
       = trace w ++ [ LogGenerating jsfile; Renamed jsfile (originalOf jsfile);
                      Minified (originalOf jsfile) (sourceMapUrlOf jsfile);
                      Wrote jsfile; Wrote (sourcemapOf jsfile) ]
                 ++ (if gzip then [Gzipped jsfile (gzippedOf jsfile)] else []).
Proof.
  intros Hjs Hf Hc Hu.
  destruct (derived_paths_distinct jsfile Hjs) as (? & ? & ? & ? & ? & ?).
  eexists. unfold enqueue.
  rewrite (enqueueWaterfall_processes _ _ _ _ _ _ _ Hjs Hf Hc Hu).
  split; [reflexivity|]. cbn [files trace]. unfold processedFiles, processedTrace.
  cbn [rewriteUglified code map]. unfold sourceMapTextOf.
  destruct gzip.
  - repeat split.
    + rewrite !lookup_insert_ne, lookup_insert_eq by congruence. reflexivity.
    + rewrite !lookup_insert_ne, lookup_insert_eq by congruence. reflexivity.
    + rewrite lookup_insert_ne, lookup_insert_eq by congruence. reflexivity.
    + rewrite lookup_insert_eq. reflexivity.
  - repeat split.
    + rewrite !lookup_insert_ne, lookup_insert_eq by congruence. reflexivity.
    + rewrite lookup_insert_ne, lookup_insert_eq by congruence. reflexivity.
    + rewrite lookup_insert_eq. reflexivity.
    + rewrite !lookup_insert_ne, lookup_delete_ne by congruence. reflexivity.
Qed.

Lemma enqueue_leaves_four_artifacts_witness :
  exists w',
    enqueue Sample.minify Sample.gzipBytes true Sample.hashed (World Sample.fsPair [])
    = (w', Ret tt)
    /\ files w' !! originalOf Sample.hashed = Some "var a = 1;"
    /\ files w' !! gzippedOf Sample.hashed
       = Some ("gz:min:var a = 1;" +:+ sourceMapPrefix +:+ sourceMapUrlOf Sample.hashed).
Proof.
  destruct (enqueue_leaves_four_artifacts Sample.minify Sample.gzipBytes true
              (World Sample.fsPair []) Sample.hashed "var a = 1;"
              (Uglified "min:var a = 1;"
                 ("{sources:[" +:+ originalOf Sample.hashed +:+ "],file:"
                  +:+ sourceMapUrlOf Sample.hashed +:+ "}")))
    as (w' & E & Ho & _ & _ & Hg & _).
  - vm_compute. reflexivity.
  - vm_compute. reflexivity.
  - vm_compute. reflexivity.
  - vm_compute. reflexivity.
  - exists w'. split; [exact E|]. split; [exact Ho|]. rewrite Hg. vm_compute. reflexivity.
Defined.

(** X6. When the minifier throws on a [.js] file, the exception leaves the
    processor after the rename and before any write: the source is at
    [.orig.js], nothing is at the file's own path, and no later run lists
    either of the two, so the file is not processed again. *)
Theorem enqueue_minifier_throw_loses_file minify gzipBytes gzip w jsfile source :
  Js.endsWith ".js" jsfile = true ->
  files w !! jsfile = Some source ->
  containsSourceMapPrefix source = false ->
  minify (originalOf jsfile) source (sourceMapUrlOf jsfile) = None ->
  exists w',
    enqueue minify gzipBytes gzip jsfile w = (w', Throw (MinifyError (originalOf jsfile)))
    /\ files w' = <[originalOf jsfile := source]> (delete jsfile (files w))
    /\ files w' !! jsfile = None
    /\ files w' !! originalOf jsfile = Some source
    /\ forall jsPattern, (jsfile ∉ jsfilesOf jsPattern (files w'))
                         /\ (originalOf jsfile ∉ jsfilesOf jsPattern (files w')).
Proof.
  intros Hjs Hf Hc Hu.
  destruct (derived_paths_distinct jsfile Hjs) as (Hne & _).
  eexists. unfold enqueue, enqueueWaterfall.
  erewrite bind_Ret by (eapply raise_go; eassumption).
  unfold rename, uglifyMinify, mbind, M_bind. cbn [files trace]. rewrite Hf.
  cbn [files trace]. rewrite lookup_insert_eq, Hu.
  split; [reflexivity|]. cbn [files].
  assert ((<[originalOf jsfile := source]> (delete jsfile (files w))) !! jsfile = None) as Hgone.
  { rewrite lookup_insert_ne, lookup_delete_eq by congruence. reflexivity. }
  split; [reflexivity|]. split; [exact Hgone|].
  split; [apply lookup_insert_eq|].
  intros jsPattern. split; intros Hin; apply jsfilesOf_spec in Hin as (Hex & _ & Hjf).
  - rewrite Hgone in Hex. destruct Hex as [? [=]].
  - apply isJsFile_true in Hjf as [_ Hjf].
    rewrite originalOf_endsWith in Hjf by assumption. discriminate.
Qed.

Lemma enqueue_minifier_throw_loses_file_witness :
  exists w',
    enqueue Sample.throwingMinify Sample.gzipBytes true Sample.hashed
            (World Sample.fsPair [])
    = (w', Throw (MinifyError (originalOf Sample.hashed)))
    /\ files w' !! Sample.hashed = None
    /\ files w' !! originalOf Sample.hashed = Some "var a = 1;".
Proof.
  destruct (enqueue_minifier_throw_loses_file Sample.throwingMinify Sample.gzipBytes true
              (World Sample.fsPair []) Sample.hashed "var a = 1;")
    as (w' & E & _ & Hgone & Ho & _).
  - vm_compute. reflexivity.
  - vm_compute. reflexivity.
  - vm_compute. reflexivity.
  - reflexivity.
  - exists w'. auto.
Defined.

(** ** The path rewrite on text without a match *)

Lemma matchAssets_min s r :
  Js.matchAssets s = Some r -> String.length r + 14 <= String.length s.
Proof.
  intros (m & Hm & ->)%matchAssets_Some. rewrite length_sapp.
  unfold matchForms in Hm.
  repeat (apply elem_of_cons in Hm as [->|Hm]; [simpl; lia|]).
  apply elem_of_nil in Hm. contradiction.
Qed.

Lemma rewritePaths_length_le n :
  forall s, String.length s < n -> String.length (rewritePaths s) <= String.length s.
Proof.
  induction n as [|n IH]; intros s Hn; [lia|].
  destruct (Js.matchAssets s) as [r|] eqn:Hm.
  - rewrite (rewritePaths_match _ _ Hm), length_sapp.
    pose proof (matchAssets_min _ _ Hm). specialize (IH r ltac:(lia)). simpl. lia.
  - destruct s as [|c s]; [reflexivity|].
    rewrite (rewritePaths_skip _ _ Hm). simpl in *. specialize (IH s ltac:(lia)). lia.
Qed.

Lemma rewritePaths_shrinks n :
  forall s, String.length s < n -> occursIn Js.assetsLiteral s ->
            String.length (rewritePaths s) < String.length s.
Proof.
  induction n as [|n IH]; intros s Hn Hocc; [lia|].
  destruct (Js.matchAssets s) as [r|] eqn:Hm.
  - rewrite (rewritePaths_match _ _ Hm), length_sapp.
    pose proof (matchAssets_min _ _ Hm).
    pose proof (rewritePaths_length_le (S (String.length r)) r ltac:(lia)). simpl. lia.
  - destruct s as [|c s].
    + destruct Hocc as (a & b & H). destruct a; discriminate H.
    + rewrite (rewritePaths_skip _ _ Hm).
      apply occursIn_cons in Hocc as [[b Hb]|Hocc].
      * rewrite Hb, matchAssets_literal in Hm. discriminate.
      * simpl in *. specialize (IH s ltac:(lia) Hocc). lia.
Qed.

Lemma rewritePaths_id s : ~ occursIn Js.assetsLiteral s -> rewritePaths s = s.
Proof.
  induction s as [|c s IH]; intros Hfree; [reflexivity|].
  destruct (Js.matchAssets (String c s)) as [r|] eqn:Hm.
  - exfalso. apply matchAssets_Some in Hm as (m & Hm & E). apply Hfree. rewrite E.
    unfold matchForms in Hm.
    repeat (apply elem_of_cons in Hm as [->|Hm];
            [first [ exists "./", r; reflexivity | exists "/", r; reflexivity
                   | exists ".", r; reflexivity | exists "", r; reflexivity ]|]).
    apply elem_of_nil in Hm. contradiction.
  - rewrite (rewritePaths_skip _ _ Hm). f_equal. apply IH.
    intros Hocc. apply Hfree. apply (occursIn_app_l _ (String c "")) in Hocc. exact Hocc.
Qed.

(** X7. The path rewrite leaves a text as it is exactly when the text
    holds no [public/assets/], and it never makes a text longer. *)
Theorem rewritePaths_unchanged_iff s :
  (rewritePaths s = s <-> ~ occursIn "public/assets/" s)
  /\ String.length (rewritePaths s) <= String.length s.
Proof.
  split; [split|].
  - intros E Hocc.
    pose proof (rewritePaths_shrinks (S (String.length s)) s ltac:(lia) Hocc) as H.
    rewrite E in H. lia.
  - apply rewritePaths_id.
  - apply (rewritePaths_length_le (S (String.length s))). lia.
Qed.

(** ** The content hash and one turn of the reconciler *)

Lemma contentHash_proto fs origs hash :
  hash !! "__proto__" = None -> contentHash fs origs hash !! "__proto__" = None.
Proof.
  revert hash. induction origs as [|o origs IH]; intros hash H; [exact H|].
  cbn [contentHash foldl]. apply IH. destruct (fs !! o) as [c|]; [|exact H].
  unfold setProp. case_decide; [exact H|]. rewrite lookup_insert_ne by congruence. exact H.
Qed.

Lemma contentHash_keeps fs origs hash key :
  is_Some (hash !! key) -> is_Some (contentHash fs origs hash !! key).
Proof.
  revert hash. induction origs as [|o origs IH]; intros hash H; [exact H|].
  cbn [contentHash foldl]. apply IH. destruct (fs !! o) as [c|]; [|exact H].
  unfold setProp. case_decide; [exact H|].
  destruct (decide (c = key)) as [->|Hne].
  - rewrite lookup_insert_eq. eauto.
  - rewrite lookup_insert_ne by assumption. exact H.
Qed.

Lemma contentHash_complete fs origs hash key file :
  file ∈ origs -> fs !! file = Some key -> key <> "__proto__" ->
  is_Some (contentHash fs origs hash !! key).
Proof.
  revert hash. induction origs as [|o origs IH]; intros hash Hin Hf Hk.
  - apply elem_of_nil in Hin. contradiction.
  - cbn [contentHash foldl]. apply elem_of_cons in Hin as [<-|Hin].
    + rewrite Hf. apply contentHash_keeps. unfold setProp.
      case_decide; [contradiction|]. rewrite lookup_insert_eq. eauto.
    + apply IH; assumption.
Qed.

(** X8. Building the content hash reads every file matched by the
    originals' glob, changes nothing and cannot fail. Each key of the hash
    is the content of the original it maps to, and every content held by
    some original is a key, except the content [__proto__], which is never
    stored. *)
Theorem content_hash_entries origPattern finishTime w :
  exists hash,
    readOriginals ∅ (completionOrder finishTime (glob origPattern (files w))) w
    = (w, Ret hash)
    /\ (forall contents file,
          hash !! contents = Some file ->
          origPattern file = true /\ files w !! file = Some contents)
    /\ (forall contents file,
          origPattern file = true -> files w !! file = Some contents ->
          contents <> "__proto__" ->
          exists kept, hash !! contents = Some kept)
    /\ hash !! "__proto__" = None.
Proof.
  exists (originalFileContentHash origPattern finishTime (files w)).
  split; [|split; [|split]].
  - apply readOriginals_ok. intros file Hf. apply completed_spec in Hf. tauto.
  - apply originalFileContentHash_lookup.
  - intros contents file Hp Hf Hk.
    apply (contentHash_complete _ _ _ _ file); [|assumption..].
    apply completed_spec. eauto.
  - apply contentHash_proto, lookup_empty.
Qed.

Lemma orig_not_at_head c base :
  ~ occursIn ".orig" (String c base +:+ ".js") ->
  Js.stripPrefix ".orig" (String c (base +:+ ".orig.js")) = None.
Proof.
  intros Hfree.
  destruct (Js.stripPrefix ".orig" (String c (base +:+ ".orig.js"))) as [r|] eqn:E;
    [exfalso|reflexivity].
  apply stripPrefix_Some in E. rewrite <- sapp_cons in E.
  apply sapp_eq_app in E as [[a' Ha]|(p' & Hp & Hx)].
  - apply Hfree. rewrite Ha. exists "", (a' +:+ ".js").
    rewrite sapp_nil_l, sapp_assoc. reflexivity.
  - destruct p' as [|d p'].
    { apply Hfree. rewrite sapp_nil_r in Hp. rewrite <- Hp.
      exists "", ".js". reflexivity. }
    rewrite sapp_cons in Hp. injection Hp as <- Hp.
    rewrite sapp_cons in Hx. injection Hx as <- _. clear -Hp.
    destruct base as [|c1 [|c2 [|c3 [|c4 [|c5 base]]]]];
      rewrite ?sapp_cons, ?sapp_nil_l in Hp; discriminate Hp.
Qed.

(** [sourceOrig.replace('.orig.js', '.js.gz')] on the original of a file
    whose own path holds no [.orig]. *)
Lemma replaceFirst_orig_gz base :
  ~ occursIn ".orig" (base +:+ ".js") ->
  Js.replaceFirst ".orig.js" ".js.gz" (base +:+ ".orig.js") = base +:+ ".js.gz".
Proof.
  induction base as [|c base IH]; intros Hfree; [reflexivity|].
  rewrite !sapp_cons. cbn [Js.replaceFirst].
  destruct (Js.stripPrefix ".orig.js" (String c (base +:+ ".orig.js"))) as [r|] eqn:E.
  - exfalso. apply stripPrefix_Some in E.
    pose proof (orig_not_at_head c base Hfree) as Hn.
    rewrite E in Hn.
    rewrite (proj2 (stripPrefix_Some ".orig" (".orig.js" +:+ r) (".js" +:+ r)) eq_refl) in Hn.
    discriminate.
  - f_equal. apply IH. intros Hocc. apply Hfree.
    apply (occursIn_app_l _ (String c "")) in Hocc. exact Hocc.
Qed.

Lemma gzipped_of_original jsfile :
  Js.endsWith ".js" jsfile = true -> ~ occursIn ".orig" jsfile ->
  Js.replaceFirst ".orig.js" ".js.gz" (originalOf jsfile) = gzippedOf jsfile.
Proof.
  intros H Hfree. destruct (derived_paths jsfile H) as (base & -> & -> & _ & ->).
  apply replaceFirst_orig_gz, Hfree.
Qed.

Lemma reconcile_copies gzip hash w jsfile hashedFile raw final gz :
  Js.endsWith ".js" jsfile = true -> Js.endsWith ".js" hashedFile = true ->
  ~ occursIn ".orig" hashedFile -> jsfile <> hashedFile ->
  files w !! jsfile = Some raw -> containsSourceMapPrefix raw = false ->
  hash !! raw = Some (originalOf hashedFile) ->
  files w !! hashedFile = Some final ->
  (gzip = true -> files w !! gzippedOf hashedFile = Some gz) ->
  let renamed := <[originalOf jsfile := raw]> (delete jsfile (files w)) in
  reconcile gzip hash jsfile w
  = (World (if gzip
            then <[gzippedOf jsfile := gz]> (<[jsfile := final]> renamed)
            else <[jsfile := final]> renamed)
           (trace w ++ [ LogGenerating jsfile;
                         LogReusing jsfile (Str (originalOf hashedFile));
                         Renamed jsfile (originalOf jsfile);
                         Copied hashedFile jsfile ]
                    ++ (if gzip
                        then [Copied (gzippedOf hashedFile) (gzippedOf jsfile)]
                        else [])),
     Ret tt).
Proof.
  intros Hjs Hhjs Hfree Hne Hf Hc Hhash Hfinal Hgz renamed.
  assert (hashedFile <> originalOf jsfile) as Hne2.
  { intros E. apply Hfree. rewrite E. apply occursIn_orig_suffix, originalOf_endsWith, Hjs. }
  assert (gzippedOf hashedFile <> jsfile /\ gzippedOf hashedFile <> originalOf jsfile)
    as [Hg1 Hg2].
  { split; intros E; apply (f_equal lastChar) in E;
      rewrite lastChar_gzippedOf in E by assumption.
    - rewrite lastChar_js in E by assumption. discriminate.
    - rewrite (lastChar_js (originalOf jsfile)) in E; [discriminate|].
      apply endsWith_orig_js, originalOf_endsWith, Hjs. }
  destruct (originalOf hashedFile) as [|c0 s0] eqn:Eorig.
  { destruct (derived_paths hashedFile Hhjs) as (b & _ & Eo & _). rewrite Eo in Eorig.
    destruct b; discriminate Eorig. }
  unfold reconcile, reconcileWaterfall.
  erewrite bind_Ret by (eapply raise_go; eassumption).
  unfold readFile, mbind, M_bind. cbn [files trace]. rewrite Hf.
  unfold getProp. rewrite Hhash. rewrite <- Eorig.
  rewrite (sibling_of_original _ Hhjs Hfree), (gzipped_of_original _ Hhjs Hfree).
  unfold emit, rename, copy. cbn [files trace]. rewrite Hf. cbn [files trace].
  rewrite lookup_insert_ne, lookup_delete_ne, Hfinal by congruence. cbn [files trace].
  destruct gzip; cbn [files trace].
  - rewrite !lookup_insert_ne, lookup_delete_ne, (Hgz eq_refl) by congruence.
    rewrite <- !(assoc_L (++)). reflexivity.
  - unfold mret, M_ret. rewrite <- !(assoc_L (++)). reflexivity.
Qed.

(** X9. One turn of the reconciler on a non-fingerprinted [.js] file
    without the marker whose content the hash maps to the original of
    [hashedFile] (a file with no [.orig] in its own path): the file is
    renamed to its [.orig.js], the final content of [hashedFile] is copied
    to the file's path and, with gzip on, the [.js.gz] of [hashedFile] is
    copied to the file's [.js.gz]. Nothing is minified or compressed again
    and no map is written for the file; the effects are two log lines, the
    rename and the copies. *)
Theorem reconcile_copies_code_and_gzip
    gzip hash w jsfile hashedFile raw final gz :
  Js.endsWith ".js" jsfile = true -> Js.endsWith ".js" hashedFile = true ->
  ~ occursIn ".orig" hashedFile -> jsfile <> hashedFile ->
  files w !! jsfile = Some raw -> containsSourceMapPrefix raw = false ->
  hash !! raw = Some (originalOf hashedFile) ->
  files w !! hashedFile = Some final ->
  files w !! gzippedOf hashedFile = Some gz ->
  let renamed := <[originalOf jsfile := raw]> (delete jsfile (files w)) in
  reconcile gzip hash jsfile w
  = (World (if gzip
            then <[gzippedOf jsfile := gz]> (<[jsfile := final]> renamed)
            else <[jsfile := final]> renamed)
           (trace w ++ [ LogGenerating jsfile;
                         LogReusing jsfile (Str (originalOf hashedFile));
                         Renamed jsfile (originalOf jsfile);
                         Copied hashedFile jsfile ]
                    ++ (if gzip
                        then [Copied (gzippedOf hashedFile) (gzippedOf jsfile)]
                        else [])),
     Ret tt).
Proof.
  intros Hjs Hhjs Hfree Hne Hf Hc Hhash Hfinal Hgz.
  apply reconcile_copies; auto.
Qed.

Lemma reconcile_copies_code_and_gzip_witness :
  let w := Sample.afterQueue Sample.fsPair in
  let hash := originalFileContentHash Sample.origPattern Sample.finishTime (files w) in
  exists final gz,
    files w !! Sample.hashed = Some final
    /\ files w !! gzippedOf Sample.hashed = Some gz
    /\ reconcile true hash Sample.alias w
       = (World (<[gzippedOf Sample.alias := gz]>
                   (<[Sample.alias := final]>
                      (<[originalOf Sample.alias := "var a = 1;"]>
                         (delete Sample.alias (files w)))))
                (trace w ++ [ LogGenerating Sample.alias;
                              LogReusing Sample.alias (Str (originalOf Sample.hashed));
                              Renamed Sample.alias (originalOf Sample.alias);
                              Copied Sample.hashed Sample.alias ]
                         ++ [Copied (gzippedOf Sample.hashed) (gzippedOf Sample.alias)]),
          Ret tt).
Proof.
  cbv zeta. eexists. eexists. split; [|split].
  3: apply (reconcile_copies_code_and_gzip true _ (Sample.afterQueue Sample.fsPair)
              Sample.alias Sample.hashed "var a = 1;").
  - vm_compute. reflexivity.
  - vm_compute. reflexivity.
  - vm_compute. reflexivity.
  - vm_compute. reflexivity.
  - apply sample_not_occurs. vm_compute. reflexivity.
  - vm_compute. discriminate.
  - vm_compute. reflexivity.
  - vm_compute. reflexivity.
  - vm_compute. reflexivity.
  - vm_compute. reflexivity.
  - vm_compute. reflexivity.
Defined.

(** ** What a run may change *)

Lemma onQueueDrain_confined gzip origPattern finishTime nonHashedFiles :
  respects (confined (nonHashedFiles ≫= touchedByReconcile) (fun _ => True))
           (onQueueDrain gzip origPattern finishTime nonHashedFiles).
Proof.
  intros w w' r. unfold onQueueDrain. rewrite processNonHashedFiles_eq.
  destruct (forEachSeries _ nonHashedFiles w) as [w1 [[]|e|e]] eqn:E;
    apply reconcile_loop_confined in E;
    apply (confined_mono _ (nonHashedFiles ≫= touchedByReconcile) _ (fun _ => True)) in E;
    try done; try (intros [= <- _]; exact E).
  intros H. etransitivity; [exact E|]. revert H. apply confined_emit. exact I.
Qed.

Lemma run_confined minify gzipBytes gzip jsPattern origPattern finishTime w w' r :
  run minify gzipBytes gzip jsPattern origPattern finishTime w = (w', r) ->
  confined (touchedByRun (hashedFilesOf jsPattern (files w))
                         (nonHashedFilesOf jsPattern (files w)))
           (fun _ => True) w w'.
Proof.
  unfold run. intros H.
  assert (respects (confined (touchedByRun (hashedFilesOf jsPattern (files w))
                                           (nonHashedFilesOf jsPattern (files w)))
                             (fun _ => True))
            (drainQueue minify gzipBytes gzip (hashedFilesOf jsPattern (files w)) ;;
             onQueueDrain gzip origPattern finishTime (nonHashedFilesOf jsPattern (files w)))) as Hr.
  { apply respects_bind; [apply _| |intros _].
    - eapply respects_mono; [|apply drainQueue_confined].
      intros v v'. apply confined_mono; [|auto].
      intros p Hp. apply elem_of_app. left. exact Hp.
    - eapply respects_mono; [|apply onQueueDrain_confined].
      intros v v'. apply confined_mono; [|auto].
      intros p Hp. apply elem_of_app. right. exact Hp. }
  destruct (hashedFilesOf jsPattern (files w)) as [|h l] eqn:Eh.
  - injection H as <- _. reflexivity.
  - eapply Hr, H.
Qed.

(** X10. However a run ends (normally, with an error, or by an uncaught
    exception), the only paths whose content may differ afterwards are the
    listed [.js] files and their [.orig.js], [.js.map] and [.js.gz]; for a
    non-fingerprinted file the [.js.map] path is left as it was too, since
    the reconciler writes no map. The trace only grows. *)
Theorem run_changes_only_listed_files
    minify gzipBytes gzip jsPattern origPattern finishTime w w' r :
  run minify gzipBytes gzip jsPattern origPattern finishTime w = (w', r) ->
  (forall p,
     (forall f, f ∈ jsfilesOf jsPattern (files w) ->
                p ∉ [f; originalOf f; sourcemapOf f; gzippedOf f]) ->
     files w' !! p = files w !! p)
  /\ (forall f, f ∈ nonHashedFilesOf jsPattern (files w) ->
                files w' !! sourcemapOf f = files w !! sourcemapOf f)
  /\ exists t, trace w' = trace w ++ t.
Proof.
  intros H. apply run_confined in H as [F (t & Ht & _)].
  split; [|split; [|exists t; exact Ht]].
  - intros p Hp. apply F. unfold touchedByRun. rewrite elem_of_app.
    intros [(f & Hin & Hf)%list_elem_of_bind|(f & Hin & Hf)%list_elem_of_bind].
    + apply hashedFilesOf_spec in Hf as [Hf _]. apply (Hp f Hf). exact Hin.
    + apply nonHashedFilesOf_spec in Hf as [Hf _]. apply (Hp f Hf).
      unfold touchedByReconcile in Hin.
      repeat (apply elem_of_cons in Hin as [->|Hin];
              [repeat first [apply list_elem_of_here|apply list_elem_of_further]|]).
      apply elem_of_nil in Hin. contradiction.
  - intros f Hf. apply F. unfold touchedByRun. rewrite elem_of_app.
    pose proof Hf as [Hfl Hfh]%nonHashedFilesOf_spec.
    apply jsfilesOf_spec in Hfl as (_ & _ & Hfjs).
    pose proof (proj1 (isJsFile_true f) Hfjs) as [Jf _].
    intros [(g & Hin & Hg)%list_elem_of_bind|(g & Hin & Hg)%list_elem_of_bind].
    + apply hashedFilesOf_spec in Hg as [Hgl Hgh].
      apply jsfilesOf_spec in Hgl as (_ & _ & Hgjs).
      pose proof (proj1 (isJsFile_true g) Hgjs) as [Jg _].
      destruct (jsfile_not_derived g f Hgjs Jf) as (_ & ? & _).
      destruct (derived_kinds_distinct g f Jg Jf) as (? & _ & _).
      destruct (derived_kinds_distinct f g Jf Jg) as (_ & _ & ?).
      pose proof (sourcemapOf_inj f g Jf Jg) as Hinj.
      unfold touchedByEnqueue in Hin.
      repeat (apply elem_of_cons in Hin as [Hin|Hin];
              [first [congruence|apply Hinj in Hin; congruence]|]).
      apply elem_of_nil in Hin. exact Hin.
    + apply nonHashedFilesOf_spec in Hg as [Hgl Hgh].
      apply jsfilesOf_spec in Hgl as (_ & _ & Hgjs).
      pose proof (proj1 (isJsFile_true g) Hgjs) as [Jg _].
      destruct (jsfile_not_derived g f Hgjs Jf) as (_ & ? & _).
      destruct (derived_kinds_distinct g f Jg Jf) as (? & _ & _).
      destruct (derived_kinds_distinct f g Jf Jg) as (_ & _ & ?).
      unfold touchedByReconcile in Hin.
      repeat (apply elem_of_cons in Hin as [Hin|Hin]; [congruence|]).
      apply elem_of_nil in Hin. exact Hin.
Qed.

Lemma run_changes_only_listed_files_witness :
  let w := World Sample.fsPair [] in
  let w' := (Sample.run w).1 in
  (forall p,
     (forall f, f ∈ jsfilesOf Sample.jsPattern (files w) ->
                p ∉ [f; originalOf f; sourcemapOf f; gzippedOf f]) ->
     files w' !! p = files w !! p)
  /\ (forall f, f ∈ nonHashedFilesOf Sample.jsPattern (files w) ->
                files w' !! sourcemapOf f = files w !! sourcemapOf f)
  /\ exists t, trace w' = trace w ++ t.
Proof.
  cbv zeta.
  apply (run_changes_only_listed_files Sample.minify Sample.gzipBytes true
           Sample.jsPattern Sample.origPattern Sample.finishTime (World Sample.fsPair []) _
           (Sample.run (World Sample.fsPair [])).2).
  vm_compute. reflexivity.
Defined.

(** ** The earlier variant *)

Lemma dropString_app b t : Js.dropString (String.length b) (b +:+ t) = t.
Proof. induction b as [|c b IH]; [destruct t; reflexivity|exact IH]. Qed.

Lemma sliceLast_app b t : t <> "" -> Js.sliceLast (String.length t) (b +:+ t) = t.
Proof.
  intros Ht. unfold Js.sliceLast. destruct (String.length t) as [|n] eqn:Hn.
  - destruct t; [contradiction|discriminate].
  - rewrite length_sapp, Hn.
    replace (String.length b + S n - S n) with (String.length b) by lia.
    apply dropString_app.
Qed.

(** A content the earlier variant's check accepts ends with the marker. *)
Lemma legacy_check_body jsfile contents :
  Legacy.alreadyProcessed jsfile contents = true ->
  exists body, contents = body +:+ Legacy.sourceMapTextOf jsfile.
Proof.
  unfold Legacy.alreadyProcessed. rewrite String.eqb_eq. intros H.
  unfold Js.sliceLast in H.
  destruct (String.length (Legacy.sourceMapTextOf jsfile)) as [|n].
  - exists "". exact H.
  - rewrite <- H. apply dropString_suffix.
Qed.

Lemma legacy_marker_app body jsfile :
  Legacy.alreadyProcessed jsfile (body +:+ Legacy.sourceMapTextOf jsfile) = true.
Proof.
  unfold Legacy.alreadyProcessed. apply String.eqb_eq, sliceLast_app. discriminate.
Qed.

(** X11. The earlier variant takes a file for already processed exactly
    when its content ends with the marker of that very file: a newline,
    [//# sourceMappingURL=] and the site path of the file's own map. A
    content shorter than the marker, or ending with the marker of another
    file, is not taken for processed. *)
Theorem legacy_check_is_trailing_marker jsfile contents :
  Legacy.alreadyProcessed jsfile contents = true
  <-> exists body,
        contents = body +:+ String "010" "//# sourceMappingURL="
                   +:+ "/" +:+ Js.stripPublic (sourcemapOf jsfile).
Proof.
  change (String "010" "//# sourceMappingURL=" +:+ "/"
          +:+ Js.stripPublic (sourcemapOf jsfile))
    with (Legacy.sourceMapTextOf jsfile).
  split.
  - unfold Legacy.alreadyProcessed. rewrite String.eqb_eq. intros H.
    destruct (String.length (Legacy.sourceMapTextOf jsfile)) as [|n] eqn:Hn.
    + discriminate Hn.
    + unfold Js.sliceLast in H. rewrite <- H. apply dropString_suffix.
  - intros [body ->]. unfold Legacy.alreadyProcessed.
    apply String.eqb_eq, sliceLast_app. discriminate.
Qed.

Section LegacyQueue.

Variable minify : string -> string -> string -> option uglified.
Variable gzipBytes : string -> string.
Variable gzip : bool.

Lemma legacy_check_skip w jsfile contents :
  files w !! jsfile = Some contents ->
  Legacy.alreadyProcessed jsfile contents = true ->
  Legacy.checkSourceMap jsfile w
  = (World (files w) (trace w ++ [LogSkipping jsfile]), Err AlreadyProcessedError).
Proof.
  intros Hf Hc. unfold Legacy.checkSourceMap, readFile, mbind, M_bind.
  rewrite Hf, Hc. reflexivity.
Qed.

Lemma legacy_check_go w jsfile contents :
  files w !! jsfile = Some contents ->
  Legacy.alreadyProcessed jsfile contents = false ->
  Legacy.checkSourceMap jsfile w
  = (World (files w) (trace w ++ [LogGenerating jsfile]), Ret tt).
Proof.
  intros Hf Hc. unfold Legacy.checkSourceMap, readFile, mbind, M_bind.
  rewrite Hf, Hc. reflexivity.
Qed.

Lemma legacy_check_missing w jsfile :
  files w !! jsfile = None ->
  Legacy.checkSourceMap jsfile w = (w, Err (ENOENT "open" jsfile)).
Proof.
  intros Hf. unfold Legacy.checkSourceMap, readFile, mbind, M_bind.
  rewrite Hf. reflexivity.
Qed.

Lemma legacy_check_agrees w jsfile :
  (forall contents, files w !! jsfile = Some contents ->
                    Legacy.alreadyProcessed jsfile contents
                    = containsSourceMapPrefix contents) ->
  Legacy.checkSourceMap jsfile w = raiseAlreadyProcessedIfSourceMap jsfile w.
Proof.
  intros Hsame. destruct (files w !! jsfile) as [c|] eqn:Hf.
  - specialize (Hsame c eq_refl). destruct (containsSourceMapPrefix c) eqn:Hc.
    + rewrite (legacy_check_skip _ _ _ Hf Hsame), (raise_skip _ _ _ Hf Hc). reflexivity.
    + rewrite (legacy_check_go _ _ _ Hf Hsame), (raise_go _ _ _ Hf Hc). reflexivity.
  - rewrite (legacy_check_missing _ _ Hf), (raise_missing _ _ Hf). reflexivity.
Qed.

Lemma legacy_waterfall_agrees w jsfile :
  (forall contents, files w !! jsfile = Some contents ->
                    Legacy.alreadyProcessed jsfile contents
                    = containsSourceMapPrefix contents) ->
  Legacy.enqueueWaterfall minify gzipBytes gzip jsfile w
  = enqueueWaterfall minify gzipBytes gzip jsfile w.
Proof.
  intros Hsame. unfold Legacy.enqueueWaterfall, enqueueWaterfall.
  unfold mbind at 1 6, M_bind. rewrite (legacy_check_agrees _ _ Hsame). reflexivity.
Qed.

(** X12. On a file for which the two variants' checks give the same answer
    (for instance a content with no source-map comment at all, or a
    missing file) the two variants of the single-file processor do the
    same: same files, same effects in the same order, same outcome of the
    waterfall. They differ in what the queue is told: where the primary
    variant passes the error on, the earlier one reports success. *)
Theorem variants_agree_when_checks_agree w jsfile :
  (forall contents, files w !! jsfile = Some contents ->
                    Legacy.alreadyProcessed jsfile contents
                    = containsSourceMapPrefix contents) ->
  Legacy.enqueueWaterfall minify gzipBytes gzip jsfile w
  = enqueueWaterfall minify gzipBytes gzip jsfile w
  /\ Legacy.enqueue minify gzipBytes gzip jsfile w
     = match enqueue minify gzipBytes gzip jsfile w with
       | (w', Err _) => (w', Ret tt)
       | outcome => outcome
       end.
Proof.
  intros Hsame. pose proof (legacy_waterfall_agrees w jsfile Hsame) as E.
  split; [exact E|]. unfold Legacy.enqueue, enqueue. rewrite E.
  destruct (enqueueWaterfall minify gzipBytes gzip jsfile w) as [w' [[]|[]|e]];
    reflexivity.
Qed.

Lemma legacy_enqueue_no_error jsfile w w' e :
  Legacy.enqueue minify gzipBytes gzip jsfile w <> (w', Err e).
Proof.
  unfold Legacy.enqueue.
  destruct (Legacy.enqueueWaterfall minify gzipBytes gzip jsfile w) as [w1 [[]|[]|e1]];
    discriminate.
Qed.

Lemma legacy_drainQueue_outcomes tasks : forall w w' outcomes,
  Legacy.drainQueue minify gzipBytes gzip tasks w = (w', Ret outcomes) ->
  outcomes = (fun _ => None) <$> tasks.
Proof.
  induction tasks as [|x tasks IH]; intros w w' outcomes H.
  - injection H as _ <-. reflexivity.
  - cbn [Legacy.drainQueue] in H.
    destruct (Legacy.enqueue minify gzipBytes gzip x w) as [w1 [[]|e|e]] eqn:E.
    + unfold mbind, M_bind in H.
      destruct (Legacy.drainQueue minify gzipBytes gzip tasks w1) as [w2 [outs|e|e]] eqn:E2;
        try discriminate H.
      injection H as _ <-. rewrite (IH _ _ _ E2). reflexivity.
    + exfalso. exact (legacy_enqueue_no_error _ _ _ _ E).
    + discriminate H.
Qed.

(** X13. The earlier variant's worker never hands an error to the queue:
    whatever fails in the waterfall is logged and the queue's callback is
    called without it, so every task of a queue that ran to its end counts
    as a success. For a missing file, both variants log the same
    [ENOENT]; the primary one reports it to the queue, the earlier one
    does not. *)
Theorem legacy_queue_never_sees_an_error :
  (forall jsfile w w' e, Legacy.enqueue minify gzipBytes gzip jsfile w <> (w', Err e))
  /\ (forall tasks w w' outcomes,
        Legacy.drainQueue minify gzipBytes gzip tasks w = (w', Ret outcomes) ->
        outcomes = (fun _ => None) <$> tasks)
  /\ (forall jsfile w,
        files w !! jsfile = None ->
        let logged :=
          World (files w) (trace w ++ [LogErrorProcessing jsfile (ENOENT "open" jsfile)]) in
        Legacy.enqueue minify gzipBytes gzip jsfile w = (logged, Ret tt)
        /\ enqueue minify gzipBytes gzip jsfile w = (logged, Err (ENOENT "open" jsfile))).
Proof.
  split; [exact legacy_enqueue_no_error|]. split; [exact legacy_drainQueue_outcomes|].
  intros jsfile w Hf logged. split.
  - unfold Legacy.enqueue, Legacy.enqueueWaterfall.
    erewrite bind_Err by (apply legacy_check_missing; exact Hf). reflexivity.
  - unfold enqueue, enqueueWaterfall.
    erewrite bind_Err by (apply raise_missing; exact Hf). reflexivity.
Qed.

Lemma legacy_waterfall_processes w jsfile source u :
  Js.endsWith ".js" jsfile = true ->
  files w !! jsfile = Some source ->
  Legacy.alreadyProcessed jsfile source = false ->
  minify (originalOf jsfile) source (sourceMapUrlOf jsfile) = Some u ->
  Legacy.enqueueWaterfall minify gzipBytes gzip jsfile w
  = (World (processedFiles gzipBytes gzip jsfile source u (files w))
           (trace w ++ processedTrace gzip jsfile), Ret tt).
Proof.
  intros Hjs Hf Hc Hu.
  destruct (derived_paths_distinct jsfile Hjs) as (? & ? & ? & ? & ? & ?).
  unfold Legacy.enqueueWaterfall.
  erewrite bind_Ret by (eapply legacy_check_go; eassumption).
  unfold rename, uglifyMinify, writeFile, gzipFile, processedFiles, processedTrace.
  unfold mbind, M_bind. cbn [files trace]. rewrite Hf. cbn [files trace].
  rewrite lookup_insert_eq. fold (sourceMapUrlOf jsfile). rewrite Hu. cbn [files trace].
  destruct gzip; cbn [files trace].
  - rewrite lookup_insert_ne, lookup_insert_eq by congruence.
    rewrite <- !(assoc_L (++)). reflexivity.
  - rewrite <- !(assoc_L (++)). reflexivity.
Qed.

(** The turn of an existing [.js] file in the earlier variant's queue. *)
Lemma legacy_enqueue_turn jsfile w w' r :
  Js.endsWith ".js" jsfile = true ->
  is_Some (files w !! jsfile) ->
  Legacy.enqueue minify gzipBytes gzip jsfile w = (w', r) ->
  (r = Ret tt /\ exists c, files w' !! jsfile = Some c
                           /\ Legacy.alreadyProcessed jsfile c = true)
  \/ (exists e, r = Throw e)
     /\ exists source, files w !! jsfile = Some source
                       /\ minify (originalOf jsfile) source (sourceMapUrlOf jsfile) = None.
Proof.
  intros Hjs [source Hf] H. unfold Legacy.enqueue in H.
  destruct (Legacy.alreadyProcessed jsfile source) eqn:Hc.
  - unfold Legacy.enqueueWaterfall in H.
    erewrite bind_Err in H by (eapply legacy_check_skip; eassumption).
    injection H as <- <-. left. split; [reflexivity|]. eauto.
  - destruct (minify (originalOf jsfile) source (sourceMapUrlOf jsfile)) as [u|] eqn:Hu.
    + rewrite (legacy_waterfall_processes _ _ _ _ Hjs Hf Hc Hu) in H.
      injection H as <- <-. left. split; [reflexivity|].
      destruct (derived_paths_distinct jsfile Hjs) as (? & ? & ? & _).
      exists (rewritePaths (code u) +:+ Legacy.sourceMapTextOf jsfile).
      split; [|apply legacy_marker_app].
      cbn [files]. unfold processedFiles. destruct gzip.
      * rewrite !lookup_insert_ne, lookup_insert_eq by congruence. reflexivity.
      * rewrite lookup_insert_ne, lookup_insert_eq by congruence. reflexivity.
    + right. unfold Legacy.enqueueWaterfall in H.
      erewrite bind_Ret in H by (eapply legacy_check_go; eassumption).
      unfold mbind, M_bind, rename, uglifyMinify in H. cbn [files trace] in H.
      rewrite Hf in H. cbn [files trace] in H. rewrite lookup_insert_eq in H.
      fold (sourceMapUrlOf jsfile) in H. rewrite Hu in H.
      injection H as _ <-. eauto.
Qed.

Lemma legacy_enqueue_confined jsfile :
  respects (confined (touchedByEnqueue jsfile) (fun _ => True))
           (Legacy.enqueue minify gzipBytes gzip jsfile).
Proof.
  assert (respects (confined (touchedByEnqueue jsfile) (fun _ => True))
                   (Legacy.enqueueWaterfall minify gzipBytes gzip jsfile)) as Hw.
  { unfold Legacy.enqueueWaterfall, touchedByEnqueue.
    bind_step ltac:(idtac).
    { unfold Legacy.checkSourceMap.
      bind_step ltac:(apply respects_readFile, _).
      destruct (Legacy.alreadyProcessed jsfile _); [|apply confined_emit; exact I].
      bind_step ltac:(apply confined_emit; exact I). apply respects_fail, _. }
    bind_step ltac:(apply confined_rename;
                    first [exact I|repeat first [apply list_elem_of_here
                                                |apply list_elem_of_further]]).
    bind_step ltac:(apply confined_uglifyMinify; exact I).
    bind_step ltac:(apply confined_writeFile;
                    first [exact I|repeat first [apply list_elem_of_here
                                                |apply list_elem_of_further]]).
    bind_step ltac:(apply confined_writeFile;
                    first [exact I|repeat first [apply list_elem_of_here
                                                |apply list_elem_of_further]]).
    apply confined_gzipFile;
      first [exact I|repeat first [apply list_elem_of_here|apply list_elem_of_further]]. }
  intros w w' r. unfold Legacy.enqueue.
  destruct (Legacy.enqueueWaterfall _ _ _ jsfile w) as [w1 [[]|e|e]] eqn:E;
    specialize (Hw _ _ _ E); try (intros [= <- _]; exact Hw).
  destruct e; intros [= <- _]; try exact Hw;
    (etransitivity; [exact Hw|]);
    (split; [reflexivity|eexists [_]; split; [reflexivity|auto]]).
Qed.

Lemma legacy_drainQueue_confined (tasks : list string) :
  respects (confined (tasks ≫= touchedByEnqueue) (fun _ => True))
           (Legacy.drainQueue minify gzipBytes gzip tasks).
Proof.
  induction tasks as [|x tasks IH]; [apply respects_ret, _|].
  intros w w' r. cbn [Legacy.drainQueue].
  assert (forall w0 w1, confined (touchedByEnqueue x) (fun _ => True) w0 w1 ->
                        confined ((x :: tasks) ≫= touchedByEnqueue) (fun _ => True) w0 w1)
    as Hhead.
  { intros w0 w1. apply confined_mono; [|auto].
    intros p Hp. apply list_elem_of_bind. exists x. split; [exact Hp|left]. }
  assert (forall w0 w1, confined (tasks ≫= touchedByEnqueue) (fun _ => True) w0 w1 ->
                        confined ((x :: tasks) ≫= touchedByEnqueue) (fun _ => True) w0 w1)
    as Htail.
  { intros w0 w1. apply confined_mono; [|auto].
    intros p (f & Hp & Hf)%list_elem_of_bind. apply list_elem_of_bind.
    exists f. split; [exact Hp|right; exact Hf]. }
  destruct (Legacy.enqueue minify gzipBytes gzip x w) as [w1 [[]|e|e]] eqn:E;
    apply legacy_enqueue_confined, Hhead in E.
  - unfold mbind, M_bind.
    destruct (Legacy.drainQueue minify gzipBytes gzip tasks w1) as [w2 [outs|e|e]] eqn:E2;
      apply IH, Htail in E2; intros [= <- _]; etransitivity; eassumption.
  - unfold mbind, M_bind.
    destruct (Legacy.drainQueue minify gzipBytes gzip tasks w1) as [w2 [outs|e1|e1]] eqn:E2;
      apply IH, Htail in E2; intros [= <- _]; etransitivity; eassumption.
  - intros [= <- _]. exact E.
Qed.

(** Another task's turn leaves a [.js] file of the queue alone. *)
Lemma task_not_touched x g :
  isJsFile x = true -> isJsFile g = true -> g <> x -> g ∉ touchedByEnqueue x.
Proof.
  intros Hx Hg Hne. pose proof (proj1 (isJsFile_true x) Hx) as [Jx _].
  destruct (jsfile_not_derived g x Hg Jx) as (? & ? & ?).
  unfold touchedByEnqueue. intros Hin.
  repeat (apply elem_of_cons in Hin as [->|Hin]; [contradiction|]).
  apply elem_of_nil in Hin. exact Hin.
Qed.

Lemma legacy_drainQueue_markers (tasks : list string) w w' outcomes :
  NoDup tasks ->
  (forall f, f ∈ tasks -> isJsFile f = true) ->
  (forall f, f ∈ tasks -> is_Some (files w !! f)) ->
  Legacy.drainQueue minify gzipBytes gzip tasks w = (w', Ret outcomes) ->
  forall f, f ∈ tasks ->
            exists c, files w' !! f = Some c /\ Legacy.alreadyProcessed f c = true.
Proof.
  revert w outcomes. induction tasks as [|x tasks IH];
    intros w outcomes Hnd Hjs Hex H f Hf; [apply elem_of_nil in Hf; contradiction|].
  apply NoDup_cons in Hnd as [Hx Hnd].
  pose proof (Hjs x ltac:(left)) as Hxjs.
  assert (Js.endsWith ".js" x = true) as Hxjs' by (apply isJsFile_true in Hxjs; tauto).
  assert (forall g, g ∈ tasks -> isJsFile g = true) as Hjs'
    by (intros; apply Hjs; right; assumption).
  cbn [Legacy.drainQueue] in H.
  destruct (Legacy.enqueue minify gzipBytes gzip x w) as [w1 r1] eqn:E.
  destruct (legacy_enqueue_turn _ _ _ _ Hxjs' (Hex x ltac:(left)) E)
    as [[-> (c & Hc & Hm)]|[[e ->] _]]; [|discriminate H].
  unfold mbind, M_bind in H.
  destruct (Legacy.drainQueue minify gzipBytes gzip tasks w1) as [w2 [outs|e|e]] eqn:E2;
    try discriminate H.
  injection H as <- _.
  assert (forall g, g ∈ tasks -> is_Some (files w1 !! g)) as Hex1.
  { intros g Hg. apply legacy_enqueue_confined in E as [F _]. rewrite F.
    - apply Hex. right. exact Hg.
    - apply task_not_touched; auto. intros ->. contradiction. }
  apply elem_of_cons in Hf as [->|Hf].
  - exists c. split; [|exact Hm].
    pose proof E2 as [F _]%legacy_drainQueue_confined. rewrite F; [exact Hc|].
    intros (g & Hin & Hg)%list_elem_of_bind. revert Hin.
    apply task_not_touched; auto. intros ->. contradiction.
  - eapply IH; eassumption.
Qed.

Lemma legacy_drainQueue_all_skip (tasks : list string) w :
  (forall f, f ∈ tasks ->
             exists c, files w !! f = Some c /\ Legacy.alreadyProcessed f c = true) ->
  Legacy.drainQueue minify gzipBytes gzip tasks w
  = (World (files w) (trace w ++ (LogSkipping <$> tasks)), Ret ((fun _ => None) <$> tasks)).
Proof.
  revert w. induction tasks as [|x tasks IH]; intros w Hm.
  - cbn. rewrite app_nil_r. destruct w; reflexivity.
  - destruct (Hm x ltac:(left)) as (c & Hf & Hc). cbn [Legacy.drainQueue].
    unfold Legacy.enqueue, Legacy.enqueueWaterfall.
    erewrite bind_Err by (eapply legacy_check_skip; eassumption).
    unfold mbind, M_bind. rewrite IH.
    + cbn [files trace fmap list_fmap]. rewrite <- (assoc_L (++)). reflexivity.
    + intros f Hin. cbn [files]. apply Hm. right. exact Hin.
Qed.

(** With a minifier that does not throw, the queue runs to its end. *)
Lemma legacy_drainQueue_total (tasks : list string) : forall w,
  (forall path source url, minify path source url <> None) ->
  NoDup tasks ->
  (forall f, f ∈ tasks -> isJsFile f = true) ->
  (forall f, f ∈ tasks -> is_Some (files w !! f)) ->
  exists w' outcomes,
    Legacy.drainQueue minify gzipBytes gzip tasks w = (w', Ret outcomes).
Proof.
  induction tasks as [|x tasks IH]; intros w Htotal Hnd Hjs Hex.
  - exists w, []. reflexivity.
  - apply NoDup_cons in Hnd as [Hx Hnd].
    pose proof (Hjs x ltac:(left)) as Hxjs.
    assert (Js.endsWith ".js" x = true) as Hxjs' by (apply isJsFile_true in Hxjs; tauto).
    cbn [Legacy.drainQueue].
    destruct (Legacy.enqueue minify gzipBytes gzip x w) as [w1 r1] eqn:E.
    destruct (legacy_enqueue_turn _ _ _ _ Hxjs' (Hex x ltac:(left)) E)
      as [[-> _]|[_ (source & _ & Hnone)]]; [|exfalso; exact (Htotal _ _ _ Hnone)].
    destruct (IH w1 Htotal Hnd) as (w2 & outs & E2).
    + intros g Hg. apply Hjs. right. exact Hg.
    + intros g Hg. apply legacy_enqueue_confined in E as [F _]. rewrite F.
      * apply Hex. right. exact Hg.
      * apply task_not_touched; auto.
        -- apply Hjs. right. exact Hg.
        -- intros ->. contradiction.
    + exists w2, (None :: outs). unfold mbind, M_bind. rewrite E2. reflexivity.
Qed.

Lemma pushed_spec found tasks :
  Legacy.pushed found = Some tasks ->
  forall f, f ∈ tasks <-> Some f ∈ found /\ isJsFile f = true.
Proof.
  revert tasks. induction found as [|[file|] found IH]; intros tasks H f.
  - injection H as <-. split; [intros []%elem_of_nil|intros [[]%elem_of_nil _]].
  - cbn [Legacy.pushed] in H.
    destruct (Legacy.pushed found) as [rest|]; [|discriminate].
    injection H as <-. specialize (IH rest eq_refl f).
    destruct (isJsFile file) eqn:Hjs.
    + rewrite !elem_of_cons, IH. split.
      * intros [->|[? ?]]; auto.
      * intros [[[= ->]|?] ?]; auto.
    + rewrite elem_of_cons, IH. split.
      * intros [? ?]; auto.
      * intros [[[= ->]|?] ?]; [congruence|auto].
  - discriminate H.
Qed.

(** X14. With a minifier that does not throw, a run of the earlier variant
    over files that exist always ends normally. Afterwards every file it
    pushed to the queue ends with its own marker, and no path other than
    those files and their [.orig.js], [.js.map] and [.js.gz] has
    changed. *)
Theorem legacy_run_completes found tasks w :
  (forall path source url, minify path source url <> None) ->
  Legacy.pushed found = Some tasks -> NoDup tasks ->
  (forall f, f ∈ tasks -> is_Some (files w !! f)) ->
  exists w1,
    Legacy.run minify gzipBytes gzip found w = (w1, Ret tt)
    /\ (forall f, f ∈ tasks ->
          exists body,
            files w1 !! f
            = Some (body +:+ String "010" "//# sourceMappingURL="
                    +:+ Js.toSitePath (sourcemapOf f)))
    /\ (forall p,
          (forall f, f ∈ tasks -> p ∉ [f; originalOf f; sourcemapOf f; gzippedOf f]) ->
          files w1 !! p = files w !! p).
Proof.
  intros Htotal Hp Hnd Hex.
  assert (forall f, f ∈ tasks -> isJsFile f = true) as Hjs
    by (intros f Hf; apply (pushed_spec _ _ Hp) in Hf; tauto).
  destruct (legacy_drainQueue_total tasks w Htotal Hnd Hjs Hex) as (w2 & outs & E).
  pose proof (legacy_drainQueue_markers tasks w w2 outs Hnd Hjs Hex E) as Hm.
  pose proof (legacy_drainQueue_confined tasks _ _ _ E) as [F _].
  unfold Legacy.run. rewrite Hp. destruct tasks as [|x tasks].
  - exists w. split; [reflexivity|]. split; [|reflexivity].
    intros f []%elem_of_nil.
  - exists (World (files w2) (trace w2 ++ [LogAllProcessed])).
    split; [|split].
    + unfold mbind, M_bind. rewrite E. reflexivity.
    + intros f Hf. destruct (Hm f Hf) as (c & Hc & Hmark).
      apply legacy_check_body in Hmark as [body ->]. exists body. exact Hc.
    + intros p Hout. cbn [files]. apply F.
      intros (f & Hin & Hf)%list_elem_of_bind. exact (Hout f Hf Hin).
Qed.

(** X15. If a run of the earlier variant over existing files ends
    normally, a second run that pushes the same files skips every one of
    them: the files are left as they are and the only effects are one
    informational log line per file and the final message. *)
Theorem legacy_second_run_skips found found' tasks w w1 :
  Legacy.pushed found = Some tasks -> Legacy.pushed found' = Some tasks ->
  NoDup tasks ->
  (forall f, f ∈ tasks -> is_Some (files w !! f)) ->
  Legacy.run minify gzipBytes gzip found w = (w1, Ret tt) ->
  Legacy.run minify gzipBytes gzip found' w1
  = (World (files w1)
           (trace w1 ++ match tasks with
                        | [] => []
                        | _ => (LogSkipping <$> tasks) ++ [LogAllProcessed]
                        end),
     Ret tt).
Proof.
  intros Hp Hp' Hnd Hex H. unfold Legacy.run in *. rewrite Hp in H. rewrite Hp'.
  destruct tasks as [|x tasks].
  - injection H as <-. rewrite app_nil_r. destruct w; reflexivity.
  - set (l := x :: tasks) in *.
    unfold mbind, M_bind in H.
    destruct (Legacy.drainQueue minify gzipBytes gzip l w) as [w2 [outs|e|e]] eqn:E;
      try discriminate H.
    unfold Legacy.onQueueDrain, emit in H. injection H as <-.
    assert (forall f, f ∈ l -> isJsFile f = true) as Hjs
      by (intros f Hf; apply (pushed_spec _ _ Hp) in Hf; tauto).
    pose proof (legacy_drainQueue_markers l w w2 outs Hnd Hjs Hex E) as Hm.
    unfold mbind, M_bind. rewrite legacy_drainQueue_all_skip by exact Hm.
    unfold Legacy.onQueueDrain, emit. cbn [files trace].
    rewrite <- !(assoc_L (++)). reflexivity.
Qed.

End LegacyQueue.

Lemma variants_agree_when_checks_agree_witness :
  let w := World Sample.fsPair [] in
  Legacy.enqueueWaterfall Sample.minify Sample.gzipBytes true Sample.hashed w
  = enqueueWaterfall Sample.minify Sample.gzipBytes true Sample.hashed w
  /\ Legacy.enqueue Sample.minify Sample.gzipBytes true Sample.hashed w
     = match enqueue Sample.minify Sample.gzipBytes true Sample.hashed w with
       | (w', Err _) => (w', Ret tt)
       | outcome => outcome
       end.
Proof.
  cbv zeta.
  apply (variants_agree_when_checks_agree Sample.minify Sample.gzipBytes true
           (World Sample.fsPair []) Sample.hashed).
  intros contents H. vm_compute in H. injection H as <-. vm_compute. reflexivity.
Defined.

Lemma sample_found_NoDup : NoDup [Sample.alias; Sample.hashed].
Proof.
  apply NoDup_cons. split; [|apply NoDup_singleton].
  intros H%list_elem_of_singleton. vm_compute in H. discriminate H.
Qed.

Lemma sample_found_exist f :
  f ∈ [Sample.alias; Sample.hashed] -> is_Some (Sample.fsPair !! f).
Proof.
  intros H. apply elem_of_cons in H as [->|H]; [vm_compute; eauto|].
  apply list_elem_of_singleton in H as ->. vm_compute. eauto.
Qed.

Lemma legacy_run_completes_witness :
  exists w1,
    Legacy.run Sample.minify Sample.gzipBytes true Sample.found (World Sample.fsPair [])
    = (w1, Ret tt)
    /\ (forall f, f ∈ [Sample.alias; Sample.hashed] ->
          exists body,
            files w1 !! f
            = Some (body +:+ String "010" "//# sourceMappingURL="
                    +:+ Js.toSitePath (sourcemapOf f)))
    /\ (forall p,
          (forall f, f ∈ [Sample.alias; Sample.hashed] ->
                     p ∉ [f; originalOf f; sourcemapOf f; gzippedOf f]) ->
          files w1 !! p = files (World Sample.fsPair []) !! p).
Proof.
  apply (legacy_run_completes Sample.minify Sample.gzipBytes true Sample.found
           [Sample.alias; Sample.hashed] (World Sample.fsPair [])).
  - exact sample_minify_total.
  - vm_compute. reflexivity.
  - exact sample_found_NoDup.
  - exact sample_found_exist.
Defined.

Lemma legacy_second_run_skips_witness :
  let w1 := (Legacy.run Sample.minify Sample.gzipBytes true Sample.found
               (World Sample.fsPair [])).1 in
  Legacy.run Sample.minify Sample.gzipBytes true Sample.found w1
  = (World (files w1)
           (trace w1 ++ [ LogSkipping Sample.alias; LogSkipping Sample.hashed;
                          LogAllProcessed ]),
     Ret tt).
Proof.
  cbv zeta.
  apply (legacy_second_run_skips Sample.minify Sample.gzipBytes true Sample.found
           Sample.found [Sample.alias; Sample.hashed] (World Sample.fsPair [])).
  - vm_compute. reflexivity.
  - vm_compute. reflexivity.
  - exact sample_found_NoDup.
  - exact sample_found_exist.
  - vm_compute. reflexivity.
Defined.

(** ** The directory walk of the earlier variant *)

Lemma node_nested_ind (P : Legacy.node -> Prop) :
  P Legacy.File -> P Legacy.Unreadable -> P Legacy.Unstatable ->
  (forall entries, Forall (fun entry => P entry.2) entries -> P (Legacy.Dir entries)) ->
  forall n, P n.
Proof.
  intros HF HU HS HD. fix IH 1. intros [|entries| |]; try assumption.
  apply HD. induction entries as [|[name child] entries IHe]; constructor.
  - apply IH.
  - exact IHe.
Qed.

Lemma findNestedFiles_Dir dir entries :
  Legacy.findNestedFiles dir (Legacy.Dir entries)
  = Some (flat_map
            (fun entry : string * Legacy.node =>
               let '(name, child) := entry in
               let file := dir +:+ "/" +:+ name in
               match child with
               | Legacy.File | Legacy.Unstatable => [Some file]
               | Legacy.Dir _ | Legacy.Unreadable =>
                   match Legacy.findNestedFiles file child with
                   | Some f => f
                   | None => [None]
                   end
               end) entries).
Proof. reflexivity. Qed.

Lemma findNestedFiles_spec n : forall dir found,
  Legacy.findNestedFiles dir n = Some found ->
  (forall p, Some p ∈ found <-> fileUnder dir n p)
  /\ (None ∈ found <-> unreadableBelow n).
Proof.
  induction n as [| | |entries IH] using node_nested_ind; intros dir found H;
    try discriminate H.
  rewrite findNestedFiles_Dir in H. injection H as <-.
  split.
  - intros p. rewrite list_elem_of_In, in_flat_map. split.
    + intros ([name child] & Hin & Hp). apply list_elem_of_In in Hin.
      apply list_elem_of_In in Hp.
      pose proof (proj1 (Forall_forall _ _) IH _ Hin) as IHc. cbn [snd] in IHc.
      destruct child as [|sub| |].
      * apply list_elem_of_singleton in Hp. injection Hp as ->.
        eapply file_here; eauto.
      * rewrite findNestedFiles_Dir in Hp.
        eapply file_below; [exact Hin|].
        apply (IHc _ _ (findNestedFiles_Dir _ _)). exact Hp.
      * cbn in Hp. apply list_elem_of_singleton in Hp. discriminate.
      * apply list_elem_of_singleton in Hp. injection Hp as ->.
        eapply file_here; eauto.
    + intros Hu. inversion Hu as [d es name child Hin Hk|d es name child q Hin Hq]; subst.
      * exists (name, child). split; [apply list_elem_of_In; exact Hin|].
        apply list_elem_of_In. destruct Hk as [-> | ->]; apply list_elem_of_singleton;
          reflexivity.
      * exists (name, child). split; [apply list_elem_of_In; exact Hin|].
        apply list_elem_of_In.
        pose proof (proj1 (Forall_forall _ _) IH _ Hin) as IHc. cbn [snd] in IHc.
        inversion Hq; subst; rewrite findNestedFiles_Dir;
          apply (IHc _ _ (findNestedFiles_Dir _ _)); exact Hq.
  - rewrite list_elem_of_In, in_flat_map. split.
    + intros ([name child] & Hin & Hp). apply list_elem_of_In in Hin.
      apply list_elem_of_In in Hp.
      pose proof (proj1 (Forall_forall _ _) IH _ Hin) as IHc. cbn [snd] in IHc.
      destruct child as [|sub| |].
      * apply list_elem_of_singleton in Hp. discriminate.
      * rewrite findNestedFiles_Dir in Hp.
        eapply unreadable_deeper; [exact Hin|].
        apply (IHc (dir +:+ "/" +:+ name) _ (findNestedFiles_Dir _ _)). exact Hp.
      * eapply unreadable_here; exact Hin.
      * apply list_elem_of_singleton in Hp. discriminate.
    + intros Hu. inversion Hu as [es name Hin|es name child Hin Hq]; subst.
      * exists (name, Legacy.Unreadable). split; [apply list_elem_of_In; exact Hin|].
        apply list_elem_of_In, list_elem_of_singleton. reflexivity.
      * exists (name, child). split; [apply list_elem_of_In; exact Hin|].
        apply list_elem_of_In.
        pose proof (proj1 (Forall_forall _ _) IH _ Hin) as IHc. cbn [snd] in IHc.
        inversion Hq; subst; rewrite findNestedFiles_Dir;
          apply (IHc (dir +:+ "/" +:+ name) _ (findNestedFiles_Dir _ _)); exact Hq.
Qed.

Lemma pushed_None found : None ∈ found -> Legacy.pushed found = None.
Proof.
  induction found as [|[file|] found IH]; intros H.
  - apply elem_of_nil in H. contradiction.
  - apply elem_of_cons in H as [[=]|H]. cbn [Legacy.pushed]. rewrite (IH H). reflexivity.
  - reflexivity.
Qed.

(** X16. Called on a directory that can be listed, the directory walk of
    the earlier variant always hands a list to its callback: the paths in
    it are exactly the paths [dir/.../name] of the entries below the
    directory that are not directories (an entry whose [stat] fails
    counts as a file), and an empty directory gives the empty list. A
    directory further down that cannot be listed does not fail the walk:
    it puts an [undefined] element in the list, and the driver's
    [file.match] on that element then throws before any file is
    processed. *)
Theorem findNestedFiles_lists_the_files dir entries :
  exists found,
    Legacy.findNestedFiles dir (Legacy.Dir entries) = Some found
    /\ (forall p, Some p ∈ found <-> fileUnder dir (Legacy.Dir entries) p)
    /\ (None ∈ found <-> unreadableBelow (Legacy.Dir entries))
    /\ (entries = [] -> found = [])
    /\ (unreadableBelow (Legacy.Dir entries) ->
        forall minify gzipBytes gzip w,
          Legacy.run minify gzipBytes gzip found w
          = (w, Throw (TypeError "Cannot read property 'match' of undefined"))).
Proof.
  pose proof (findNestedFiles_Dir dir entries) as E.
  set (found := flat_map _ entries) in E. exists found. split; [exact E|].
  destruct (findNestedFiles_spec _ _ _ E) as [Hf Hu].
  split; [exact Hf|]. split; [exact Hu|]. split.
  - intros Hnil. unfold found. rewrite Hnil. reflexivity.
  - intros Hbad minify gzipBytes gzip w. apply Hu in Hbad.
    unfold Legacy.run. rewrite (pushed_None _ Hbad). reflexivity.
Qed.

(** ** A first run that ends normally *)

(** What the queue has done to each of its tasks once it has run to its
    end. *)
Lemma drainQueue_each minify gzipBytes gzip (tasks : list string) : forall w w' outcomes,
  NoDup tasks ->
  (forall f, f ∈ tasks -> isJsFile f = true) ->
  (forall f, f ∈ tasks -> is_Some (files w !! f)) ->
  drainQueue minify gzipBytes gzip tasks w = (w', Ret outcomes) ->
  forall x, x ∈ tasks ->
    exists c, files w !! x = Some c
      /\ ((containsSourceMapPrefix c = true
           /\ files w' !! originalOf x = files w !! originalOf x)
          \/ (containsSourceMapPrefix c = false
              /\ files w' !! originalOf x = Some c
              /\ is_Some (files w' !! x)
              /\ (gzip = true -> is_Some (files w' !! gzippedOf x)))).
Proof.
  induction tasks as [|t tasks IH]; intros w w' outcomes Hnd Hjs Hex H x Hx;
    [apply elem_of_nil in Hx; contradiction|].
  apply NoDup_cons in Hnd as [Ht Hnd].
  pose proof (Hjs t ltac:(left)) as Htjs.
  pose proof (proj1 (isJsFile_true t) Htjs) as [Jt _].
  assert (forall g, g ∈ tasks -> isJsFile g = true) as Hjs'
    by (intros; apply Hjs; right; assumption).
  cbn [drainQueue] in H.
  destruct (enqueue minify gzipBytes gzip t w) as [w1 r1] eqn:E.
  assert (exists outs, drainQueue minify gzipBytes gzip tasks w1 = (w', Ret outs)) as [outs E2].
  { destruct r1 as [[]|e|e]; try discriminate H; unfold mbind, M_bind in H;
      destruct (drainQueue minify gzipBytes gzip tasks w1) as [w2 [o|e'|e']];
      try discriminate H; injection H as <- _; eauto. }
  pose proof (enqueue_confined _ _ _ _ _ _ _ E) as [F1 _].
  pose proof (drainQueue_confined _ _ _ _ _ _ _ E2) as [F2 _].
  assert (forall g, g ∈ tasks -> g <> t) as Hne by (intros g Hg ->; contradiction).
  assert (forall g, g ∈ tasks -> is_Some (files w1 !! g)) as Hex1.
  { intros g Hg. rewrite F1; [apply Hex; right; exact Hg|].
    apply task_not_touched; auto. }
  apply elem_of_cons in Hx as [->|Hx].
  - destruct (Hex t ltac:(left)) as [c Hc]. exists c. split; [exact Hc|].
    assert (forall p, p ∈ touchedByEnqueue t -> files w' !! p = files w1 !! p) as Hkeep.
    { intros p Hp. apply F2. intros (g & Hin & Hg)%list_elem_of_bind.
      exact (touchedByEnqueue_disjoint _ _ _ Htjs (Hjs' g Hg)
               (fun Heq => Hne g Hg (eq_sym Heq)) Hp Hin). }
    unfold touchedByEnqueue in Hkeep.
    destruct (containsSourceMapPrefix c) eqn:Hpre.
    + left. split; [reflexivity|].
      rewrite Hkeep by (repeat first [apply list_elem_of_here|apply list_elem_of_further]).
      unfold enqueue in E. rewrite (enqueue_skips _ _ _ _ _ _ Hc Hpre) in E.
      injection E as <- _. reflexivity.
    + right. split; [reflexivity|].
      assert (exists u, minify (originalOf t) c (sourceMapUrlOf t) = Some u) as [u Hu].
      { destruct (minify (originalOf t) c (sourceMapUrlOf t)) as [u|] eqn:Hu; [eauto|].
        exfalso. unfold enqueue, enqueueWaterfall in E.
        erewrite bind_Ret in E by (eapply raise_go; eassumption).
        unfold mbind, M_bind, rename, uglifyMinify in E. cbn [files trace] in E.
        rewrite Hc in E. cbn [files trace] in E. rewrite lookup_insert_eq, Hu in E.
        injection E as _ <-. discriminate H. }
      unfold enqueue in E.
      rewrite (enqueueWaterfall_processes _ _ _ _ _ _ _ Jt Hc Hpre Hu) in E.
      injection E as <- _.
      destruct (derived_paths_distinct t Jt) as (? & ? & ? & ? & ? & ?).
      rewrite !Hkeep by (repeat first [apply list_elem_of_here|apply list_elem_of_further]).
      cbn [files]. unfold processedFiles. destruct gzip.
      * split; [|split; [|intros _]].
        -- rewrite !lookup_insert_ne, lookup_insert_eq by congruence. reflexivity.
        -- rewrite !lookup_insert_ne, lookup_insert_eq by congruence. eauto.
        -- rewrite lookup_insert_eq. eauto.
      * split; [|split; [|discriminate]].
        -- rewrite !lookup_insert_ne, lookup_insert_eq by congruence. reflexivity.
        -- rewrite lookup_insert_ne, lookup_insert_eq by congruence. eauto.
  - destruct (IH w1 w' outs Hnd Hjs' Hex1 E2 x Hx) as (c & Hc & Hcases).
    assert (forall p, p ∈ touchedByEnqueue x -> files w1 !! p = files w !! p) as Hkeep.
    { intros p Hp. apply F1. intros Hin.
      exact (touchedByEnqueue_disjoint _ _ _ (Hjs' x Hx) Htjs (Hne x Hx) Hp Hin). }
    unfold touchedByEnqueue in Hkeep.
    exists c. split.
    + rewrite <- Hkeep by (repeat first [apply list_elem_of_here|apply list_elem_of_further]).
      exact Hc.
    + rewrite <- (Hkeep (originalOf x))
        by (repeat first [apply list_elem_of_here|apply list_elem_of_further]).
      exact Hcases.
Qed.

(** The reconciler's loop runs to its end when every file in it either
    carries the marker or has, in the hash, the original of a processed
    file outside the loop. *)
Lemma reconcile_loop_total gzip hash (l : list string) : forall w,
  NoDup l ->
  (forall f, f ∈ l -> isJsFile f = true) ->
  (forall f, f ∈ l ->
     exists c, files w !! f = Some c
       /\ (containsSourceMapPrefix c = true
           \/ (containsSourceMapPrefix c = false
               /\ exists g, hash !! c = Some (originalOf g)
                    /\ isJsFile g = true /\ ~ occursIn ".orig" g /\ (g ∉ l)
                    /\ is_Some (files w !! g)
                    /\ (gzip = true -> is_Some (files w !! gzippedOf g))))) ->
  exists w', forEachSeries (reconcile gzip hash) l w = (w', Ret tt).
Proof.
  induction l as [|f l IH]; intros w Hnd Hjs Hok; [exists w; reflexivity|].
  apply NoDup_cons in Hnd as [Hf Hnd].
  pose proof (Hjs f ltac:(left)) as Hfjs.
  pose proof (proj1 (isJsFile_true f) Hfjs) as [Jf _].
  rewrite forEachSeries_cons.
  assert (exists w1, reconcile gzip hash f w = (w1, Ret tt)) as [w1 E].
  { destruct (Hok f ltac:(left)) as (c & Hc & [Hpre|(Hpre & g & Hh & Hg & Hfree & Hout & [final Hfin] & Hgz)]).
    - eexists. unfold reconcile. rewrite (reconcile_skips _ _ _ _ _ Hc Hpre). reflexivity.
    - pose proof (proj1 (isJsFile_true g) Hg) as [Jg _].
      assert (f <> g) as Hne by (intros ->; apply Hout; left).
      destruct gzip.
      + destruct (Hgz eq_refl) as [gz Hgz'].
        eexists. apply (reconcile_copies true hash w f g c final gz); auto.
      + eexists. apply (reconcile_copies false hash w f g c final ""); auto.
        discriminate. }
  rewrite E. apply IH; [exact Hnd|intros; apply Hjs; right; assumption|].
  pose proof (reconcile_confined _ _ _ _ _ _ E) as [F _].
  assert (forall p, isJsFile p = true -> p <> f -> files w1 !! p = files w !! p) as Hkeep.
  { intros p Hp Hpf. apply F. destruct (jsfile_not_derived p f Hp Jf) as (? & ? & ?).
    unfold touchedByReconcile. intros Hin.
    repeat (apply elem_of_cons in Hin as [->|Hin]; [contradiction|]).
    apply elem_of_nil in Hin. exact Hin. }
  intros f' Hf'.
  destruct (Hok f' ltac:(right; exact Hf')) as (c & Hc & Hcases).
  assert (f' <> f) as Hne' by (intros ->; contradiction).
  exists c. split; [rewrite Hkeep; auto; apply Hjs; right; exact Hf'|].
  destruct Hcases as [Hpre|(Hpre & g & Hh & Hg & Hfree & Hout & Hfin & Hgz)]; [left; exact Hpre|].
  right. split; [exact Hpre|]. exists g.
  pose proof (proj1 (isJsFile_true g) Hg) as [Jg _].
  assert (g <> f) as Hgf by (intros ->; apply Hout; left).
  split; [exact Hh|]. split; [exact Hg|]. split; [exact Hfree|].
  split; [intros Hin; apply Hout; right; exact Hin|].
  split; [rewrite Hkeep; auto|].
  intros Hz. rewrite F; [auto|].
  destruct (jsfile_not_derived f g Hfjs Jg) as (_ & _ & ?).
  destruct (derived_kinds_distinct f g Jf Jg) as (_ & ? & _).
  pose proof (gzippedOf_inj g f Jg Jf) as Hinj.
  unfold touchedByReconcile. intros Hin.
  repeat (apply elem_of_cons in Hin as [Hin|Hin];
          [first [congruence|apply Hinj in Hin; congruence]|]).
  apply elem_of_nil in Hin. exact Hin.
Qed.

(** X17. On a directory with no [.orig] in any path, with a minifier that
    does not throw, a run ends normally whenever every non-fingerprinted
    file without the marker has the content of some fingerprinted file
    (and that content is not the text [__proto__]): the queue processes
    the fingerprinted files, the reconciler finds an original for every
    non-fingerprinted one, and afterwards every listed file carries the
    marker. *)
Theorem first_run_completes minify gzipBytes gzip jsPattern origPattern finishTime
    (fs0 : gmap string string) :
  (forall path source url, minify path source url <> None) ->
  (forall p, is_Some (fs0 !! p) -> ~ occursIn ".orig" p) ->
  (forall p, origPattern p = true -> Js.endsWith ".orig.js" p = true) ->
  (forall f, f ∈ hashedFilesOf jsPattern fs0 -> origPattern (originalOf f) = true) ->
  (forall f c, f ∈ nonHashedFilesOf jsPattern fs0 -> fs0 !! f = Some c ->
               containsSourceMapPrefix c = false ->
               c <> "__proto__"
               /\ exists h, h ∈ hashedFilesOf jsPattern fs0 /\ fs0 !! h = Some c) ->
  exists w1,
    run minify gzipBytes gzip jsPattern origPattern finishTime (World fs0 []) = (w1, Ret tt)
    /\ (hashedFilesOf jsPattern fs0 <> [] ->
        forall p, p ∈ jsfilesOf jsPattern (files w1) ->
                  exists c, files w1 !! p = Some c /\ containsSourceMapPrefix c = true).
Proof.
  intros Htotal Hfresh Horig Hpat Htwin.
  set (Hs := hashedFilesOf jsPattern fs0).
  set (Ns := nonHashedFilesOf jsPattern fs0).
  assert (exists w1, run minify gzipBytes gzip jsPattern origPattern finishTime (World fs0 [])
                     = (w1, Ret tt)) as [w1 Hrun].
  2:{ exists w1. split; [exact Hrun|]. intros Hne.
      exact (first_run_markers _ _ _ _ _ _ _ _ Hfresh Horig Hne Hrun). }
  assert (forall f, f ∈ Hs -> isJsFile f = true /\ is_Some (fs0 !! f) /\ isHashed f = true)
    as HsP.
  { intros f [Hf Hh]%hashedFilesOf_spec. apply jsfilesOf_spec in Hf. tauto. }
  assert (forall f, f ∈ Ns -> isJsFile f = true /\ is_Some (fs0 !! f) /\ isHashed f <> true)
    as NsP.
  { intros f [Hf Hh]%nonHashedFilesOf_spec. apply jsfilesOf_spec in Hf. tauto. }
  unfold run. cbn [files]. fold Hs Ns.
  destruct Hs as [|h0 Hs0] eqn:EHs; [eexists; reflexivity|]. rewrite <- EHs in *.
  destruct (drainQueue_reports minify gzipBytes gzip Hs (World fs0 []) Htotal)
    as (wq & outs & Eq & _).
  assert (NoDup Hs) as HsND by apply hashedFilesOf_NoDup.
  assert (NoDup Ns) as NsND by apply nonHashedFilesOf_NoDup.
  pose proof (drainQueue_each _ _ _ Hs (World fs0 []) _ _ HsND (fun f Hf => proj1 (HsP f Hf))
                (fun f Hf => proj1 (proj2 (HsP f Hf))) Eq) as Heach.
  cbn [files] in Heach.
  pose proof (drainQueue_confined _ _ _ _ _ _ _ Eq) as [Fq _]. cbn [files] in Fq.
  set (hash := originalFileContentHash origPattern finishTime (files wq)).
  assert (exists w2, forEachSeries (reconcile gzip hash) Ns wq = (w2, Ret tt)) as [w2 E2].
  { apply reconcile_loop_total; [exact NsND|intros f Hf; apply NsP, Hf|].
    intros f Hf. destruct (NsP f Hf) as (Hfjs & [c Hc] & Hfh).
    assert (f ∉ Hs) as HfHs by (intros Hin; apply HsP in Hin; tauto).
    exists c. split.
    { rewrite (drainQueue_keeps_jsfile _ _ _ _ _ _ _ f Eq); auto.
      intros g Hg. apply HsP, Hg. }
    destruct (containsSourceMapPrefix c) eqn:Hpre; [left; reflexivity|right].
    split; [reflexivity|].
    destruct (Htwin f c Hf Hc Hpre) as (Hproto & h & Hh & Hhc).
    (* the twin's original is in the hash's domain *)
    destruct (Heach h Hh) as (c' & Hc' & Hcase). rewrite Hhc in Hc'. injection Hc' as <-.
    destruct Hcase as [[Hpre' _]|(_ & Ho & _)]; [congruence|].
    assert (is_Some (hash !! c)) as [o Hoh].
    { apply (contentHash_complete _ _ _ _ (originalOf h)); [|exact Ho|exact Hproto].
      apply completed_spec. split; [eauto|]. apply Hpat, Hh. }
    destruct (originalFileContentHash_lookup _ _ _ _ _ Hoh) as [Hop Hoc].
    pose proof (Horig o Hop) as Hoe.
    (* the original the hash kept was written by the queue *)
    assert (fs0 !! o = None) as Hnew.
    { destruct (fs0 !! o) eqn:Eo; [|reflexivity]. exfalso.
      apply (Hfresh o); [eauto|]. apply occursIn_orig_suffix, Hoe. }
    assert (o ∈ Hs ≫= touchedByEnqueue) as (g & Hin & Hg)%list_elem_of_bind.
    { destruct (decide (o ∈ Hs ≫= touchedByEnqueue)) as [?|Hout]; [assumption|].
      rewrite (Fq o Hout), Hnew in Hoc. discriminate. }
    destruct (HsP g Hg) as (Hgjs & Hgex & Hgh).
    pose proof (proj1 (isJsFile_true g) Hgjs) as [Jg Hgno].
    assert (o = originalOf g) as ->.
    { unfold touchedByEnqueue in Hin.
      apply elem_of_cons in Hin as [->|Hin]; [congruence|].
      apply elem_of_cons in Hin as [->|Hin]; [reflexivity|].
      pose proof (lastChar_js o (endsWith_orig_js _ Hoe)) as Hl.
      apply elem_of_cons in Hin as [->|Hin];
        [rewrite lastChar_sourcemapOf in Hl by assumption; discriminate|].
      apply elem_of_cons in Hin as [->|Hin];
        [rewrite lastChar_gzippedOf in Hl by assumption; discriminate|].
      apply elem_of_nil in Hin. contradiction. }
    exists g. split; [exact Hoh|]. split; [exact Hgjs|].
    split; [apply Hfresh, Hgex|].
    split; [intros Hin'; apply NsP in Hin'; tauto|].
    destruct (Heach g Hg) as (cg & Hcg & [[_ Hsame]|(_ & _ & Hgf & Hgz)]).
    - rewrite Hsame, Hnew in Hoc. discriminate.
    - auto. }
  eexists. unfold mbind, M_bind. rewrite Eq. unfold onQueueDrain.
  rewrite processNonHashedFiles_eq. fold hash. rewrite E2. reflexivity.
Qed.

Lemma sample_fsPair_hashedFiles :
  hashedFilesOf Sample.jsPattern Sample.fsPair = [Sample.hashed].
Proof. vm_compute. reflexivity. Qed.

Lemma sample_fsPair_nonHashedFiles :
  nonHashedFilesOf Sample.jsPattern Sample.fsPair = [Sample.alias].
Proof. vm_compute. reflexivity. Qed.

Lemma first_run_completes_witness :
  exists w1,
    Sample.run (World Sample.fsPair []) = (w1, Ret tt)
    /\ (hashedFilesOf Sample.jsPattern Sample.fsPair <> [] ->
        forall p, p ∈ jsfilesOf Sample.jsPattern (files w1) ->
                  exists c, files w1 !! p = Some c /\ containsSourceMapPrefix c = true).
Proof.
  apply (first_run_completes Sample.minify Sample.gzipBytes true Sample.jsPattern
           Sample.origPattern Sample.finishTime Sample.fsPair).
  - exact sample_minify_total.
  - exact sample_fsPair_fresh.
  - exact sample_origPattern.
  - intros f Hf. rewrite sample_fsPair_hashedFiles in Hf.
    apply list_elem_of_singleton in Hf as ->. vm_compute. reflexivity.
  - intros f c Hf Hc _. rewrite sample_fsPair_nonHashedFiles in Hf.
    apply list_elem_of_singleton in Hf as ->. vm_compute in Hc. injection Hc as <-.
    split; [discriminate|]. exists Sample.hashed.
    split; [rewrite sample_fsPair_hashedFiles; apply list_elem_of_singleton; reflexivity|].
    vm_compute. reflexivity.
Defined.

(** * The path rewrite, the marker, errors and the reconciler in full *)

(** ** The path rewrite, match by match *)

Lemma rewritePaths_at_leftmost u : forall m rest,
  m ∈ matchForms ->
  noMatchBefore (String.length u) (u +:+ m +:+ rest) ->
  rewritePaths (u +:+ m +:+ rest) = u +:+ "/assets/" +:+ rewritePaths rest.
Proof.
  induction u as [|c u IH]; intros m rest Hin Hleft.
  - rewrite !sapp_nil_l. apply rewritePaths_match, matchAssets_complete, Hin.
  - rewrite !sapp_cons.
    destruct (Js.matchAssets (String c (u +:+ m +:+ rest))) as [r|] eqn:Hm.
    + exfalso. apply matchAssets_Some in Hm as (m' & Hin' & E).
      specialize (Hleft m' "" r Hin'). rewrite sapp_cons, sapp_nil_l in Hleft.
      specialize (Hleft E). simpl in Hleft. lia.
    + rewrite (rewritePaths_skip _ _ Hm). f_equal. apply IH; [exact Hin|].
      apply (noMatchBefore_tail _ c). rewrite <- sapp_cons. exact Hleft.
Qed.

(** The pass determines its output. *)
Lemma replacesMatches_rewritePaths s out :
  replacesMatches s out -> out = rewritePaths s.
Proof.
  induction 1 as [u Hu|u m rest out Hin Hleft _ IH].
  - symmetry. apply rewritePaths_id, Hu.
  - rewrite rewritePaths_at_leftmost, IH by assumption. reflexivity.
Qed.

(** C4, as the code has it. When the single-file processor minifies a
    file, the code it writes (before the marker) and the map it writes are
    the minifier's code and map after one pass from left to right, in
    which each match of [public/assets/], taken where one first begins and
    together with its leading [./], [/] or [.], is replaced by [/assets/];
    the pass leaves exactly one output for a text. The replacement text is
    not scanned again: the output is free of [public/assets/] when no
    match in the input directly follows the text [public] or
    [public/assets]. *)
Theorem C4_path_rewrite minify gzipBytes gzip w jsfile source u :
  Js.endsWith ".js" jsfile = true ->
  files w !! jsfile = Some source ->
  containsSourceMapPrefix source = false ->
  minify (originalOf jsfile) source (sourceMapUrlOf jsfile) = Some u ->
  exists w' outCode outMap,
    enqueueWaterfall minify gzipBytes gzip jsfile w = (w', Ret tt)
    /\ files w' !! jsfile = Some (outCode +:+ sourceMapTextOf jsfile)
    /\ files w' !! sourcemapOf jsfile = Some outMap
    /\ replacesMatches (code u) outCode
    /\ replacesMatches (map u) outMap
    /\ (forall s out out',
          replacesMatches s out -> replacesMatches s out' -> out = out')
    /\ (~ joinsPublic (code u) -> ~ occursIn "public/assets/" outCode)
    /\ (~ joinsPublic (map u) -> ~ occursIn "public/assets/" outMap).
Proof.
  intros Hjs Hf Hc Hu.
  destruct (derived_paths_distinct jsfile Hjs) as (? & ? & ? & ? & ? & ?).
  exists (World (processedFiles gzipBytes gzip jsfile source u (files w))
                (trace w ++ processedTrace gzip jsfile)),
         (rewritePaths (code u)), (rewritePaths (map u)).
  split; [apply enqueueWaterfall_processes; assumption|].
  cbn [files]. unfold processedFiles. cbn [rewriteUglified code map].
  split; [|split].
  - destruct gzip.
    + rewrite !lookup_insert_ne, lookup_insert_eq by congruence. reflexivity.
    + rewrite lookup_insert_ne, lookup_insert_eq by congruence. reflexivity.
  - destruct gzip.
    + rewrite lookup_insert_ne, lookup_insert_eq by congruence. reflexivity.
    + rewrite lookup_insert_eq. reflexivity.
  - split; [apply rewritePaths_replaces|]. split; [apply rewritePaths_replaces|].
    split; [|split; apply rewritePaths_clean].
    intros s out out' Ha Hb.
    rewrite (replacesMatches_rewritePaths _ _ Ha), (replacesMatches_rewritePaths _ _ Hb).
    reflexivity.
Qed.

Lemma C4_path_rewrite_witness :
  exists w' outCode outMap,
    enqueueWaterfall Sample.minify Sample.gzipBytes true Sample.hashed
                     (World Sample.fsPair [])
    = (w', Ret tt)
    /\ files w' !! Sample.hashed = Some (outCode +:+ sourceMapTextOf Sample.hashed)
    /\ files w' !! sourcemapOf Sample.hashed = Some outMap
    /\ replacesMatches
         ("{sources:[./public/assets/app-0123456789abcdef0123456789abcdef.orig.js],"
          +:+ "file:/assets/app-0123456789abcdef0123456789abcdef.js.map}")
         outMap
    /\ outMap = "{sources:[/assets/app-0123456789abcdef0123456789abcdef.orig.js],"
                +:+ "file:/assets/app-0123456789abcdef0123456789abcdef.js.map}".
Proof.
  destruct (C4_path_rewrite Sample.minify Sample.gzipBytes true (World Sample.fsPair [])
              Sample.hashed "var a = 1;"
              (Uglified "min:var a = 1;"
                 ("{sources:[" +:+ originalOf Sample.hashed +:+ "],file:"
                  +:+ sourceMapUrlOf Sample.hashed +:+ "}")))
    as (w' & outCode & outMap & E & Hcode & Hmap & _ & Hr & _).
  - vm_compute. reflexivity.
  - vm_compute. reflexivity.
  - vm_compute. reflexivity.
  - vm_compute. reflexivity.
  - exists w', outCode, outMap. split; [exact E|]. split; [exact Hcode|].
    split; [exact Hmap|]. split; [exact Hr|].
    rewrite (replacesMatches_rewritePaths _ _ Hr). vm_compute. reflexivity.
Defined.

(** The pass takes the leading [./] with the match. *)
Lemma replacesMatches_takes_prefix :
  replacesMatches "./public/assets/x" "/assets/x"
  /\ ~ replacesMatches "./public/assets/x" ".//assets/x".
Proof.
  split.
  - apply (replaces_match "" "./public/assets/" "x" "x").
    + unfold matchForms. apply list_elem_of_here.
    + intros m a b _ _. simpl. lia.
    + apply replaces_rest. apply sample_not_occurs. vm_compute. reflexivity.
  - intros H. apply replacesMatches_rewritePaths in H. vm_compute in H. discriminate H.
Qed.

(** ** The marker and the site path in it *)

Lemma startsWith_before_map p s :
  lastChar p = Some "/"%char ->
  Js.startsWith p (s +:+ ".map") = Js.startsWith p s.
Proof.
  intros Hp. destruct (Js.startsWith p s) eqn:E.
  - apply startsWith_true in E as [r ->]. apply startsWith_true.
    exists (r +:+ ".map"). apply sapp_assoc.
  - destruct (Js.startsWith p (s +:+ ".map")) eqn:E'; [exfalso|reflexivity].
    apply startsWith_true in E' as [r Hr].
    apply sapp_eq_app in Hr as [[a' ->]|(p' & -> & Hx)].
    + assert (Js.startsWith p (p +:+ a') = true) by (apply startsWith_true; eauto).
      congruence.
    + destruct p' as [|c p'].
      * rewrite sapp_nil_r in E.
        assert (Js.startsWith s s = true) by (apply startsWith_true; exists ""; symmetry; apply sapp_nil_r).
        congruence.
      * rewrite lastChar_app in Hp by discriminate.
        rewrite sapp_cons in Hx. injection Hx as <- Hx.
        destruct p' as [|c1 p']; [simpl in Hp; discriminate Hp|].
        rewrite sapp_cons in Hx. injection Hx as <- Hx.
        destruct p' as [|c2 p']; [simpl in Hp; discriminate Hp|].
        rewrite sapp_cons in Hx. injection Hx as <- Hx.
        destruct p' as [|c3 p']; [simpl in Hp; discriminate Hp|].
        rewrite sapp_cons in Hx. injection Hx as <- Hx.
        destruct p' as [|c4 p']; [simpl in Hp; discriminate Hp|].
        rewrite sapp_cons in Hx. discriminate Hx.
Qed.

Lemma stripPublic_cases s :
  (exists r, s = "./public/" +:+ r /\ Js.stripPublic s = r)
  \/ (Js.startsWith "./public/" s = false
      /\ exists r, s = "public/" +:+ r /\ Js.stripPublic s = r)
  \/ (Js.startsWith "./public/" s = false /\ Js.startsWith "public/" s = false
      /\ Js.stripPublic s = s).
Proof.
  unfold Js.stripPublic.
  destruct (Js.stripPrefix "./public/" s) as [r|] eqn:E1.
  { left. exists r. split; [apply stripPrefix_Some, E1|reflexivity]. }
  assert (Js.startsWith "./public/" s = false) as N1.
  { destruct (Js.startsWith "./public/" s) eqn:E; [|reflexivity].
    apply startsWith_stripPrefix in E as [r Hr]. congruence. }
  destruct (Js.stripPrefix "public/" s) as [r|] eqn:E2.
  { right. left. split; [exact N1|]. exists r.
    split; [apply stripPrefix_Some, E2|reflexivity]. }
  right. right. split; [exact N1|]. split; [|reflexivity].
  destruct (Js.startsWith "public/" s) eqn:E; [|reflexivity].
  apply startsWith_stripPrefix in E as [r Hr]. congruence.
Qed.

(** The path in the marker begins with [public/] exactly for a file under
    [./public/public/] or [public/public/]. *)
Lemma site_path_public jsfile :
  Js.startsWith "public/" (Js.stripPublic (jsfile +:+ ".map")) = true
  <-> exists rest, jsfile = "./public/public/" +:+ rest
                   \/ jsfile = "public/public/" +:+ rest.
Proof.
  split.
  - intros H.
    destruct (stripPublic_cases (jsfile +:+ ".map"))
      as [(r & E & Hs)|[(N1 & r & E & Hs)|(N1 & N2 & Hs)]]; rewrite Hs in H.
    + apply startsWith_true in H as [r' ->].
      assert (Js.startsWith "./public/public/" (jsfile +:+ ".map") = true) as K
        by (apply startsWith_true; exists r'; exact E).
      rewrite startsWith_before_map in K by reflexivity.
      apply startsWith_true in K as [rest ->]. eauto.
    + apply startsWith_true in H as [r' ->].
      assert (Js.startsWith "public/public/" (jsfile +:+ ".map") = true) as K
        by (apply startsWith_true; exists r'; exact E).
      rewrite startsWith_before_map in K by reflexivity.
      apply startsWith_true in K as [rest ->]. eauto.
    + congruence.
  - intros [rest [-> | ->]]; rewrite sapp_assoc; reflexivity.
Qed.

(** C5, as the code has it. When the single-file processor completes for
    a [.js] file, the content left at the file's path ends with exactly: a
    newline, [//# sourceMappingURL=], a [/], and the path of the map file
    with one leading [./public/] or [public/] removed. For a file given
    as [./public/rest] or [public/rest] that path is [rest.map]. One
    prefix is removed, not more: the path after the [/] begins with
    [public/] exactly when the file lies under [./public/public/] or
    [public/public/]. *)
Theorem C5_marker_suffix minify gzipBytes gzip w w' jsfile :
  Js.endsWith ".js" jsfile = true ->
  enqueueWaterfall minify gzipBytes gzip jsfile w = (w', Ret tt) ->
  exists body path,
    files w' !! jsfile
    = Some (body +:+ String "010" "//# sourceMappingURL=" +:+ "/" +:+ path)
    /\ path = Js.stripPublic (jsfile +:+ ".map")
    /\ (forall rest, jsfile = "./public/" +:+ rest \/ jsfile = "public/" +:+ rest ->
                     path = rest +:+ ".map")
    /\ (Js.startsWith "public/" path = true
        <-> exists rest, jsfile = "./public/public/" +:+ rest
                         \/ jsfile = "public/public/" +:+ rest).
Proof.
  intros Hjs H.
  destruct (enqueueWaterfall_Ret _ _ _ _ _ _ H) as (source & u & Hf & Hc & Hu).
  rewrite (enqueueWaterfall_processes _ _ _ _ _ _ _ Hjs Hf Hc Hu) in H.
  injection H as <-. cbn [files].
  destruct (derived_paths_distinct jsfile Hjs) as (? & ? & ? & ? & ? & ?).
  exists (rewritePaths (code u)), (Js.stripPublic (jsfile +:+ ".map")).
  split; [|split; [reflexivity|split]].
  - assert (processedFiles gzipBytes gzip jsfile source u (files w) !! jsfile
            = Some (rewritePaths (code u) +:+ sourceMapTextOf jsfile)) as ->.
    { unfold processedFiles. cbn [rewriteUglified code]. destruct gzip.
      - rewrite !lookup_insert_ne, lookup_insert_eq by congruence. reflexivity.
      - rewrite lookup_insert_ne, lookup_insert_eq by congruence. reflexivity. }
    unfold sourceMapTextOf, sourceMapUrlOf, Js.toSitePath.
    rewrite (sourcemapOf_js _ Hjs). reflexivity.
  - intros rest [->| ->]; rewrite sapp_assoc; reflexivity.
  - apply site_path_public.
Qed.

Lemma C5_marker_suffix_witness :
  let w' := (enqueueWaterfall Sample.minify Sample.gzipBytes true Sample.hashed
               (World Sample.fsPair [])).1 in
  exists body path,
    files w' !! Sample.hashed
    = Some (body +:+ String "010" "//# sourceMappingURL=" +:+ "/" +:+ path)
    /\ path = Js.stripPublic (Sample.hashed +:+ ".map")
    /\ (forall rest, Sample.hashed = "./public/" +:+ rest
                     \/ Sample.hashed = "public/" +:+ rest ->
                     path = rest +:+ ".map")
    /\ (Js.startsWith "public/" path = true
        <-> exists rest, Sample.hashed = "./public/public/" +:+ rest
                         \/ Sample.hashed = "public/public/" +:+ rest).
Proof.
  cbv zeta.
  apply (C5_marker_suffix Sample.minify Sample.gzipBytes true (World Sample.fsPair [])).
  - vm_compute. reflexivity.
  - vm_compute. reflexivity.
Defined.

(** C5 fails as stated: line 108 removes one leading [public/] only. Run
    from the directory above an application directory named [public], the
    script's files lie under [public/public/assets] (line 41), and the
    path in the marker of such a file still begins with [public/]. *)
Lemma C5_public_prefix_kept :
  let jsfile := assetsPath "public" "assets" +:+ "/x.js" in
  let r := enqueueWaterfall Sample.minify Sample.gzipBytes false jsfile
             (World {[jsfile := "var x;"]} []) in
  jsfile = "public/public/assets/x.js"
  /\ r.2 = Ret tt
  /\ files r.1 !! jsfile
     = Some ("min:var x;" +:+ String "010" "//# sourceMappingURL=" +:+ "/"
             +:+ "public/assets/x.js.map")
  /\ Js.startsWith "public/" "public/assets/x.js.map" = true.
Proof. cbv zeta. repeat split; vm_compute; reflexivity. Qed.

(** ** Errors in the queue and in the reconciler *)






(** ** The reconciler's copy *)





